(** * A string-keyed hash table with open addressing (hashtable/ht.c)

    Shallow embedding of [ht.c] and proofs of the properties its
    specification states.  Machine integers ([size_t], [uint64_t]) are
    integers of [Z] with the wrap-around at 2^64 written out, C strings are
    read up to their first NUL, pointers are optional references, the entry
    array is a list indexed by slot number and tables live in a heap so that
    an iterator aliases the table it walks. *)

From Stdlib Require Import ZArith Lia Ascii String.
From stdpp Require Import base option list gmap strings sorting.

Local Open Scope Z_scope.

(** ** Machine integers *)

(** [size_t] and [uint64_t] are both 64 bits wide (the FNV constants are
    written with the [UL] suffix). *)
Definition wrap64 (z : Z) : Z := z mod 2 ^ 64.

(** The null pointer of a [void *] value. *)
Definition NULL : Z := 0.

(** ** C strings *)

(** A [const char *] that is not null points to characters ended by a NUL:
    the end of the Rocq string or a zero character, whichever comes first. *)
Definition is_nul (c : ascii) : bool := Ascii.eqb c "000"%char.

Definition uchar (c : ascii) : Z := Z.of_N (Ascii.N_of_ascii c).

(** The characters before the terminator, which is what [strdup] copies. *)
Fixpoint c_str (s : string) : string :=
  match s with
  | EmptyString => EmptyString
  | String c s' => if is_nul c then EmptyString else String c (c_str s')
  end.

(** [strcmp] of the C library: the difference of the first pair of
    (unsigned) characters that differ, 0 when both strings end together. *)
Fixpoint strcmp (a b : string) : Z :=
  match a, b with
  | EmptyString, EmptyString => 0
  | EmptyString, String c2 _ => 0 - uchar c2
  | String c1 _, EmptyString => uchar c1 - 0
  | String c1 a', String c2 b' =>
      if negb (uchar c1 =? uchar c2) then uchar c1 - uchar c2
      else if is_nul c1 then 0
      else strcmp a' b'
  end.

(** [strdup]: a fresh copy of the string, or a null pointer when the
    allocation fails ([ok = false]). *)
Definition strdup (ok : bool) (s : string) : option string :=
  if ok then Some (c_str s) else None.

(** ** Constants *)

Definition FNV_OFFSET : Z := 14695981039346656037.
Definition FNV_PRIME : Z := 1099511628211.
Definition INITIAL_CAPACITY : Z := 16.

(** [sizeof(ht_entry)]: two pointers. *)
Definition sizeof_ht_entry : Z := 16.

(** ** hash_key *)

(** The [for] loop of [hash_key]: [p] is the rest of the key, the loop stops
    at the terminator. *)
Fixpoint hash_key_loop (p : string) (hash : Z) : Z :=
  match p with
  | EmptyString => hash
  | String c p' =>
      if is_nul c then hash
      else
        let hash := Z.lxor hash (uchar c) in
        let hash := wrap64 (hash * FNV_PRIME) in
        hash_key_loop p' hash
  end.

Definition hash_key (key : string) : Z := hash_key_loop key FNV_OFFSET.

(** ** Outcomes of a call *)

(** A call either returns, or it has no result: a loop that never ends, a
    read outside an array, a dereference of a pointer to no live table, or a
    failed [assert]. *)
Inductive fault : Type :=
  | OutOfFuel
  | OutOfBounds
  | BadPointer
  | AssertionFailed.

Inductive res (A : Type) : Type :=
  | Ok (a : A)
  | Err (f : fault).
Arguments Ok {A} a.
Arguments Err {A} f.

#[global] Instance res_ret : MRet res := λ A a, Ok a.
#[global] Instance res_bind : MBind res := λ A B k m,
  match m with
  | Ok a => k a
  | Err f => Err f
  end.

(** ** Data model *)

(** [ht_entry]: [key] is [None] for the null pointer of an empty slot. *)
Record ht_entry : Type := mk_entry {
  key : option string;
  value : Z;
}.

(** What [calloc] leaves in every slot. *)
Definition zero_entry : ht_entry := {| key := None; value := NULL |}.

(** [struct ht]. The entry array is owned by the table, so it is kept by
    value in the record. *)
Record ht : Type := mk_ht {
  entries : list ht_entry;
  capacity : Z;
  length : Z;
}.

(** A pointer to a table: [None] is the null pointer. *)
Abbreviation loc := positive.
Abbreviation heap := (gmap loc ht).

(** [struct hti]: the cursor refers to its table by pointer.  Its fields
    [key] and [value] are [it_key] and [it_value] here, the plain names
    being those of [ht_entry]. *)
Record hti : Type := mk_hti {
  _table : option loc;
  _index : Z;
  it_key : option string;
  it_value : Z;
}.

(** Whether the allocations of one [ht_set] call succeed. *)
Record oracle : Type := mk_oracle {
  calloc_ok : bool;
  strdup_ok : bool;
}.

(** [calloc(n, size)]: fails when [n * size] is not representable or when the
    allocator has no memory, else gives [n] zeroed entries. *)
Definition calloc (ok : bool) (n size : Z) : option (list ht_entry) :=
  if ok && (n * size <? 2 ^ 64) then Some (replicate (Z.to_nat n) zero_entry)
  else None.

(** [entries[i]] read from an array. *)
Definition read (entries : list ht_entry) (i : Z) : res ht_entry :=
  match entries !! Z.to_nat i with
  | Some e => Ok e
  | None => Err OutOfBounds
  end.

(** [index++; if (index >= capacity) index = 0;] *)
Definition next_index (capacity index : Z) : Z :=
  let index := wrap64 (index + 1) in
  if capacity <=? index then 0 else index.

(** [(size_t)(hash & (uint64_t)(capacity - 1))] *)
Definition home (capacity : Z) (key : string) : Z :=
  Z.land (hash_key key) (wrap64 (capacity - 1)).

(** ** ht_get *)

(** The probing loop of [ht_get]; [fuel] bounds the executions of its body. *)
Fixpoint ht_get_loop (fuel : nat) (entries : list ht_entry) (capacity : Z)
    (k : string) (index : Z) : res Z :=
  match read entries index with
  | Err f => Err f
  | Ok e =>
      match key e with
      | None => Ok NULL
      | Some k' =>
          match fuel with
          | O => Err OutOfFuel
          | S fuel' =>
              if strcmp k k' =? 0 then Ok (value e)
              else ht_get_loop fuel' entries capacity k (next_index capacity index)
          end
      end
  end.

Definition deref (h : heap) (l : loc) : res ht :=
  match h !! l with
  | Some t => Ok t
  | None => Err BadPointer
  end.

(** A probe that has not stopped after [capacity] steps has seen every slot
    and will never stop (lemma [ht_get_loop_fuel_exact]), so [capacity] is
    the fuel of the loop. *)
Definition ht_get (h : heap) (table : option loc) (k : option string) : res Z :=
  match table, k with
  | Some l, Some k =>
      t ← deref h l;
      ht_get_loop (Z.to_nat (capacity t)) (entries t) (capacity t) k
        (home (capacity t) k)
  | _, _ => Ok NULL
  end.

(** ** ht_set_entry *)

(** How the [while] loop of [ht_set_entry] is left: by the [return] in its
    body, after the value of an equal key has been overwritten, or by its
    condition, at an empty slot. *)
Inductive probe_exit : Type :=
  | Returned (entries : list ht_entry) (stored : string)
  | Fell (index : Z).

Fixpoint ht_set_entry_loop (fuel : nat) (entries : list ht_entry)
    (capacity : Z) (k : string) (v : Z) (index : Z) : res probe_exit :=
  match read entries index with
  | Err f => Err f
  | Ok e =>
      match key e with
      | None => Ok (Fell index)
      | Some k' =>
          match fuel with
          | O => Err OutOfFuel
          | S fuel' =>
              if strcmp k k' =? 0 then
                Ok (Returned
                      (<[Z.to_nat index := {| key := Some k'; value := v |}]> entries)
                      k')
              else
                ht_set_entry_loop fuel' entries capacity k v
                  (next_index capacity index)
          end
      end
  end.

(** [plength] is [None] for a null pointer and [Some n] for a pointer to a
    counter holding [n]; the array and the counter are returned as the call
    leaves them, with the returned key pointer first. [fuel] is the fuel of
    the probing loop. *)
Definition ht_set_entry (fuel : nat) (strdup_ok : bool)
    (entries : list ht_entry) (capacity : Z) (k : string) (v : Z)
    (plength : option Z) : res (option string * list ht_entry * option Z) :=
  exit ← ht_set_entry_loop fuel entries capacity k v (home capacity k);
  match exit with
  | Returned entries' stored => Ok (Some stored, entries', plength)
  | Fell index =>
      match plength with
      | Some n =>
          match strdup strdup_ok k with
          | None => Ok (None, entries, plength)
          | Some new_key_copy =>
              Ok (Some new_key_copy,
                  <[Z.to_nat index := {| key := Some new_key_copy; value := v |}]> entries,
                  Some (wrap64 (n + 1)))
          end
      | None =>
          Ok (Some k,
              <[Z.to_nat index := {| key := Some k; value := v |}]> entries,
              None)
      end
  end.

(** ** ht_expand *)

(** The rehashing [for] loop: [i] runs over the old array of [table];
    [probe_fuel] is the fuel of each probe into the new array. *)
Fixpoint ht_expand_loop (fuel probe_fuel : nat) (table : ht) (i : Z)
    (new_entries : list ht_entry) (new_capacity : Z) : res (list ht_entry) :=
  if i <? capacity table then
    match fuel with
    | O => Err OutOfFuel
    | S fuel' =>
        match read (entries table) i with
        | Err f => Err f
        | Ok entry =>
            match
              match key entry with
              | Some k =>
                  '(_, new_entries', _) ←
                    ht_set_entry probe_fuel true new_entries new_capacity k
                      (value entry) None;
                  Ok new_entries'
              | None => Ok new_entries
              end
            with
            | Err f => Err f
            | Ok new_entries' =>
                ht_expand_loop fuel' probe_fuel table (wrap64 (i + 1))
                  new_entries' new_capacity
            end
        end
    end
  else Ok new_entries.

(** Returns the flag of the C function with the table as the call leaves
    it. The two messages written to [stderr] are not modelled. The [for]
    loop runs [capacity] times; each probe walks the new array and has its
    capacity as fuel. *)
Definition ht_expand (calloc_ok : bool) (table : ht) : res (bool * ht) :=
  let new_capacity := wrap64 (capacity table * 2) in
  if new_capacity <? capacity table then Ok (false, table)
  else
    match calloc calloc_ok new_capacity sizeof_ht_entry with
    | None => Ok (false, table)
    | Some new_entries =>
        new_entries' ←
          ht_expand_loop (Z.to_nat (capacity table)) (Z.to_nat new_capacity)
            table 0 new_entries new_capacity;
        Ok (true, {| entries := new_entries';
                     capacity := new_capacity;
                     length := length table |})
    end.

(** ** ht_create, ht_destroy, ht_length *)

Definition ht_create (malloc_ok calloc_ok : bool) (h : heap)
    : option loc * heap :=
  if malloc_ok then
    let table := fresh (dom h) in
    match calloc calloc_ok INITIAL_CAPACITY sizeof_ht_entry with
    | None => (None, h)
    | Some es =>
        (Some table,
         <[table := {| entries := es; capacity := INITIAL_CAPACITY; length := 0 |}]> h)
    end
  else (None, h).

(** The keys are owned by the entries, so they go with the table; the loop
    that frees them reads every slot below [capacity]. *)
Definition ht_destroy (h : heap) (table : option loc) : res heap :=
  match table with
  | None => Ok h
  | Some l =>
      t ← deref h l;
      if Z.of_nat (List.length (entries t)) <? capacity t then Err OutOfBounds
      else Ok (delete l h)
  end.

Definition ht_length (h : heap) (table : option loc) : res Z :=
  match table with
  | None => Ok 0
  | Some l => t ← deref h l; Ok (length t)
  end.

(** ** Iterator *)

Definition ht_iterator (table : option loc) : hti :=
  {| _table := table; _index := 0; it_key := None; it_value := NULL |}.

(** The scanning loop of [ht_next] on the table [table] the cursor points
    to; [fuel] bounds the executions of its body. *)
Fixpoint ht_next_loop (fuel : nat) (table : ht) (it : hti) : res (bool * hti) :=
  if _index it <? capacity table then
    match fuel with
    | O => Err OutOfFuel
    | S fuel' =>
        let i := _index it in
        let it := {| _table := _table it; _index := wrap64 (_index it + 1);
                     it_key := it_key it; it_value := it_value it |} in
        match read (entries table) i with
        | Err f => Err f
        | Ok entry =>
            match key entry with
            | Some _ =>
                Ok (true, {| _table := _table it; _index := _index it;
                             it_key := key entry; it_value := value entry |})
            | None => ht_next_loop fuel' table it
            end
        end
    end
  else
    Ok (false, {| _table := _table it; _index := _index it;
                  it_key := None; it_value := NULL |}).

(** [it] is the pointer to the cursor; the cursor is returned as the call
    leaves it.  The scan counts up to [capacity], which is its fuel. *)
Definition ht_next (h : heap) (it : option hti) : res (bool * option hti) :=
  match it with
  | None => Ok (false, None)
  | Some c =>
      match _table c with
      | None => Ok (false, Some c)
      | Some l =>
          table ← deref h l;
          '(b, c') ← ht_next_loop (Z.to_nat (capacity table)) table c;
          Ok (b, Some c')
      end
  end.

(** The client loop [while (ht_next(&it)) ...] of the usage note in
    [ht.c], collecting the key and value the cursor shows after each call.
    No more pairs than slots can be shown, so [capacity] is its fuel. *)
Fixpoint ht_iterate_loop (fuel : nat) (h : heap) (it : hti)
    (seen : list (option string * Z)) : res (list (option string * Z)) :=
  match ht_next h (Some it) with
  | Err f => Err f
  | Ok (true, Some it') =>
      match fuel with
      | O => Err OutOfFuel
      | S fuel' => ht_iterate_loop fuel' h it' (seen ++ [(it_key it', it_value it')])
      end
  | Ok (_, _) => Ok seen
  end.

Definition ht_iterate (h : heap) (table : loc) : res (list (option string * Z)) :=
  t ← deref h table;
  ht_iterate_loop (Z.to_nat (capacity t)) h (ht_iterator (Some table)) [].

Section Build.

(** Whether the translation unit is compiled with [NDEBUG], which removes
    the [assert] of [ht_set]. *)
Variable NDEBUG : bool.

(** ** ht_set *)

Definition ht_set (o : oracle) (h : heap) (table : option loc)
    (k : option string) (v : Z) : res (option string * heap) :=
  if negb NDEBUG && (v =? NULL) then Err AssertionFailed
  else
    match table, k with
    | Some l, Some k =>
        if v =? NULL then Ok (None, h)
        else
          t ← deref h l;
          '(expanded, t) ←
            (if capacity t `div` 2 <=? length t then ht_expand (calloc_ok o) t
             else Ok (true, t));
          let h := <[l := t]> h in
          if negb expanded then Ok (None, h)
          else
            '(ret, entries', plength) ←
              ht_set_entry (Z.to_nat (capacity t)) (strdup_ok o) (entries t)
                (capacity t) k v (Some (length t));
            Ok (ret,
                <[l := {| entries := entries';
                          capacity := capacity t;
                          length := default (length t) plength |}]> h)
    | _, _ => Ok (None, h)
    end.

(** ** Programs over the public interface *)

(** A client sees tables only through the functions of [ht.h]: the struct
    is opaque there. *)
Inductive call : Type :=
  | Create (malloc_ok calloc_ok : bool)
  | Set_ (o : oracle) (table : option loc) (k : option string) (v : Z)
  | Destroy (table : option loc).

Definition exec (c : call) (h : heap) : res heap :=
  match c with
  | Create m c => Ok (ht_create m c h).2
  | Set_ o table k v => '(_, h') ← ht_set o h table k v; Ok h'
  | Destroy table => ht_destroy h table
  end.

Fixpoint run (cs : list call) (h : heap) : res heap :=
  match cs with
  | [] => Ok h
  | c :: cs => h' ← exec c h; run cs h'
  end.

(** The heaps a program can reach from the empty heap. *)
Definition reachable (h : heap) : Prop := ∃ cs, run cs ∅ = Ok h.

(** A row of calls of [ht_set] on one table that all succeed, that is,
    return a key. *)
Fixpoint insert_all (table : loc) (kvs : list (oracle * string * Z)) (h : heap)
    : option heap :=
  match kvs with
  | [] => Some h
  | (o, k, v) :: kvs =>
      match ht_set o h (Some table) (Some k) v with
      | Ok (Some _, h') => insert_all table kvs h'
      | _ => None
      end
  end.

End Build.


(** * An unbalanced binary search tree (bst_c/binary_tree.c) *)

Module BinaryTree.

(** A [struct node *]: null, or a node with its value and its two children.
    A node is reached through its parent only, so the tree is kept by
    value.  Values are [int]s, which [add] only compares. *)
Inductive node_ptr : Type :=
  | Null
  | Node (val : Z) (left right : node_ptr).

(** The [while (1)] loop of [add]: [root] is the node the loop is at and the
    result is that node once [new] hangs below it.  Smaller values go to the
    right, the others to the left. *)
Fixpoint add_loop (root new : node_ptr) (val : Z) : res node_ptr :=
  match root with
  | Null => Err BadPointer
  | Node root_val l r =>
      if val <? root_val then
        match r with
        | Null => Ok (Node root_val l new)
        | Node _ _ _ => r' ← add_loop r new val; Ok (Node root_val l r')
        end
      else
        match l with
        | Null => Ok (Node root_val new r)
        | Node _ _ _ => l' ← add_loop l new val; Ok (Node root_val l' r)
        end
  end.

(** [malloc] is not checked: when it fails the fields of the new node are
    written through a null pointer.  The result is the tree behind the
    pointer [add] returns. *)
Definition add (malloc_ok : bool) (root : node_ptr) (val : Z) : res node_ptr :=
  if malloc_ok then
    let new := Node val Null Null in
    match root with
    | Null => Ok new
    | Node _ _ _ => add_loop root new val
    end
  else Err BadPointer.

(** The values [print_sorted] prints, one per line, in the order it prints
    them. *)
Fixpoint print_sorted (root : node_ptr) : list Z :=
  match root with
  | Null => []
  | Node val l r => print_sorted l ++ val :: print_sorted r
  end.

(** What [main] prints. *)
Definition main : res (list Z) :=
  root ← add true Null 10;
  root ← add true root 5;
  root ← add true root 120;
  root ← add true root 40;
  root ← add true root 33;
  root ← add true root 2;
  root ← add true root 11;
  root ← add true root 23;
  Ok (print_sorted root).

(** A caller that adds a row of values as [main] does,
    [root = add(root, val)] for each. *)
Fixpoint add_all (vals : list Z) (root : node_ptr) : res node_ptr :=
  match vals with
  | [] => Ok root
  | val :: vals' => root' ← add true root val; add_all vals' root'
  end.

(** The order [add] keeps: the values to the left of a node are not smaller
    than its value and the values to its right are smaller. *)
Fixpoint ordered (root : node_ptr) : Prop :=
  match root with
  | Null => True
  | Node val l r =>
      Forall (λ x, val ≤ x) (print_sorted l) ∧
      Forall (λ x, x < val) (print_sorted r) ∧
      ordered l ∧ ordered r
  end.

End BinaryTree.
(** * Notions used to state the properties *)

(** ** Probe sequences *)

(** The slot reached from [i] after [d] steps. *)
Definition slot_after (capacity i : Z) (d : nat) : Z :=
  (i + Z.of_nat d) `mod` capacity.

(** The number of steps from slot [i] to slot [j]. *)
Definition steps_to (capacity i j : Z) : nat :=
  Z.to_nat ((j - i) `mod` capacity).

(** The two probing loops, of [ht_get] and of [ht_set_entry], walk the array
    in the same way.  [probe] is that walk alone: it gives the slot where
    the walk for [k] stops, with the entry found there. *)
Fixpoint probe (fuel : nat) (entries : list ht_entry) (capacity : Z)
    (k : string) (index : Z) : res (Z * ht_entry) :=
  match read entries index with
  | Err f => Err f
  | Ok e =>
      match key e with
      | None => Ok (index, e)
      | Some k' =>
          match fuel with
          | O => Err OutOfFuel
          | S fuel' =>
              if strcmp k k' =? 0 then Ok (index, e)
              else probe fuel' entries capacity k (next_index capacity index)
          end
      end
  end.

(** Slot [i] holds some key. *)
Definition occupied (entries : list ht_entry) (i : Z) : Prop :=
  ∃ e k', read entries i = Ok e ∧ key e = Some k'.

(** Slot [i] holds a key other than [k]. *)
Definition taken_by_other (entries : list ht_entry) (k : string) (i : Z) : Prop :=
  ∃ e k', read entries i = Ok e ∧ key e = Some k' ∧ c_str k ≠ c_str k'.

(** The first [d] slots walked from [i] all hold keys other than [k]. *)
Definition collides (entries : list ht_entry) (capacity : Z) (k : string)
    (i : Z) (d : nat) : Prop :=
  ∀ j, (j < d)%nat → taken_by_other entries k (slot_after capacity i j).

(** ** Contents of an entry array *)

(** Key [k] is stored with value [v]. *)
Definition holds (entries : list ht_entry) (k : string) (v : Z) : Prop :=
  ∃ (i : nat) e k',
    entries !! i = Some e ∧ key e = Some k' ∧ c_str k' = c_str k ∧ value e = v.

(** No slot stores key [k]. *)
Definition absent (entries : list ht_entry) (k : string) : Prop :=
  ∀ (i : nat) e k', entries !! i = Some e → key e = Some k' → c_str k' ≠ c_str k.

(** The number of occupied slots. *)
Fixpoint population (entries : list ht_entry) : Z :=
  match entries with
  | [] => 0
  | e :: entries' =>
      match key e with
      | Some _ => 1 + population entries'
      | None => population entries'
      end
  end.

(** The key and value pairs of the occupied slots, in slot order. *)
Fixpoint contents (entries : list ht_entry) : list (string * Z) :=
  match entries with
  | [] => []
  | e :: entries' =>
      match key e with
      | Some k => (k, value e) :: contents entries'
      | None => contents entries'
      end
  end.

(** ** Invariants *)

(** Linear probing without deletion: every stored key is separated from its
    home slot by slots that hold other keys, so its own probe finds it. *)
Definition probe_inv (entries : list ht_entry) (capacity : Z) : Prop :=
  ∀ (i : nat) e k,
    entries !! i = Some e → key e = Some k →
    collides entries capacity k (home capacity k)
      (steps_to capacity (home capacity k) (Z.of_nat i)).

Record entries_wf (entries : list ht_entry) (capacity : Z) : Prop := {
  wf_size : Z.of_nat (List.length entries) = capacity;
  wf_capacity : 0 < capacity < 2 ^ 64;
  wf_probe : probe_inv entries capacity;
}.

Record ht_wf (t : ht) : Prop := {
  wf_entries : entries_wf (entries t) (capacity t);
  wf_pow2 : ∃ n, 4 ≤ n ∧ capacity t = 2 ^ n;
  wf_length : length t = population (entries t);
  wf_load : 2 * length t ≤ capacity t;
}.

(** Every live table of the heap is well formed. *)
Definition heap_wf (h : heap) : Prop :=
  ∀ l t, h !! l = Some t → ht_wf t.

(** [es'] is [es] with [k] now stored with [v], every other key as before. *)
Definition stores (es es' : list ht_entry) (capacity : Z) (k : string) (v : Z)
    : Prop :=
  entries_wf es' capacity ∧ holds es' k v ∧
  ∀ k2 w, c_str k2 ≠ c_str k → holds es' k2 w ↔ holds es k2 w.

(** ** Histories of insertions *)

(** The value most recently set for [k] by a row of insertions. *)
Fixpoint last_set (kvs : list (oracle * string * Z)) (k : string) : option Z :=
  match kvs with
  | [] => None
  | (_, k', v) :: kvs =>
      match last_set kvs k with
      | Some w => Some w
      | None => if decide (c_str k' = c_str k) then Some v else None
      end
  end.

(** The keys a row of insertions sets, as C strings. *)
Definition keys_set (kvs : list (oracle * string * Z)) : list string :=
  (λ x, c_str x.1.2) <$> kvs.

(** What the cursor shows for a stored pair. *)
Definition shown (p : string * Z) : option string * Z := (Some p.1, p.2).

(** ** Repeated calls of ht_next *)

(** The result of the last of [n + 1] calls of [ht_next] in a row on one
    cursor, the table being left alone in between. *)
Fixpoint ht_next_times (n : nat) (h : heap) (it : option hti)
    : res (bool * option hti) :=
  match n with
  | O => ht_next h it
  | S n' => '(_, it') ← ht_next h it; ht_next_times n' h it'
  end.

(** ** Sample programs *)

(** The programs below are run in a build with assertions compiled in. *)
Definition all_ok : oracle := {| calloc_ok := true; strdup_ok := true |}.
Definition no_strdup : oracle := {| calloc_ok := true; strdup_ok := false |}.
Definition no_calloc : oracle := {| calloc_ok := false; strdup_ok := true |}.

(** The first table a program creates. *)
Definition table1 : loc := 1%positive.

(** The heap a program leaves. *)
Definition heap_after (cs : list call) : heap :=
  match run false cs ∅ with
  | Ok h => h
  | Err _ => ∅
  end.

(** The heap a call of [ht_set] leaves. *)
Definition heap_of (r : res (option string * heap)) : heap :=
  match r with
  | Ok (_, h) => h
  | Err _ => ∅
  end.

(** The table behind a pointer. *)
Definition table_at (h : heap) (l : loc) : ht :=
  default {| entries := []; capacity := 0; length := 0 |} (h !! l).

(** Create a table. *)
Definition prog_empty : list call := [Create true true].

(** Create a table and set ["a"] to 1. *)
Definition prog_a : list call :=
  [Create true true; Set_ all_ok (Some table1) (Some "a"%string) 1].

(** Create a table and set eight keys to 7, which fills it to the growth
    threshold. *)
Definition prog_8 : list call :=
  Create true true ::
  ((λ k, Set_ all_ok (Some table1) (Some k) 7) <$>
     ["k1"; "k2"; "k3"; "k4"; "k5"; "k6"; "k7"; "k8"]%string).

(** Three insertions of different keys. *)
Definition abc : list (oracle * string * Z) :=
  [(all_ok, "a", 1); (all_ok, "b", 2); (all_ok, "c", 3)]%string.

Definition heap_empty : heap := heap_after prog_empty.
Definition heap_a : heap := heap_after prog_a.
Definition heap_8 : heap := heap_after prog_8.
Definition heap_ab : heap :=
  heap_of (ht_set false all_ok heap_a (Some table1) (Some "b"%string) 2).
Definition heap_ab' : heap :=
  heap_of (ht_set false all_ok heap_ab (Some table1) (Some "b"%string) 3).
Definition heap_abc : heap :=
  default ∅ (insert_all false table1 abc heap_empty).

(** ** Further notions *)

(** No stored value is a null pointer. *)
Definition values_set (t : ht) : Prop :=
  ∀ k v, holds (entries t) k v → v ≠ NULL.

(** The number of different keys a row of insertions sets. *)
Definition distinct_keys (kvs : list (oracle * string * Z)) : Z :=
  Z.of_nat (List.length (remove_dups (keys_set kvs))).

(** ** Further sample programs *)

(** Three insertions, the last one of a key set before. *)
Definition aba : list (oracle * string * Z) :=
  [(all_ok, "a", 1); (all_ok, "b", 2); (all_ok, "a", 3)]%string.

Definition heap_aba : heap :=
  default ∅ (insert_all false table1 aba heap_empty).

(** ["b"] set first, then ["a"]. *)
Definition heap_b : heap :=
  heap_of (ht_set false all_ok heap_empty (Some table1) (Some "b"%string) 2).
Definition heap_ba : heap :=
  heap_of (ht_set false all_ok heap_b (Some table1) (Some "a"%string) 1).

(** The cursor a call of [ht_next] leaves. *)
Definition cursor_of (r : res (bool * option hti)) : hti :=
  match r with
  | Ok (_, Some c) => c
  | _ => ht_iterator None
  end.

(** An array of two slots, both taken. *)
Definition full2 : list ht_entry :=
  [{| key := Some "a"%string; value := 1 |};
   {| key := Some "b"%string; value := 2 |}].

(** ["ab"] followed by a NUL and more. *)
Definition ab_nul_c : string :=
  String "a" (String "b" (String "000" (String "c" EmptyString))).

(** The table filled with eight keys after a ninth insertion whose copy of
    the key fails: the table has grown and the key is not stored. *)
Definition heap_8_grown : heap :=
  heap_of (ht_set false no_strdup heap_8 (Some table1) (Some "k9"%string) 7).

(** ** The loop bodies an operation executes *)

(** The number of times the body of a probing loop is executed when the
    probe for [k] starts at [index]: the loops of [ht_get] and of
    [ht_set_entry] have the same head and leave their body at the same
    places, so one count serves both. The body runs once for every taken
    slot the probe visits, the slot of an equal key included; the empty slot
    that ends the probe fails the loop condition and runs no body. *)
Fixpoint probe_bodies (fuel : nat) (entries : list ht_entry) (capacity : Z)
    (k : string) (index : Z) : nat :=
  match read entries index with
  | Err _ => O
  | Ok e =>
      match key e with
      | None => O
      | Some k' =>
          match fuel with
          | O => O
          | S fuel' =>
              if strcmp k k' =? 0 then 1%nat
              else S (probe_bodies fuel' entries capacity k
                        (next_index capacity index))
          end
      end
  end.

(** The loop bodies the rehashing [for] loop of [ht_expand] executes from
    [i] on: one for each slot of the old array, and for a taken slot those
    of the probe [ht_set_entry] makes into the new array. *)
Fixpoint ht_expand_loop_bodies (fuel probe_fuel : nat) (table : ht) (i : Z)
    (new_entries : list ht_entry) (new_capacity : Z) : nat :=
  if i <? capacity table then
    match fuel with
    | O => O
    | S fuel' =>
        match read (entries table) i with
        | Err _ => 1%nat
        | Ok entry =>
            match key entry with
            | Some k =>
                S (probe_bodies probe_fuel new_entries new_capacity k
                     (home new_capacity k)
                   + match
                       ht_set_entry probe_fuel true new_entries new_capacity k
                         (value entry) None
                     with
                     | Ok (_, new_entries', _) =>
                         ht_expand_loop_bodies fuel' probe_fuel table
                           (wrap64 (i + 1)) new_entries' new_capacity
                     | Err _ => O
                     end)
            | None =>
                S (ht_expand_loop_bodies fuel' probe_fuel table (wrap64 (i + 1))
                     new_entries new_capacity)
            end
        end
    end
  else O.

(** The loop bodies a call of [ht_expand] executes. *)
Definition ht_expand_bodies (calloc_ok : bool) (table : ht) : nat :=
  let new_capacity := wrap64 (capacity table * 2) in
  if new_capacity <? capacity table then O
  else
    match calloc calloc_ok new_capacity sizeof_ht_entry with
    | None => O
    | Some new_entries =>
        ht_expand_loop_bodies (Z.to_nat (capacity table)) (Z.to_nat new_capacity)
          table 0 new_entries new_capacity
    end.

(** The loop bodies a call of [ht_set] with a live table, a key and a
    value that is not null executes: those of growth when it is due, and
    those of the probe of [ht_set_entry] when the call gets that far. *)
Definition ht_set_bodies (o : oracle) (h : heap) (table : loc) (k : string)
    : nat :=
  match h !! table with
  | None => O
  | Some t =>
      if capacity t `div` 2 <=? length t then
        (ht_expand_bodies (calloc_ok o) t
         + match ht_expand (calloc_ok o) t with
           | Ok (true, t1) =>
               probe_bodies (Z.to_nat (capacity t1)) (entries t1) (capacity t1) k
                 (home (capacity t1) k)
           | _ => O
           end)%nat
      else
        probe_bodies (Z.to_nat (capacity t)) (entries t) (capacity t) k
          (home (capacity t) k)
  end.

(** ** Sample programs with two tables, growth and colliding keys *)

(** The second table a program creates. *)
Definition table2 : loc := 2%positive.

(** Create two tables and set ["z"] to 9 in the second. *)
Definition prog_two : list call :=
  [Create true true; Create true true;
   Set_ all_ok (Some table2) (Some "z"%string) 9].

Definition heap_two : heap := heap_after prog_two.

(** ["a"] set to 1 in the first of the two tables. *)
Definition heap_two_a : heap :=
  heap_of (ht_set false all_ok heap_two (Some table1) (Some "a"%string) 1).

(** The table filled with eight keys after a ninth is set: it has grown. *)
Definition heap_9 : heap :=
  heap_of (ht_set false all_ok heap_8 (Some table1) (Some "k9"%string) 7).

(** Nine keys whose hashes agree in their five low bits: they have the same
    home in an array of 16 slots and in one of 32. *)
Definition colliding : list string :=
  ["k0"; "k22"; "k57"; "k93"; "k109"; "k123"; "k145"; "k178"; "k192"]%string.

(** Create a table and set the first eight of the colliding keys to 7. *)
Definition prog_c8 : list call :=
  Create true true ::
  ((λ k, Set_ all_ok (Some table1) (Some k) 7) <$> take 8 colliding).

Definition heap_c8 : heap := heap_after prog_c8.

(** The ninth colliding key set as well. *)
Definition heap_c9 : heap :=
  heap_of (ht_set false all_ok heap_c8 (Some table1) (Some "k192"%string) 7).

(** The table of the eight colliding keys after the ninth insertion when
    the copy of the key fails: the table has grown and the key is not
    stored, which is the store the probe of the ninth key walks. *)
Definition heap_c8_grown : heap :=
  heap_of (ht_set false no_strdup heap_c8 (Some table1) (Some "k192"%string) 7).

(** * Proofs *)

(** ** C strings *)

Lemma uchar_inj c1 c2 : uchar c1 = uchar c2 → c1 = c2.
Proof.
  unfold uchar. intros H. apply N2Z.inj in H.
  rewrite <- (ascii_N_embedding c1), <- (ascii_N_embedding c2). by f_equal.
Qed.

Lemma is_nul_uchar c : is_nul c = true ↔ uchar c = 0.
Proof.
  unfold is_nul. rewrite Ascii.eqb_eq. split.
  - by intros ->.
  - intros H. by apply uchar_inj.
Qed.

Lemma is_nul_false c : is_nul c = false ↔ uchar c ≠ 0.
Proof.
  rewrite <- is_nul_uchar. destruct (is_nul c); split; congruence.
Qed.

(** [strcmp] returns 0 exactly on strings with the same characters before
    their terminators. *)
Lemma strcmp_0 a b : strcmp a b = 0 ↔ c_str a = c_str b.
Proof.
  revert b. induction a as [|c1 a IH]; intros [|c2 b]; simpl.
  - done.
  - destruct (is_nul c2) eqn:E.
    + apply is_nul_uchar in E. split; [done | lia].
    + apply is_nul_false in E. split; [lia | done].
  - destruct (is_nul c1) eqn:E.
    + apply is_nul_uchar in E. split; [done | lia].
    + apply is_nul_false in E. split; [lia | done].
  - destruct (Z.eqb_spec (uchar c1) (uchar c2)) as [Heq | Hne]; simpl.
    + apply uchar_inj in Heq as ->.
      destruct (is_nul c2); [done |].
      rewrite IH. split; [by intros -> | by intros [= ->]].
    + split; [lia |].
      destruct (is_nul c1) eqn:E1, (is_nul c2) eqn:E2; try done.
      * apply is_nul_uchar in E1, E2. lia.
      * intros [= -> _]. done.
Qed.

Lemma c_str_idemp s : c_str (c_str s) = c_str s.
Proof.
  induction s as [|c s IH]; simpl; [done |].
  destruct (is_nul c) eqn:E; simpl; [done |]. by rewrite E, IH.
Qed.

Lemma hash_key_loop_c_str s acc : hash_key_loop (c_str s) acc = hash_key_loop s acc.
Proof.
  revert acc. induction s as [|c s IH]; intros acc; simpl; [done |].
  destruct (is_nul c) eqn:E; simpl; [done |]. by rewrite E, IH.
Qed.

(** The hash reads a key up to its terminator only: equal C strings have
    equal hashes. *)
Lemma hash_key_same a b : c_str a = c_str b → hash_key a = hash_key b.
Proof.
  intros H. unfold hash_key.
  by rewrite <- (hash_key_loop_c_str a), <- (hash_key_loop_c_str b), H.
Qed.

Lemma home_same capacity a b : c_str a = c_str b → home capacity a = home capacity b.
Proof. intros H. unfold home. by rewrite (hash_key_same a b). Qed.

(** ** Slot arithmetic *)

Lemma land_bound a b : 0 ≤ b → 0 ≤ Z.land a b ≤ b.
Proof.
  intros Hb. apply Z.ldiff_le; [done |].
  apply Z.bits_inj'. intros n Hn.
  rewrite Z.ldiff_spec, Z.land_spec, Z.bits_0.
  destruct (Z.testbit a n), (Z.testbit b n); done.
Qed.

Lemma home_bound capacity k :
  0 < capacity < 2 ^ 64 → 0 ≤ home capacity k < capacity.
Proof.
  intros Hc. unfold home, wrap64.
  rewrite (Z.mod_small (capacity - 1)) by lia.
  pose proof (land_bound (hash_key k) (capacity - 1)). lia.
Qed.

(** Inside the array, stepping is adding 1 modulo the capacity. *)
Lemma next_index_mod capacity i :
  0 ≤ i < capacity → capacity < 2 ^ 64 →
  next_index capacity i = (i + 1) `mod` capacity.
Proof.
  intros Hi Hc. unfold next_index, wrap64.
  rewrite (Z.mod_small (i + 1)) by lia.
  destruct (Z.leb_spec capacity (i + 1)).
  - replace (i + 1) with capacity by lia. by rewrite Z.mod_same by lia.
  - by rewrite Z.mod_small by lia.
Qed.

Lemma slot_after_bound capacity i d :
  0 < capacity → 0 ≤ slot_after capacity i d < capacity.
Proof. intros. unfold slot_after. apply Z.mod_pos_bound. lia. Qed.

Lemma slot_after_0 capacity i : 0 ≤ i < capacity → slot_after capacity i 0 = i.
Proof. intros. unfold slot_after. rewrite Z.add_0_r. by apply Z.mod_small. Qed.

Lemma slot_after_S capacity i d :
  0 ≤ i < capacity → capacity < 2 ^ 64 →
  slot_after capacity (next_index capacity i) d = slot_after capacity i (S d).
Proof.
  intros Hi Hc. unfold slot_after. rewrite next_index_mod by done.
  rewrite Z.add_mod_idemp_l by lia. f_equal. lia.
Qed.

(** After [capacity] steps the walk is back where it started. *)
Lemma slot_after_capacity capacity i :
  0 < capacity →
  slot_after capacity i (Z.to_nat capacity) = slot_after capacity i 0.
Proof.
  intros Hc. unfold slot_after. rewrite Z2Nat.id by lia.
  rewrite <- (Z.mod_add (i + Z.of_nat 0) 1 capacity) by lia. f_equal. lia.
Qed.

Lemma steps_to_bound capacity i j :
  0 < capacity → (steps_to capacity i j < Z.to_nat capacity)%nat.
Proof.
  intros. unfold steps_to.
  pose proof (Z.mod_pos_bound (j - i) capacity). lia.
Qed.

Lemma slot_after_steps_to capacity i j :
  0 ≤ j < capacity → slot_after capacity i (steps_to capacity i j) = j.
Proof.
  intros Hj. unfold slot_after, steps_to.
  pose proof (Z.mod_pos_bound (j - i) capacity).
  rewrite Z2Nat.id by lia.
  rewrite Z.add_mod_idemp_r by lia.
  replace (i + (j - i)) with j by lia. by apply Z.mod_small.
Qed.

Lemma steps_to_slot_after capacity i d :
  0 ≤ i < capacity → (d < Z.to_nat capacity)%nat →
  steps_to capacity i (slot_after capacity i d) = d.
Proof.
  intros Hi Hd. unfold slot_after, steps_to.
  rewrite Zminus_mod_idemp_l.
  replace (i + Z.of_nat d - i) with (Z.of_nat d) by lia.
  rewrite Z.mod_small by lia. lia.
Qed.

(** Two different step counts below the capacity lead to different slots. *)
Lemma slot_after_inj capacity i d1 d2 :
  0 ≤ i < capacity → (d1 < Z.to_nat capacity)%nat → (d2 < Z.to_nat capacity)%nat →
  slot_after capacity i d1 = slot_after capacity i d2 → d1 = d2.
Proof.
  intros Hi H1 H2 Heq.
  rewrite <- (steps_to_slot_after capacity i d1), <- (steps_to_slot_after capacity i d2)
    by done.
  by rewrite Heq.
Qed.

(** ** Reading slots *)

Lemma read_Ok es i e : read es i = Ok e ↔ es !! Z.to_nat i = Some e.
Proof.
  unfold read. destruct (es !! Z.to_nat i); split; congruence.
Qed.

Lemma read_Err es i f : read es i = Err f → f = OutOfBounds.
Proof. unfold read. destruct (es !! Z.to_nat i); congruence. Qed.

Lemma read_lookup es (i : nat) e : es !! i = Some e → read es (Z.of_nat i) = Ok e.
Proof. intros H. apply read_Ok. by rewrite Nat2Z.id. Qed.

Lemma read_in_bounds es i :
  0 ≤ i < Z.of_nat (List.length es) → ∃ e, read es i = Ok e.
Proof.
  intros Hi. destruct (lookup_lt_is_Some_2 es (Z.to_nat i)) as [e He]; [lia |].
  exists e. by apply read_Ok.
Qed.

(** ** The probe walk *)

(** Both loops of the source are the walk followed by what each does at the
    slot where it stops. *)
Lemma ht_get_loop_probe fuel es capacity k i :
  ht_get_loop fuel es capacity k i =
  match probe fuel es capacity k i with
  | Ok (_, e) => Ok (match key e with Some _ => value e | None => NULL end)
  | Err f => Err f
  end.
Proof.
  revert i. induction fuel as [|fuel IH]; intros i; simpl;
    destruct (read es i) as [e|]; try done;
    destruct (key e) as [k0|] eqn:Ek; simpl; rewrite ?Ek; try done.
  destruct (strcmp k k0 =? 0); [by rewrite Ek | apply IH].
Qed.

Lemma ht_set_entry_loop_probe fuel es capacity k v i :
  ht_set_entry_loop fuel es capacity k v i =
  match probe fuel es capacity k i with
  | Ok (i', e) =>
      Ok (match key e with
          | Some k' =>
              Returned (<[Z.to_nat i' := {| key := Some k'; value := v |}]> es) k'
          | None => Fell i'
          end)
  | Err f => Err f
  end.
Proof.
  revert i. induction fuel as [|fuel IH]; intros i; simpl;
    destruct (read es i) as [e|]; try done;
    destruct (key e) as [k0|] eqn:Ek; simpl; rewrite ?Ek; try done.
  destruct (strcmp k k0 =? 0); [by rewrite Ek | apply IH].
Qed.

Lemma collides_next es capacity k i d :
  0 ≤ i < capacity → capacity < 2 ^ 64 →
  collides es capacity k i (S d) → collides es capacity k (next_index capacity i) d.
Proof.
  intros Hi Hc H j Hj. rewrite slot_after_S by done. apply H. lia.
Qed.

Lemma collides_cons es capacity k i d :
  0 ≤ i < capacity → capacity < 2 ^ 64 →
  taken_by_other es k i → collides es capacity k (next_index capacity i) d →
  collides es capacity k i (S d).
Proof.
  intros Hi Hc H0 H [|j] Hj.
  - by rewrite slot_after_0.
  - rewrite <- slot_after_S by done. apply H. lia.
Qed.

Lemma collides_same es capacity k k' i d :
  c_str k = c_str k' → collides es capacity k i d → collides es capacity k' i d.
Proof.
  intros Hk H j Hj. destruct (H j Hj) as (e & k0 & ? & ? & ?).
  exists e, k0. by rewrite <- Hk.
Qed.

Lemma next_index_bound capacity i :
  0 ≤ i < capacity → capacity < 2 ^ 64 → 0 ≤ next_index capacity i < capacity.
Proof.
  intros. rewrite next_index_mod by done. apply Z.mod_pos_bound. lia.
Qed.

(** Where a walk that stops has stopped: after [d] slots taken by other
    keys, at an empty slot or at a slot holding the key. *)
Lemma probe_Ok fuel es capacity k i0 i e :
  0 ≤ i0 < capacity → capacity < 2 ^ 64 →
  probe fuel es capacity k i0 = Ok (i, e) →
  ∃ d, (d ≤ fuel)%nat ∧ collides es capacity k i0 d ∧
       i = slot_after capacity i0 d ∧ read es i = Ok e ∧
       (key e = None ∨
        ∃ k', key e = Some k' ∧ c_str k = c_str k' ∧ (d < fuel)%nat).
Proof.
  intros Hi Hc. revert i0 Hi.
  induction fuel as [|fuel IH]; intros i0 Hi; simpl;
    destruct (read es i0) as [e0|] eqn:Hr; try done;
    destruct (key e0) as [k0|] eqn:Ek; try done.
  - intros [= <- <-]. exists 0%nat. rewrite slot_after_0 by done.
    split_and!; [lia | intros j; lia | done | done | by left].
  - destruct (Z.eqb_spec (strcmp k k0) 0) as [Heq | Hne].
    + intros [= <- <-]. exists 0%nat. rewrite slot_after_0 by done.
      split_and!; [lia | intros j; lia | done | done |].
      right. exists k0. apply strcmp_0 in Heq. split_and!; [done | done | lia].
    + intros H. apply IH in H as (d & Hd & Hcol & -> & Hre & Hstop);
        [| by apply next_index_bound].
      exists (S d). split_and!.
      * lia.
      * apply collides_cons; [done | done | | done].
        exists e0, k0. by rewrite strcmp_0 in Hne.
      * by apply slot_after_S.
      * done.
      * destruct Hstop as [? | (k' & ? & ? & ?)]; [by left |].
        right. exists k'. split_and!; [done | done | lia].
  - intros [= <- <-]. exists 0%nat. rewrite slot_after_0 by done.
    split_and!; [lia | intros j; lia | done | done | by left].
Qed.

(** A walk out of fuel has only met other keys. *)
Lemma probe_OutOfFuel fuel es capacity k i0 :
  0 ≤ i0 < capacity → capacity < 2 ^ 64 →
  probe fuel es capacity k i0 = Err OutOfFuel →
  collides es capacity k i0 fuel ∧ occupied es (slot_after capacity i0 fuel).
Proof.
  intros Hi Hc. revert i0 Hi.
  induction fuel as [|fuel IH]; intros i0 Hi; simpl;
    (destruct (read es i0) as [e0|f0] eqn:Hr;
      [| by intros [= ->]; apply read_Err in Hr]);
    (destruct (key e0) as [k0|] eqn:Ek; [| done]).
  - intros _. rewrite slot_after_0 by done. split; [intros j; lia |].
    by exists e0, k0.
  - destruct (Z.eqb_spec (strcmp k k0) 0) as [Heq | Hne]; [done |].
    intros H. apply IH in H as [Hcol Hocc]; [| by apply next_index_bound].
    rewrite slot_after_S in Hocc by done. split; [| done].
    apply collides_cons; [done | done | | done].
    exists e0, k0. by rewrite strcmp_0 in Hne.
Qed.

(** The only other fault of a walk is a read outside the array. *)
Lemma probe_Err fuel es capacity k i0 f :
  0 ≤ i0 < capacity → capacity < 2 ^ 64 →
  probe fuel es capacity k i0 = Err f →
  f = OutOfFuel ∨ ∃ d, read es (slot_after capacity i0 d) = Err OutOfBounds.
Proof.
  intros Hi Hc. revert i0 Hi.
  induction fuel as [|fuel IH]; intros i0 Hi; simpl;
    destruct (read es i0) as [e0|f0] eqn:Hr.
  - destruct (key e0); [intros [= <-]; by left | done].
  - intros [= <-]. right. exists 0%nat. rewrite slot_after_0 by done.
    by rewrite Hr, (read_Err _ _ _ Hr).
  - destruct (key e0) as [k0|]; [| done].
    destruct (strcmp k k0 =? 0); [done |].
    intros H. apply IH in H as [-> | [d Hd]]; [by left | | by apply next_index_bound].
    right. exists (S d). by rewrite <- slot_after_S.
  - intros [= <-]. right. exists 0%nat. rewrite slot_after_0 by done.
    by rewrite Hr, (read_Err _ _ _ Hr).
Qed.

(** Conversely, the walk stops at the first slot that is empty or holds the
    key. *)
Lemma probe_stop d fuel es capacity k i0 e :
  0 ≤ i0 < capacity → capacity < 2 ^ 64 →
  collides es capacity k i0 d →
  read es (slot_after capacity i0 d) = Ok e →
  (key e = None ∧ (d ≤ fuel)%nat ∨
   ∃ k', key e = Some k' ∧ c_str k = c_str k' ∧ (d < fuel)%nat) →
  probe fuel es capacity k i0 = Ok (slot_after capacity i0 d, e).
Proof.
  intros Hi Hc. revert fuel i0 Hi.
  induction d as [|d IH]; intros fuel i0 Hi Hcol Hr Hstop.
  - rewrite slot_after_0 in * by done.
    destruct fuel; simpl; rewrite Hr;
      destruct Hstop as [[-> ?] | (k' & -> & Hk & ?)]; try done; try lia.
    apply strcmp_0 in Hk. by rewrite Hk.
  - destruct (Hcol 0%nat) as (e0 & k0 & Hr0 & Ek0 & Hne); [lia |].
    rewrite slot_after_0 in Hr0 by done.
    destruct fuel as [|fuel]; [destruct Hstop as [[] | (? & ? & ? & ?)]; lia |].
    simpl. rewrite Hr0, Ek0.
    destruct (Z.eqb_spec (strcmp k k0) 0) as [Heq | _];
      [by apply strcmp_0 in Heq |].
    rewrite <- slot_after_S in * by done.
    apply IH; [by apply next_index_bound | by apply collides_next | done |].
    destruct Hstop as [[? ?] | (k' & ? & ? & ?)]; [left | right].
    + split; [done | lia].
    + exists k'. split_and!; [done | done | lia].
Qed.

(** ** Counting occupied slots *)

Lemma population_bounds es : 0 ≤ population es ≤ Z.of_nat (List.length es).
Proof.
  induction es as [|e es IH]; simpl; [lia |]. destruct (key e); lia.
Qed.

Lemma population_replicate n : population (replicate n zero_entry) = 0.
Proof. induction n as [|n IH]; simpl; [done | apply IH]. Qed.

Lemma population_app es1 es2 :
  population (es1 ++ es2) = population es1 + population es2.
Proof.
  induction es1 as [|e es1 IH]; simpl; [lia |]. destruct (key e); lia.
Qed.

(** Writing a key into an empty slot adds one to the population. *)
Lemma population_insert_empty es (i : nat) e e' k :
  es !! i = Some e → key e = None → key e' = Some k →
  population (<[i := e']> es) = population es + 1.
Proof.
  revert i. induction es as [|e0 es IH]; intros [|i]; simpl; try done.
  - intros [= ->] -> ->. lia.
  - intros H He He'. rewrite (IH i) by done. destruct (key e0); lia.
Qed.

(** Overwriting an occupied slot by an occupied slot keeps the population. *)
Lemma population_insert_occupied es (i : nat) e e' k k' :
  es !! i = Some e → key e = Some k → key e' = Some k' →
  population (<[i := e']> es) = population es.
Proof.
  revert i. induction es as [|e0 es IH]; intros [|i]; simpl; try done.
  - intros [= ->] -> ->. lia.
  - intros H He He'. rewrite (IH i) by done. destruct (key e0); lia.
Qed.

(** An array that is not full has an empty slot. *)
Lemma population_lt_empty es :
  population es < Z.of_nat (List.length es) →
  ∃ (i : nat) e, es !! i = Some e ∧ key e = None.
Proof.
  induction es as [|e0 es IH]; simpl; [lia |].
  destruct (key e0) eqn:E.
  - intros H. destruct IH as (i & e & ? & ?); [lia |]. by exists (S i), e.
  - intros _. by exists 0%nat, e0.
Qed.

(** ** Termination of the walk *)

(** In an array with an empty slot the walk stops within [capacity] steps,
    wherever it starts. *)
Lemma probe_total es capacity k i0 :
  Z.of_nat (List.length es) = capacity → capacity < 2 ^ 64 →
  population es < capacity → 0 ≤ i0 < capacity →
  ∃ i e, probe (Z.to_nat capacity) es capacity k i0 = Ok (i, e).
Proof.
  intros Hlen Hc Hpop Hi.
  destruct (probe (Z.to_nat capacity) es capacity k i0) as [[i e]|f] eqn:Hp;
    [by eauto |].
  exfalso. apply probe_Err in Hp as Hf; [| done | done].
  destruct Hf as [-> | [d Hd]].
  - apply probe_OutOfFuel in Hp as [Hcol _]; [| done | done].
    destruct (population_lt_empty es) as (j & e & Hj & He); [lia |].
    apply lookup_lt_Some in Hj as Hjlt.
    destruct (Hcol (steps_to capacity i0 (Z.of_nat j))) as (e' & k' & Hr & Hk & _).
    { apply steps_to_bound. lia. }
    rewrite slot_after_steps_to in Hr by lia.
    apply read_Ok in Hr. rewrite Nat2Z.id in Hr. congruence.
  - pose proof (slot_after_bound capacity i0 d ltac:(lia)) as Hb.
    destruct (read_in_bounds es (slot_after capacity i0 d)) as [e He]; [lia |].
    congruence.
Qed.

(** More fuel does not change the result of a walk that stops. *)
Lemma probe_fuel_mono fuel fuel' es capacity k i r :
  (fuel ≤ fuel')%nat →
  probe fuel es capacity k i = Ok r → probe fuel' es capacity k i = Ok r.
Proof.
  revert fuel' i. induction fuel as [|fuel IH]; intros fuel' i Hle; simpl;
    (destruct (read es i) as [e|] eqn:Hr; [| done]);
    (destruct (key e) as [k0|] eqn:Ek).
  - done.
  - destruct fuel'; simpl; by rewrite Hr, Ek.
  - destruct fuel' as [|fuel']; [lia |]. simpl. rewrite Hr, Ek.
    destruct (strcmp k k0 =? 0); [done |]. apply IH. lia.
  - destruct fuel'; simpl; by rewrite Hr, Ek.
Qed.

(** A walk that has not stopped after [capacity] steps never stops: the
    fuel [capacity] given to the loops loses no result. *)
Lemma probe_fuel_exact es capacity k i0 fuel :
  0 ≤ i0 < capacity → capacity < 2 ^ 64 →
  probe (Z.to_nat capacity) es capacity k i0 = Err OutOfFuel →
  probe fuel es capacity k i0 = Err OutOfFuel.
Proof.
  intros Hi Hc Hp. apply probe_OutOfFuel in Hp as [Hcol _]; [| done | done].
  assert (Hall : ∀ i, 0 ≤ i < capacity → taken_by_other es k i).
  { intros i Hib.
    rewrite <- (slot_after_steps_to capacity i0 i) by done.
    apply Hcol, steps_to_bound. lia. }
  clear Hcol. revert i0 Hi. induction fuel as [|fuel IH]; intros i0 Hi;
    destruct (Hall i0 Hi) as (e & k' & Hr & Hk & Hne); simpl; rewrite Hr, Hk.
  - done.
  - destruct (Z.eqb_spec (strcmp k k') 0) as [Heq | _];
      [by apply strcmp_0 in Heq |].
    apply IH. by apply next_index_bound.
Qed.

Lemma ht_get_loop_fuel_exact es capacity k i0 fuel :
  0 ≤ i0 < capacity → capacity < 2 ^ 64 →
  ht_get_loop (Z.to_nat capacity) es capacity k i0 = Err OutOfFuel →
  ht_get_loop fuel es capacity k i0 = Err OutOfFuel.
Proof.
  intros Hi Hc. rewrite !ht_get_loop_probe.
  destruct (probe (Z.to_nat capacity) es capacity k i0) as [[i e]|f] eqn:Hp;
    [done |].
  intros [= ->]. by rewrite (probe_fuel_exact _ _ _ _ fuel Hi Hc Hp).
Qed.

Lemma ht_set_entry_loop_fuel_exact es capacity k v i0 fuel :
  0 ≤ i0 < capacity → capacity < 2 ^ 64 →
  ht_set_entry_loop (Z.to_nat capacity) es capacity k v i0 = Err OutOfFuel →
  ht_set_entry_loop fuel es capacity k v i0 = Err OutOfFuel.
Proof.
  intros Hi Hc. rewrite !ht_set_entry_loop_probe.
  destruct (probe (Z.to_nat capacity) es capacity k i0) as [[i e]|f] eqn:Hp;
    [done |].
  intros [= ->]. by rewrite (probe_fuel_exact _ _ _ _ fuel Hi Hc Hp).
Qed.

(** ** Stored and missing keys *)

Lemma holds_same es k k' v : c_str k = c_str k' → holds es k v → holds es k' v.
Proof.
  intros Hk (i & e & k0 & ? & ? & ? & ?). exists i, e, k0. by rewrite <- Hk.
Qed.

Lemma absent_not_holds es k : absent es k ↔ ∀ v, ¬ holds es k v.
Proof.
  split.
  - intros Ha v (i & e & k' & Hi & Hk & Heq & _). by apply (Ha i e k').
  - intros Hn i e k' Hi Hk Heq. apply (Hn (value e)). by exists i, e, k'.
Qed.

Lemma holds_or_absent es k : (∃ v, holds es k v) ∨ absent es k.
Proof.
  induction es as [|e es IH].
  - right. by intros i e k' ?.
  - destruct IH as [(v & i & e' & k' & ? & ? & ? & ?) | Ha].
    { left. exists v, (S i), e', k'. done. }
    destruct (key e) as [k'|] eqn:Ek.
    + destruct (decide (c_str k' = c_str k)) as [Heq | Hne].
      * left. exists (value e), 0%nat, e, k'. done.
      * right. intros [|i] e0 k0; simpl.
        -- intros [= <-]. congruence.
        -- apply Ha.
    + right. intros [|i] e0 k0; simpl.
      * intros [= <-]. congruence.
      * apply Ha.
Qed.

Lemma holds_elem_of es k v :
  holds es k v ↔
  ∃ e k', e ∈ es ∧ key e = Some k' ∧ c_str k' = c_str k ∧ value e = v.
Proof.
  split.
  - intros (i & e & k' & Hi & ?). exists e, k'. split; [| done].
    apply list_elem_of_lookup. by exists i.
  - intros (e & k' & [i Hi]%list_elem_of_lookup & ?). by exists i, e, k'.
Qed.

Lemma holds_replicate n k v : ¬ holds (replicate n zero_entry) k v.
Proof.
  intros (i & e & k' & Hi & Hk & _). apply lookup_replicate in Hi as [-> _]. done.
Qed.

(** ** Well-formed arrays *)

Section Wf.

Context {es : list ht_entry} {capacity : Z} (Hwf : entries_wf es capacity).

Lemma wf_lookup_bound (i : nat) e : es !! i = Some e → 0 ≤ Z.of_nat i < capacity.
Proof.
  intros H. apply lookup_lt_Some in H. destruct Hwf as [Hlen _ _]. lia.
Qed.

(** The walk for a stored key stops at its slot. *)
Lemma probe_holds (i : nat) e k k' :
  es !! i = Some e → key e = Some k' → c_str k' = c_str k →
  probe (Z.to_nat capacity) es capacity k (home capacity k) = Ok (Z.of_nat i, e).
Proof.
  intros Hi Hk Heq. destruct Hwf as [Hlen Hc Hinv].
  pose proof (wf_lookup_bound i e Hi) as Hb.
  pose proof (home_bound capacity k Hc) as Hh.
  pose proof (slot_after_steps_to capacity (home capacity k) (Z.of_nat i) Hb) as Hs.
  rewrite <- Hs.
  apply probe_stop.
  - done.
  - lia.
  - rewrite <- (home_same capacity k' k Heq).
    apply (collides_same _ _ k'); [done |]. by apply (Hinv i e).
  - rewrite Hs. by apply read_lookup.
  - right. exists k'. split_and!; [done | done |]. apply steps_to_bound. lia.
Qed.

(** No key is stored in two slots. *)
Lemma wf_distinct (i j : nat) e e' k k' :
  es !! i = Some e → es !! j = Some e' →
  key e = Some k → key e' = Some k' → c_str k = c_str k' → i = j.
Proof.
  intros Hi Hj Hk Hk' Heq.
  pose proof (probe_holds i e k k Hi Hk eq_refl) as H1.
  pose proof (probe_holds j e' k k' Hj Hk' (eq_sym Heq)) as H2.
  rewrite H1 in H2. injection H2 as H2 _. lia.
Qed.

Lemma holds_unique k v v' : holds es k v → holds es k v' → v = v'.
Proof.
  intros (i & e & k1 & Hi & Hk1 & He1 & <-) (j & e' & k2 & Hj & Hk2 & He2 & <-).
  assert (i = j) as -> by (eapply wf_distinct; [done .. | congruence]).
  congruence.
Qed.

(** The walk for a missing key stops at an empty slot. *)
Lemma probe_absent k :
  population es < capacity → absent es k →
  ∃ i e, probe (Z.to_nat capacity) es capacity k (home capacity k) = Ok (i, e) ∧
         key e = None ∧ read es i = Ok e ∧ 0 ≤ i < capacity ∧
         collides es capacity k (home capacity k)
           (steps_to capacity (home capacity k) i).
Proof.
  intros Hpop Ha. destruct Hwf as [Hlen Hc Hinv].
  pose proof (home_bound capacity k Hc) as Hh.
  destruct (probe_total es capacity k (home capacity k)) as (i & e & Hp);
    [done | lia | done | done |].
  exists i, e. split; [done |].
  apply probe_Ok in Hp as (d & Hd & Hcol & -> & Hr & Hstop); [| done | lia].
  destruct Hstop as [He | (k' & Hk' & Heq & _)].
  - pose proof (slot_after_bound capacity (home capacity k) d ltac:(lia)).
    split_and!; [done | done | lia | lia |].
    assert (d < Z.to_nat capacity)%nat.
    { destruct (decide (d < Z.to_nat capacity)%nat) as [|Hge]; [done |].
      assert (d = Z.to_nat capacity) as -> by lia.
      destruct (Hcol 0%nat) as (e0 & k0 & Hr0 & Hk0 & _); [lia |].
      rewrite slot_after_capacity in Hr by lia. congruence. }
    by rewrite steps_to_slot_after.
  - exfalso. apply read_Ok in Hr. by apply (Ha _ _ _ Hr Hk').
Qed.

(** What the loop of [ht_get] returns on a well-formed array. *)
Lemma ht_get_loop_holds k v :
  holds es k v →
  ht_get_loop (Z.to_nat capacity) es capacity k (home capacity k) = Ok v.
Proof.
  intros (i & e & k' & Hi & Hk & Heq & <-).
  rewrite ht_get_loop_probe, (probe_holds i e k k') by done. by rewrite Hk.
Qed.

Lemma ht_get_loop_absent k :
  population es < capacity → absent es k →
  ht_get_loop (Z.to_nat capacity) es capacity k (home capacity k) = Ok NULL.
Proof.
  intros Hpop Ha. destruct (probe_absent k Hpop Ha) as (i & e & Hp & He & _).
  by rewrite ht_get_loop_probe, Hp, He.
Qed.

End Wf.

(** ** Writing a slot *)

Lemma taken_by_other_insert_empty es k s (p : nat) e0 e' :
  es !! p = Some e0 → key e0 = None →
  taken_by_other es k s → taken_by_other (<[p := e']> es) k s.
Proof.
  intros Hp He0 (e & k' & Hr & Hk & Hne). exists e, k'. split; [| done].
  apply read_Ok. apply read_Ok in Hr.
  rewrite list_lookup_insert_ne; [done |]. intros ->. congruence.
Qed.

Lemma taken_by_other_insert_key es k s (p : nat) e0 e' :
  es !! p = Some e0 → key e' = key e0 →
  taken_by_other es k s → taken_by_other (<[p := e']> es) k s.
Proof.
  intros Hp He' (e & k' & Hr & Hk & Hne). apply read_Ok in Hr.
  destruct (decide (p = Z.to_nat s)) as [-> | Hps].
  - exists e', k'. split; [| split; [congruence | done]].
    apply read_Ok, list_lookup_insert_eq. by apply lookup_lt_Some in Hp.
  - exists e, k'. split; [| done].
    apply read_Ok. by rewrite list_lookup_insert_ne.
Qed.

(** Filling the empty slot where the walk for [k] stopped with [k] keeps
    the array well formed. *)
Lemma insert_empty_wf es capacity k (p : nat) e0 e' k' :
  entries_wf es capacity →
  es !! p = Some e0 → key e0 = None →
  collides es capacity k (home capacity k)
    (steps_to capacity (home capacity k) (Z.of_nat p)) →
  key e' = Some k' → c_str k' = c_str k →
  entries_wf (<[p := e']> es) capacity.
Proof.
  intros [Hlen Hc Hinv] Hp He0 Hcol He' Heq. split.
  - by rewrite length_insert.
  - done.
  - intros i e k1 Hi Hk1 j Hj.
    apply (taken_by_other_insert_empty _ _ _ _ e0); [done | done |].
    destruct (decide (p = i)) as [-> | Hne].
    + rewrite list_lookup_insert_eq in Hi by (by apply lookup_lt_Some in Hp).
      injection Hi as <-. assert (k1 = k') as -> by congruence.
      rewrite (home_same capacity k' k Heq) in *.
      apply (collides_same _ _ k _ _ _ (eq_sym Heq) Hcol). done.
    + rewrite list_lookup_insert_ne in Hi by done. by apply (Hinv i e k1).
Qed.

(** Overwriting the value of a slot keeps the array well formed. *)
Lemma overwrite_wf es capacity (p : nat) e0 e' :
  entries_wf es capacity →
  es !! p = Some e0 → key e' = key e0 →
  entries_wf (<[p := e']> es) capacity.
Proof.
  intros [Hlen Hc Hinv] Hp He'. split.
  - by rewrite length_insert.
  - done.
  - intros i e k1 Hi Hk1 j Hj.
    apply (taken_by_other_insert_key _ _ _ _ e0); [done | done |].
    destruct (decide (p = i)) as [-> | Hne].
    + rewrite list_lookup_insert_eq in Hi by (by apply lookup_lt_Some in Hp).
      injection Hi as <-. apply (Hinv i e0 k1); [done | congruence | done].
    + rewrite list_lookup_insert_ne in Hi by done. by apply (Hinv i e k1).
Qed.

Lemma holds_insert_eq es (p : nat) e0 e' k k' :
  es !! p = Some e0 → key e' = Some k' → c_str k' = c_str k →
  holds (<[p := e']> es) k (value e').
Proof.
  intros Hp He' Heq. exists p, e', k'. split_and!; try done.
  apply list_lookup_insert_eq. by apply lookup_lt_Some in Hp.
Qed.

(** A write to the slot of [k] (or to an empty slot) does not change what
    is stored for the other keys. *)
Lemma holds_insert_ne es (p : nat) e0 e' k k' k2 w :
  es !! p = Some e0 →
  (key e0 = None ∨ ∃ k0, key e0 = Some k0 ∧ c_str k0 = c_str k) →
  key e' = Some k' → c_str k' = c_str k → c_str k2 ≠ c_str k →
  holds (<[p := e']> es) k2 w ↔ holds es k2 w.
Proof.
  intros Hp He0 He' Heq Hne. split.
  - intros (i & e & k1 & Hi & Hk1 & Heq1 & Hv).
    destruct (decide (p = i)) as [-> | Hpi].
    + rewrite list_lookup_insert_eq in Hi by (by apply lookup_lt_Some in Hp).
      injection Hi as <-. congruence.
    + rewrite list_lookup_insert_ne in Hi by done. by exists i, e, k1.
  - intros (i & e & k1 & Hi & Hk1 & Heq1 & Hv).
    destruct (decide (p = i)) as [-> | Hpi].
    + assert (e = e0) as -> by congruence.
      destruct He0 as [? | (k0 & ? & ?)]; congruence.
    + exists i, e, k1. by rewrite list_lookup_insert_ne.
Qed.

(** ** ht_set_entry on a well-formed array *)

(** The three ways a call of [ht_set_entry] ends on a well-formed array with
    an empty slot: the key was stored and its value is overwritten; the key
    was missing and is inserted; the key was missing and its copy could not
    be allocated. *)
Lemma ht_set_entry_spec sd es capacity k v plength :
  entries_wf es capacity → population es < capacity →
  ∃ ret es' plength',
    ht_set_entry (Z.to_nat capacity) sd es capacity k v plength
      = Ok (ret, es', plength') ∧
    ((∃ w, holds es k w) ∧ (∃ stored, ret = Some stored ∧ c_str stored = c_str k) ∧
       plength' = plength ∧ population es' = population es ∧
       stores es es' capacity k v
     ∨ absent es k ∧ (plength = None ∨ sd = true) ∧
       (∃ stored, ret = Some stored ∧ c_str stored = c_str k) ∧
       plength' = (λ n, wrap64 (n + 1)) <$> plength ∧
       population es' = population es + 1 ∧
       stores es es' capacity k v
     ∨ absent es k ∧ plength ≠ None ∧ sd = false ∧
       ret = None ∧ es' = es ∧ plength' = plength).
Proof.
  intros Hwf Hpop. unfold ht_set_entry. rewrite ht_set_entry_loop_probe.
  destruct (holds_or_absent es k) as [(w & i & e & k' & Hi & Hk & Heq & Hw) | Ha].
  - rewrite (probe_holds Hwf i e k k') by done. simpl. rewrite Hk, Nat2Z.id.
    eexists _, _, _. split; [done |]. left.
    split_and!.
    + exists w, i, e, k'. done.
    + by exists k'.
    + done.
    + by apply (population_insert_occupied _ _ e _ k' k').
    + split_and!.
      * by apply (overwrite_wf _ _ _ e).
      * by apply (holds_insert_eq _ _ e {| key := Some k'; value := v |} k k').
      * intros k2 w2 Hne. apply (holds_insert_ne _ _ e _ k k'); try done.
        right. by exists k'.
  - destruct (probe_absent Hwf k Hpop Ha) as (i & e & -> & He & Hr & Hib & Hcol).
    simpl. rewrite He. apply read_Ok in Hr.
    rewrite <- (Z2Nat.id i) in Hcol by lia.
    assert (Hfill : ∀ k', c_str k' = c_str k →
      population (<[Z.to_nat i := {| key := Some k'; value := v |}]> es)
        = population es + 1 ∧
      stores es (<[Z.to_nat i := {| key := Some k'; value := v |}]> es) capacity k v).
    { intros k' Heq. split.
      - by apply (population_insert_empty _ _ e _ k').
      - split_and!.
        + by apply (insert_empty_wf _ _ k _ e _ k').
        + by apply (holds_insert_eq _ _ e
                      {| key := Some k'; value := v |} k k').
        + intros k2 w2 Hne. apply (holds_insert_ne _ _ e _ k k'); try done.
          by left. }
    destruct plength as [n|]; [destruct sd |]; simpl.
    + eexists _, _, _. split; [done |]. right. left.
      destruct (Hfill (c_str k) (c_str_idemp k)) as [? ?].
      split_and!; try done; [by right |]. exists (c_str k). split; [done |].
      apply c_str_idemp.
    + eexists _, _, _. split; [done |]. right. right. done.
    + eexists _, _, _. split; [done |]. right. left.
      destruct (Hfill k eq_refl) as [? ?].
      split_and!; try done; [by left |]. by exists k.
Qed.

(** ** The walk is no longer than the population *)

(** Emptying an occupied slot takes one from the population. *)
Lemma population_clear es (i : nat) e k :
  es !! i = Some e → key e = Some k →
  population (<[i := zero_entry]> es) = population es - 1.
Proof.
  revert i. induction es as [|e0 es IH]; intros [|i]; simpl; try done.
  - intros [= ->] ->. lia.
  - intros H He. rewrite (IH i) by done. destruct (key e0); lia.
Qed.

(** [d] different occupied slots need a population of [d]. *)
Lemma occupied_run_population es capacity i0 d :
  0 ≤ i0 < capacity → (d ≤ Z.to_nat capacity)%nat →
  (∀ j, (j < d)%nat → occupied es (slot_after capacity i0 j)) →
  Z.of_nat d ≤ population es.
Proof.
  intros Hi. revert es. induction d as [|d IH]; intros es Hd Hocc.
  - pose proof (population_bounds es). lia.
  - destruct (Hocc d) as (e & k' & Hr & Hk); [lia |]. apply read_Ok in Hr.
    set (p := Z.to_nat (slot_after capacity i0 d)) in *.
    rewrite <- (Z.sub_add 1 (population es)).
    rewrite <- (population_clear es p e k') by done.
    specialize (IH (<[p := zero_entry]> es)).
    rewrite Nat2Z.inj_succ. apply Zsucc_le_compat, IH; [lia |].
    intros j Hj. destruct (Hocc j) as (e1 & k1 & Hr1 & Hk1); [lia |].
    exists e1, k1. split; [| done].
    apply read_Ok. apply read_Ok in Hr1.
    rewrite list_lookup_insert_ne; [done |].
    unfold p. intros Heq.
    pose proof (slot_after_bound capacity i0 d ltac:(lia)).
    pose proof (slot_after_bound capacity i0 j ltac:(lia)).
    assert (d = j); [| lia].
    apply (slot_after_inj capacity i0); [done | lia | lia | lia].
Qed.

Lemma taken_by_other_occupied es k i : taken_by_other es k i → occupied es i.
Proof. intros (e & k' & ? & ? & _). by exists e, k'. Qed.

(** On an array with an empty slot the walk executes the loop body at most
    [population] times: that much fuel gives the result [capacity] gives. *)
Lemma probe_fuel_population es capacity k i0 fuel :
  Z.of_nat (List.length es) = capacity → capacity < 2 ^ 64 →
  population es < capacity → 0 ≤ i0 < capacity →
  (Z.to_nat (population es) ≤ fuel)%nat →
  probe fuel es capacity k i0 = probe (Z.to_nat capacity) es capacity k i0.
Proof.
  intros Hlen Hc Hpop Hi Hfuel.
  destruct (probe_total es capacity k i0) as (i & e & Hp); [done .. |].
  rewrite Hp.
  apply probe_Ok in Hp as (d & Hd & Hcol & -> & Hr & Hstop); [| done | done].
  pose proof (population_bounds es) as Hpb.
  assert (Hdlt : (d < Z.to_nat capacity)%nat).
  { destruct (decide (d < Z.to_nat capacity)%nat) as [|Hge]; [done |].
    assert (Z.of_nat (Z.to_nat capacity) ≤ population es); [| lia].
    apply (occupied_run_population es capacity i0); [done | lia |].
    intros j Hj. apply (taken_by_other_occupied _ k), Hcol. lia. }
  apply probe_stop; [done | done | done | done |].
  destruct Hstop as [He | (k' & Hk' & Heq & _)].
  - left. split; [done |].
    assert (Z.of_nat d ≤ population es); [| lia].
    apply (occupied_run_population es capacity i0); [done | lia |].
    intros j Hj. by apply (taken_by_other_occupied _ k), Hcol.
  - right. exists k'. split_and!; [done | done |].
    assert (Z.of_nat (S d) ≤ population es); [| lia].
    apply (occupied_run_population es capacity i0); [done | lia |].
    intros j Hj. destruct (decide (j = d)) as [-> | Hne].
    + by exists e, k'.
    + apply (taken_by_other_occupied _ k), Hcol. lia.
Qed.

(** ** Fuel of ht_set_entry *)

(** Fuel above the population gives [ht_set_entry] the result the capacity
    gives. *)
Lemma ht_set_entry_fuel fuel sd es capacity k v plength :
  Z.of_nat (List.length es) = capacity → 0 < capacity < 2 ^ 64 →
  population es < capacity → (Z.to_nat (population es) ≤ fuel)%nat →
  ht_set_entry fuel sd es capacity k v plength
  = ht_set_entry (Z.to_nat capacity) sd es capacity k v plength.
Proof.
  intros Hlen Hc Hpop Hfuel. unfold ht_set_entry.
  rewrite !ht_set_entry_loop_probe.
  rewrite (probe_fuel_population es capacity k _ fuel); try done; try lia.
  by apply home_bound.
Qed.

(** ** The rehashing loop *)

Lemma holds_app_single es e k w :
  holds (es ++ [e]) k w ↔
  holds es k w ∨ ∃ k', key e = Some k' ∧ c_str k' = c_str k ∧ value e = w.
Proof.
  rewrite !holds_elem_of. split.
  - intros (e' & k' & [Hin | Hin%list_elem_of_singleton]%elem_of_app & Hrest).
    + left. by exists e', k'.
    + subst e'. right. by exists k'.
  - intros [(e' & k' & Hin & Hrest) | (k' & Hrest)].
    + exists e', k'. split; [| done]. apply elem_of_app. by left.
    + exists e, k'. split; [| done]. apply elem_of_app. right.
      by apply list_elem_of_singleton.
Qed.

Lemma population_take_le es n : population (take n es) ≤ population es.
Proof.
  rewrite <- (take_drop n es) at 2. rewrite population_app.
  pose proof (population_bounds (drop n es)). lia.
Qed.

(** A key stored at slot [i] is not stored below [i]. *)
Lemma holds_take_distinct es capacity (i : nat) e k w :
  entries_wf es capacity → es !! i = Some e → key e = Some k →
  ¬ holds (take i es) k w.
Proof.
  intros Hwf Hi Hk (j & e' & k' & [Hj Hlt]%lookup_take_Some & Hk' & Heq & _).
  assert (j = i); [| lia].
  by apply (wf_distinct Hwf j i e' e k' k).
Qed.

(** From slot [i] on, the loop moves what is left of the old array into the
    new one: when the new array holds what the slots below [i] held, it ends
    holding what the whole old array held.  The result is the same for every
    probe fuel that is at least the population of the old array. *)
Lemma ht_expand_loop_spec (t : ht) new_capacity fuel :
  entries_wf (entries t) (capacity t) →
  population (entries t) < new_capacity →
  ∀ i new_entries,
    0 ≤ i ≤ capacity t → (Z.to_nat (capacity t - i) ≤ fuel)%nat →
    entries_wf new_entries new_capacity →
    population new_entries = population (take (Z.to_nat i) (entries t)) →
    (∀ k v, holds new_entries k v ↔ holds (take (Z.to_nat i) (entries t)) k v) →
    ∃ new_entries',
      (∀ probe_fuel,
         (Z.to_nat (population (entries t)) ≤ probe_fuel)%nat →
         ht_expand_loop fuel probe_fuel t i new_entries new_capacity
           = Ok new_entries') ∧
      entries_wf new_entries' new_capacity ∧
      population new_entries' = population (entries t) ∧
      ∀ k v, holds new_entries' k v ↔ holds (entries t) k v.
Proof.
  intros Hwf Hroom. pose proof Hwf as [Hlen Hc _].
  induction fuel as [|fuel IH]; intros i new Hi Hfuel Hnew Hpop Hholds.
  - assert (i = capacity t) as -> by lia. simpl.
    rewrite Z.ltb_irrefl. rewrite take_ge in Hpop, Hholds by lia. by exists new.
  - simpl. destruct (Z.ltb_spec i (capacity t)) as [Hlt | Hge].
    2:{ assert (i = capacity t) as -> by lia.
        rewrite take_ge in Hpop, Hholds by lia. by exists new. }
    destruct (read_in_bounds (entries t) i) as [entry Hr]; [lia |].
    rewrite Hr. apply read_Ok in Hr.
    assert (Hw : wrap64 (i + 1) = i + 1) by (unfold wrap64; apply Z.mod_small; lia).
    rewrite Hw.
    assert (Htake : take (Z.to_nat (i + 1)) (entries t)
                    = take (Z.to_nat i) (entries t) ++ [entry]).
    { replace (Z.to_nat (i + 1)) with (S (Z.to_nat i)) by lia. by apply take_S_r. }
    pose proof (population_take_le (entries t) (Z.to_nat i)) as Htl.
    destruct (key entry) as [k|] eqn:Ek.
    + destruct (ht_set_entry_spec true new new_capacity k (value entry) None)
        as (ret & new' & pl' & Hset & Hcase); [done | lia |].
      destruct Hcase as [([w Hw'] & _) | [(Ha & _ & _ & _ & Hpop' & Hst) | (_ & ? & _)]];
        [| | done].
      { exfalso. apply Hholds in Hw'.
        by apply (holds_take_distinct _ _ _ _ _ _ Hwf Hr Ek Hw'). }
      destruct Hst as (Hwf' & Hk' & Hothers).
      destruct (IH (i + 1) new') as (new'' & Hloop & Hrest); [lia | lia | done | | |].
      * rewrite Htake, population_app, Hpop', Hpop. simpl. rewrite Ek. lia.
      * intros k2 w. rewrite Htake, holds_app_single.
        destruct (decide (c_str k2 = c_str k)) as [Heq | Hne].
        -- split.
           ++ intros H2. right. exists k. split_and!; [done | done |].
              apply (holds_unique Hwf' k2); [| done].
              by apply (holds_same _ k k2).
           ++ intros [H2 | (k' & Hk2 & _ & <-)].
              ** exfalso. apply (holds_same _ k2 k) in H2; [| done].
                 by apply (holds_take_distinct _ _ _ _ _ _ Hwf Hr Ek H2).
              ** by apply (holds_same _ k k2).
        -- rewrite Hothers, Hholds by done. split; [by left |].
           intros [H2 | (k' & Hk2 & Heq' & _)]; [done | congruence].
      * exists new''. split; [| done]. intros pf Hpf.
        destruct Hnew as [Hnlen Hnc _].
        rewrite ht_set_entry_fuel, Hset by (done || lia). simpl. by apply Hloop.
    + destruct (IH (i + 1) new) as (new'' & Hloop & Hrest); [lia | lia | done | | |].
      * rewrite Htake, population_app, Hpop. simpl. rewrite Ek. lia.
      * intros k2 w. rewrite Htake, holds_app_single, Hholds.
        split; [by left |]. intros [H2 | (k' & Hk2 & _)]; [done | congruence].
      * exists new''. split; [| done]. intros pf Hpf. by apply Hloop.
Qed.

(** ** ht_expand on a well-formed table *)

Lemma wrap64_small z : 0 ≤ z < 2 ^ 64 → wrap64 z = z.
Proof. intros. unfold wrap64. by apply Z.mod_small. Qed.

Lemma wrap64_double c : 0 < c < 2 ^ 64 → 2 ^ 64 ≤ c * 2 → wrap64 (c * 2) < c.
Proof.
  intros Hc Hge. unfold wrap64.
  replace (c * 2) with (c * 2 - 2 ^ 64 + 1 * 2 ^ 64) by lia.
  rewrite Z.mod_add by lia. rewrite Z.mod_small; lia.
Qed.

(** A fresh array from [calloc] is well formed and stores nothing. *)
Lemma replicate_wf n :
  0 < n < 2 ^ 64 → entries_wf (replicate (Z.to_nat n) zero_entry) n.
Proof.
  intros Hn. split.
  - rewrite length_replicate. lia.
  - done.
  - intros i e k Hi Hk. apply lookup_replicate in Hi as [-> _]. done.
Qed.

Lemma pow2_double_lt n : 4 ≤ n → 2 ^ n * 2 < 2 ^ 64 → 2 ^ n * 2 = 2 ^ (n + 1).
Proof. intros. rewrite Z.pow_add_r by lia. lia. Qed.

(** Growth either fails and leaves the table as it is, or doubles the
    capacity and keeps the length, the population and everything stored. *)
Lemma ht_expand_spec ok t :
  ht_wf t →
  ∃ b t', ht_expand ok t = Ok (b, t') ∧
    (b = false ∧ t' = t
     ∨ b = true ∧ ht_wf t' ∧ capacity t' = capacity t * 2 ∧
       length t' = length t ∧
       (∀ k v, holds (entries t') k v ↔ holds (entries t) k v) ∧
       ∀ probe_fuel,
         (Z.to_nat (population (entries t)) ≤ probe_fuel)%nat →
         ht_expand_loop (Z.to_nat (capacity t)) probe_fuel t 0
           (replicate (Z.to_nat (capacity t * 2)) zero_entry) (capacity t * 2)
         = Ok (entries t')).
Proof.
  intros [Hwf (n & Hn & Hpow) Hlen Hload]. pose proof Hwf as [Hsize Hc _].
  unfold ht_expand.
  destruct (Z.ltb_spec (wrap64 (capacity t * 2)) (capacity t)) as [Hov | Hov].
  { exists false, t. split; [done | by left]. }
  assert (Hsmall : capacity t * 2 < 2 ^ 64).
  { destruct (Z.lt_ge_cases (capacity t * 2) (2 ^ 64)) as [|Hge]; [done |].
    pose proof (wrap64_double (capacity t) Hc Hge). lia. }
  rewrite wrap64_small in * by lia.
  unfold calloc.
  destruct (ok && (capacity t * 2 * sizeof_ht_entry <? 2 ^ 64)) eqn:Hcalloc.
  2:{ exists false, t. split; [done | by left]. }
  pose proof (population_bounds (entries t)) as Hpb.
  destruct (ht_expand_loop_spec t (capacity t * 2) (Z.to_nat (capacity t)) Hwf
              ltac:(lia) 0 (replicate (Z.to_nat (capacity t * 2)) zero_entry))
    as (new' & Hloop & Hwf' & Hpop' & Hholds');
    [.. | rewrite (Hloop (Z.to_nat (capacity t * 2))) by lia].
  - lia.
  - lia.
  - apply replicate_wf. lia.
  - simpl. apply population_replicate.
  - intros k v. simpl. split.
    + intros H. by apply holds_replicate in H.
    + intros (i & e & k' & Hi & _). done.
  - simpl. eexists true, _. split; [done |]. right.
    split_and!; try done. split; simpl.
    + done.
    + exists (n + 1). split; [lia |]. rewrite Hpow in *. by apply pow2_double_lt.
    + lia.
    + lia.
Qed.

(** ** The embedding on known values *)

(** Published FNV-1a test vectors. *)
Example hash_key_empty : hash_key "" = 14695981039346656037.
Proof. reflexivity. Qed.

Example hash_key_a : hash_key "a" = 12638187200555641996.
Proof. vm_compute. reflexivity. Qed.

Example hash_key_foobar : hash_key "foobar" = 9625390261332436968.
Proof. vm_compute. reflexivity. Qed.

(** A key is read up to its first NUL. *)
Example hash_key_nul : hash_key (String "a" (String "000" "bc")) = hash_key "a".
Proof. vm_compute. reflexivity. Qed.

Example strcmp_prefix : strcmp "ab" "abc" = -99.
Proof. reflexivity. Qed.

(** Two keys, then a miss. *)
Example get_a_b_missing :
  ht_get heap_ab (Some table1) (Some "a"%string) = Ok 1 ∧
  ht_get heap_ab (Some table1) (Some "b"%string) = Ok 2 ∧
  ht_get heap_ab (Some table1) (Some "missing"%string) = Ok NULL ∧
  ht_length heap_ab (Some table1) = Ok 2.
Proof. vm_compute. repeat split; reflexivity. Qed.

(** The ninth key grows the table from 16 to 32 slots and loses nothing. *)
Example ninth_key_grows :
  capacity (table_at heap_8 table1) = 16 ∧
  let h := heap_of (ht_set false all_ok heap_8 (Some table1) (Some "k9"%string) 7) in
  capacity (table_at h table1) = 32 ∧ length (table_at h table1) = 9 ∧
  (λ k, ht_get h (Some table1) (Some k)) <$>
    ["k1"; "k2"; "k3"; "k4"; "k5"; "k6"; "k7"; "k8"; "k9"]%string
  = replicate 9 (Ok 7).
Proof. vm_compute. repeat split; reflexivity. Qed.

(** Iterating three keys shows them in slot order. *)
Example iterate_abc :
  ht_iterate heap_abc table1
  = Ok [(Some "c", 3); (Some "b", 2); (Some "a", 1)]%string.
Proof. vm_compute. reflexivity. Qed.

(** ** The binary search tree *)

Lemma print_sorted_add_leaf_perm (pl pr : list Z) v val :
  pl ++ v :: val :: pr ≡ₚ val :: pl ++ v :: pr.
Proof.
  rewrite (Permutation_middle pl (v :: pr) val).
  apply Permutation_app_head. apply perm_swap.
Qed.

Lemma bst_add_loop_unfold root_val l r new val :
  BinaryTree.add_loop (BinaryTree.Node root_val l r) new val =
  if val <? root_val then
    match r with
    | BinaryTree.Null => Ok (BinaryTree.Node root_val l new)
    | BinaryTree.Node _ _ _ =>
        r' ← BinaryTree.add_loop r new val; Ok (BinaryTree.Node root_val l r')
    end
  else
    match l with
    | BinaryTree.Null => Ok (BinaryTree.Node root_val new r)
    | BinaryTree.Node _ _ _ =>
        l' ← BinaryTree.add_loop l new val; Ok (BinaryTree.Node root_val l' r)
    end.
Proof. reflexivity. Qed.

(** The loop of [add], entered at a node: it returns, the new value is
    printed with the old ones, and the order of the tree is kept. *)
Lemma bst_add_loop_spec root val :
  root ≠ BinaryTree.Null →
  ∃ root',
    BinaryTree.add_loop root
      (BinaryTree.Node val BinaryTree.Null BinaryTree.Null) val = Ok root' ∧
    BinaryTree.print_sorted root' ≡ₚ val :: BinaryTree.print_sorted root ∧
    (BinaryTree.ordered root → BinaryTree.ordered root').
Proof.
  induction root as [|v l IHl r IHr]; [done |]. intros _.
  rewrite bst_add_loop_unfold.
  destruct (Z.ltb_spec val v) as [Hlt | Hge].
  - destruct r as [|rv rl rr].
    + eexists. split; [done |]. simpl. split.
      * apply print_sorted_add_leaf_perm.
      * intros (Hl & Hr & Ol & Or). split_and!; try done. by repeat constructor.
    + destruct IHr as (r' & -> & Hperm & Hord); [done |].
      eexists. split; [done |].
      cbn [BinaryTree.print_sorted BinaryTree.ordered]. split.
      * rewrite Hperm. apply print_sorted_add_leaf_perm.
      * intros (Hl & Hr & Ol & Or). split_and!; try done; [| by apply Hord].
        rewrite Hperm. by constructor.
  - destruct l as [|lv ll lr].
    + eexists. split; [done |]. simpl. split; [done |].
      intros (Hl & Hr & Ol & Or). split_and!; try done. by repeat constructor.
    + destruct IHl as (l' & -> & Hperm & Hord); [done |].
      eexists. split; [done |].
      cbn [BinaryTree.print_sorted BinaryTree.ordered]. split.
      * by rewrite Hperm.
      * intros (Hl & Hr & Ol & Or). split_and!; try done; [| by apply Hord].
        rewrite Hperm. by constructor.
Qed.

Lemma bst_add_spec root val :
  ∃ root',
    BinaryTree.add true root val = Ok root' ∧
    BinaryTree.print_sorted root' ≡ₚ val :: BinaryTree.print_sorted root ∧
    (BinaryTree.ordered root → BinaryTree.ordered root').
Proof.
  destruct root as [|v l r].
  - eexists. split; [done |]. simpl. split; [done |].
    intros _. split_and!; done.
  - by apply bst_add_loop_spec.
Qed.

(** An ordered tree is printed from the largest value down. *)
Lemma bst_ordered_sorted root :
  BinaryTree.ordered root →
  StronglySorted (λ a b, b ≤ a) (BinaryTree.print_sorted root).
Proof.
  induction root as [|v l IHl r IHr]; simpl; [constructor |].
  intros (Hl & Hr & Ol & Or). apply StronglySorted_app_2.
  - intros x1 x2 H1 [-> | H2]%elem_of_cons.
    + by apply (proj1 (Forall_forall _ _) Hl).
    + apply (proj1 (Forall_forall _ _) Hl) in H1.
      apply (proj1 (Forall_forall _ _) Hr) in H2. lia.
  - by apply IHl.
  - constructor; [by apply IHr |].
    eapply Forall_impl; [exact Hr |]. simpl. intros. lia.
Qed.

Lemma bst_add_all_spec vals :
  ∀ root, ∃ root',
    BinaryTree.add_all vals root = Ok root' ∧
    BinaryTree.print_sorted root' ≡ₚ vals ++ BinaryTree.print_sorted root ∧
    (BinaryTree.ordered root → BinaryTree.ordered root').
Proof.
  induction vals as [|val vals IH]; intros root; cbn [BinaryTree.add_all].
  - by exists root.
  - destruct (bst_add_spec root val) as (root1 & -> & Hperm1 & Hord1). simpl.
    destruct (IH root1) as (root' & -> & Hperm & Hord).
    exists root'. split; [done |]. split.
    + rewrite Hperm, Hperm1. by rewrite Permutation_middle.
    + intros ?. by apply Hord, Hord1.
Qed.

(** X16 (values are kept): when its allocation succeeds [add] returns,
    whatever the tree and the value, and [print_sorted] then prints the new
    value together with exactly the values it printed before: none is lost,
    none is printed twice, equal values are all kept. *)
Theorem bst_add_keeps_values root val :
  ∃ root',
    BinaryTree.add true root val = Ok root' ∧
    BinaryTree.print_sorted root' ≡ₚ val :: BinaryTree.print_sorted root.
Proof.
  destruct (bst_add_spec root val) as (root' & ? & ? & _). by exists root'.
Qed.

(** X17 (printed in descending order): for a tree built from the empty
    tree by a row of calls [root = add(root, val)], [print_sorted] prints
    exactly the values added, each as often as it was added, from the
    largest down to the smallest. *)
Theorem bst_print_sorted_descending vals :
  ∃ root,
    BinaryTree.add_all vals BinaryTree.Null = Ok root ∧
    BinaryTree.print_sorted root ≡ₚ vals ∧
    StronglySorted (λ a b, b ≤ a) (BinaryTree.print_sorted root).
Proof.
  destruct (bst_add_all_spec vals BinaryTree.Null) as (root & Heq & Hperm & Hord).
  exists root. split; [done |]. split.
  - by rewrite Hperm, app_nil_r.
  - by apply bst_ordered_sorted, Hord.
Qed.

(** What [main] prints. *)
Example bst_main_output : BinaryTree.main = Ok [120; 40; 33; 23; 11; 10; 5; 2].
Proof. reflexivity. Qed.

(** ** The hash function *)

Lemma wrap64_range z : 0 ≤ wrap64 z < 2 ^ 64.
Proof. unfold wrap64. apply Z.mod_pos_bound. lia. Qed.

Lemma hash_key_loop_range s acc :
  0 ≤ acc < 2 ^ 64 → 0 ≤ hash_key_loop s acc < 2 ^ 64.
Proof.
  revert acc. induction s as [|c s IH]; intros acc Hacc; simpl; [done |].
  destruct (is_nul c); [done |]. apply IH, wrap64_range.
Qed.

(** X9 (hash and key equality): keys that [strcmp] finds equal have the
    same hash, which is a 64-bit value; so equal keys start probing at the
    same slot of a table. *)
Theorem hash_key_respects_strcmp a b :
  strcmp a b = 0 →
  hash_key a = hash_key b ∧ 0 ≤ hash_key a < 2 ^ 64 ∧
  ∀ capacity, home capacity a = home capacity b.
Proof.
  intros Heq%strcmp_0.
  split; [by apply hash_key_same |]. split; [by apply hash_key_loop_range |].
  intros capacity. by apply home_same.
Qed.

Lemma c_str_fixed_cons c s :
  c_str (String c s) = String c s → is_nul c = false ∧ c_str s = s.
Proof.
  simpl. destruct (is_nul c); [done |]. by intros [= ->].
Qed.

Lemma hash_key_loop_app s s' acc :
  c_str s = s →
  hash_key_loop (s +:+ s') acc = hash_key_loop s' (hash_key_loop s acc).
Proof.
  revert acc. induction s as [|c s IH]; intros acc Hs; simpl; [done |].
  apply c_str_fixed_cons in Hs as [-> Hs]. by apply IH.
Qed.

(** X10 (hashing a longer key): for a key [s] without a NUL inside, the
    hash of [s] followed by more characters is computed from the hash of
    [s] alone: the loop goes on from there.  One more character [c] gives
    [(hash_key s xor c) * FNV_PRIME] modulo 2^64, and whatever follows a
    NUL is not hashed. *)
Theorem hash_key_append s s' c :
  c_str s = s →
  hash_key (s +:+ s') = hash_key_loop s' (hash_key s) ∧
  (is_nul c = false →
   hash_key (s +:+ String c "") = wrap64 (Z.lxor (hash_key s) (uchar c) * FNV_PRIME)) ∧
  hash_key (s +:+ String "000" s') = hash_key s.
Proof.
  intros Hs. unfold hash_key. rewrite !hash_key_loop_app by done.
  split; [done |]. split; [| done].
  intros Hc. simpl. by rewrite Hc.
Qed.

(** ** Probing a full array *)

(** X14 (no guard against a full array): when every slot of an array holds
    a key other than [k], neither the loop of [ht_get] nor the loop of
    [ht_set_entry] for [k] ever ends: whatever the fuel, it runs out.  The
    loops rely on the load factor to find an empty slot. *)
Theorem probe_never_ends_on_full_array es capacity k v fuel :
  0 < capacity < 2 ^ 64 →
  (∀ i, 0 ≤ i < capacity → taken_by_other es k i) →
  ht_get_loop fuel es capacity k (home capacity k) = Err OutOfFuel ∧
  ht_set_entry_loop fuel es capacity k v (home capacity k) = Err OutOfFuel.
Proof.
  intros Hc Hall.
  assert (Hprobe : ∀ i0, 0 ≤ i0 < capacity →
            probe fuel es capacity k i0 = Err OutOfFuel).
  { induction fuel as [|fuel IH]; intros i0 Hi;
      destruct (Hall i0 Hi) as (e & k' & Hr & Hk & Hne); simpl; rewrite Hr, Hk.
    - done.
    - destruct (Z.eqb_spec (strcmp k k') 0) as [Heq | _];
        [by apply strcmp_0 in Heq |].
      apply IH. apply next_index_bound; lia. }
  rewrite ht_get_loop_probe, ht_set_entry_loop_probe.
  by rewrite (Hprobe _ (home_bound capacity k Hc)).
Qed.

(** ** Growth that can allocate succeeds *)

Lemma ht_expand_succeeds t :
  ht_wf t → capacity t * 2 * sizeof_ht_entry < 2 ^ 64 →
  ∃ t1, ht_expand true t = Ok (true, t1) ∧ ht_wf t1 ∧
        capacity t1 = capacity t * 2 ∧ length t1 = length t.
Proof.
  intros Hwf Hsz.
  destruct (ht_expand_spec true t Hwf) as (b & t1 & Heq & Hcase).
  destruct Hcase as [[-> ->] | (-> & Hwf1 & Hcap & Hlen & _)]; [| by exists t1].
  exfalso. destruct Hwf as [[_ Hc _] _ _ _].
  unfold ht_expand, calloc, sizeof_ht_entry in *.
  rewrite wrap64_small in Heq by lia.
  destruct (Z.ltb_spec (capacity t * 2) (capacity t)) as [|_]; [lia |].
  destruct (Z.ltb_spec (capacity t * 2 * 16) (2 ^ 64)) as [_|]; [| lia].
  simpl in Heq.
  destruct (ht_expand_loop _ _ _ _ _ _) as [new'|]; simpl in Heq; discriminate Heq.
Qed.

(** ** The count of loop bodies is the fuel a probe uses *)

Lemma probe_bodies_exact fuel es capacity k i r :
  probe fuel es capacity k i = Ok r →
  probe (probe_bodies fuel es capacity k i) es capacity k i = Ok r ∧
  ∀ f, (f < probe_bodies fuel es capacity k i)%nat →
       probe f es capacity k i = Err OutOfFuel.
Proof.
  revert i. induction fuel as [|fuel IH]; intros i Hp.
  - simpl in Hp. unfold probe_bodies.
    destruct (read es i) as [e|] eqn:Hr; [| done].
    destruct (key e) as [k0|] eqn:Ek; [done |].
    split; [| intros f Hf; lia]. simpl. by rewrite Hr, Ek.
  - simpl in Hp. simpl probe_bodies.
    destruct (read es i) as [e|] eqn:Hr; [| done].
    destruct (key e) as [k0|] eqn:Ek.
    + destruct (Z.eqb_spec (strcmp k k0) 0) as [Heq | Hne].
      * split.
        -- simpl. rewrite Hr, Ek. by destruct (Z.eqb_spec (strcmp k k0) 0).
        -- intros f Hf. assert (f = O) as -> by lia. simpl. by rewrite Hr, Ek.
      * destruct (IH _ Hp) as [Hfuel Hless]. split.
        -- simpl. rewrite Hr, Ek. by destruct (Z.eqb_spec (strcmp k k0) 0).
        -- intros [|f] Hf; simpl; rewrite Hr, Ek; [done |].
           destruct (Z.eqb_spec (strcmp k k0) 0); [done |]. apply Hless. lia.
    + split; [| intros f Hf; lia]. simpl. by rewrite Hr, Ek.
Qed.

(** The probing loop of [ht_set_entry] that returns executes its body
    [probe_bodies] times: with that much fuel it returns, with less it has
    not returned yet. *)
Lemma ht_set_entry_loop_bodies fuel es capacity k v i x :
  ht_set_entry_loop fuel es capacity k v i = Ok x →
  ht_set_entry_loop (probe_bodies fuel es capacity k i) es capacity k v i = Ok x ∧
  ∀ f, (f < probe_bodies fuel es capacity k i)%nat →
       ht_set_entry_loop f es capacity k v i = Err OutOfFuel.
Proof.
  rewrite ht_set_entry_loop_probe.
  destruct (probe fuel es capacity k i) as [r|] eqn:Hp; [| done].
  destruct (probe_bodies_exact _ _ _ _ _ _ Hp) as [Hfuel Hless]. intros Hx. split.
  - by rewrite ht_set_entry_loop_probe, Hfuel.
  - intros f Hf. by rewrite ht_set_entry_loop_probe, (Hless f Hf).
Qed.

(** The same for the probing loop of [ht_get]. *)
Lemma ht_get_loop_bodies fuel es capacity k i w :
  ht_get_loop fuel es capacity k i = Ok w →
  ht_get_loop (probe_bodies fuel es capacity k i) es capacity k i = Ok w ∧
  ∀ f, (f < probe_bodies fuel es capacity k i)%nat →
       ht_get_loop f es capacity k i = Err OutOfFuel.
Proof.
  rewrite ht_get_loop_probe.
  destruct (probe fuel es capacity k i) as [r|] eqn:Hp; [| done].
  destruct (probe_bodies_exact _ _ _ _ _ _ Hp) as [Hfuel Hless]. intros Hx. split.
  - by rewrite ht_get_loop_probe, Hfuel.
  - intros f Hf. by rewrite ht_get_loop_probe, (Hless f Hf).
Qed.

(** ** Cursors and the heap *)

(** The scan of [ht_next] leaves the cursor on its table. *)
Lemma ht_next_loop_table fuel t it b it' :
  ht_next_loop fuel t it = Ok (b, it') → _table it' = _table it.
Proof.
  revert it. induction fuel as [|fuel IH]; intros it; simpl;
    destruct (Z.ltb_spec (_index it) (capacity t)) as [Hlt | Hge]; try done.
  - by intros [= _ <-].
  - destruct (read (entries t) (_index it)) as [e|]; [| done].
    destruct (key e).
    + by intros [= _ <-].
    + intros H. by apply IH in H.
  - by intros [= _ <-].
Qed.

(** [ht_next] reads the heap at the table of the cursor only. *)
Lemma ht_next_other (h h' : heap) l c :
  h' !! l = h !! l → _table c = Some l →
  ht_next h' (Some c) = ht_next h (Some c).
Proof. intros Hl Ht. unfold ht_next, deref. by rewrite Ht, Hl. Qed.

Lemma ht_iterate_loop_other (h h' : heap) l fuel :
  h' !! l = h !! l →
  ∀ it seen, _table it = Some l →
    ht_iterate_loop fuel h' it seen = ht_iterate_loop fuel h it seen.
Proof.
  intros Hl. induction fuel as [|fuel IH]; intros it seen Ht;
    cbn [ht_iterate_loop]; rewrite (ht_next_other h h' l it Hl Ht); [done |].
  destruct (ht_next h (Some it)) as [[b oc]|] eqn:Hn; [| done].
  destruct b; [| done]. destruct oc as [it'|]; [| done].
  apply IH. unfold ht_next, deref in Hn. rewrite Ht in Hn.
  destruct (h !! l) as [t|]; [| done]. simpl in Hn.
  destruct (ht_next_loop _ t it) as [[b c']|] eqn:Hloop; [| done].
  simpl in Hn. injection Hn as -> <-.
  by rewrite (ht_next_loop_table _ _ _ _ _ Hloop).
Qed.

Section Proofs.

Variable NDEBUG : bool.

(** ** ht_set on a well-formed table *)

(** The four ways a call of [ht_set] with a table, a key and a non-null
    value ends on a well-formed table: growth fails; the copy of a new key
    fails; the value of a stored key is overwritten; a new key is inserted. *)
Lemma ht_set_spec o (h : heap) l t k v :
  h !! l = Some t → ht_wf t → v ≠ NULL →
  ∃ ret t',
    ht_set NDEBUG o h (Some l) (Some k) v = Ok (ret, <[l := t']> h) ∧
    ht_wf t' ∧
    (ret = None ∧ t' = t
     ∨ ret = None ∧ absent (entries t) k ∧ length t' = length t ∧
       (∀ k2 w, holds (entries t') k2 w ↔ holds (entries t) k2 w)
     ∨ (∃ stored, ret = Some stored ∧ c_str stored = c_str k) ∧
       capacity t' =
         (if capacity t `div` 2 <=? length t then capacity t * 2 else capacity t) ∧
       holds (entries t') k v ∧
       (∀ k2 w, c_str k2 ≠ c_str k →
                holds (entries t') k2 w ↔ holds (entries t) k2 w) ∧
       ((∃ w, holds (entries t) k w) ∧ length t' = length t
        ∨ absent (entries t) k ∧ length t' = length t + 1)).
Proof.
  intros Hl Hwf Hv. unfold ht_set.
  destruct (Z.eqb_spec v NULL) as [|_]; [done |].
  rewrite andb_false_r. unfold deref. rewrite Hl. simpl.
  assert (Hgrow : ∃ b t1,
    (if capacity t `div` 2 <=? length t then ht_expand (calloc_ok o) t
     else Ok (true, t)) = Ok (b, t1) ∧
    (b = false ∧ t1 = t
     ∨ b = true ∧ ht_wf t1 ∧ 2 * (length t1 + 1) ≤ capacity t1 ∧
       length t1 = length t ∧
       capacity t1 =
         (if capacity t `div` 2 <=? length t then capacity t * 2 else capacity t) ∧
       ∀ k v, holds (entries t1) k v ↔ holds (entries t) k v)).
  { destruct Hwf as [Hwfe (n & Hn & Hpow) Hlen Hload].
    pose proof Hwfe as [_ Hc _].
    assert (16 ≤ capacity t).
    { rewrite Hpow. change 16 with (2 ^ 4). apply Z.pow_le_mono_r; lia. }
    destruct (Z.leb_spec (capacity t `div` 2) (length t)) as [Hfull | Hroom].
    - destruct (ht_expand_spec (calloc_ok o) t) as (b & t1 & -> & Hcase);
        [by split; eauto |].
      exists b, t1. split; [done |].
      destruct Hcase as [? | (-> & Hwf1 & Hcap & Hlen1 & Hholds & _)]; [by left |].
      right. split_and!; try done. lia.
    - exists true, t. split; [done |]. right.
      split_and!; try done; [by split; eauto |].
      pose proof (Z.mul_div_le (capacity t) 2). lia. }
  destruct Hgrow as (b & t1 & -> & Hcase). simpl.
  destruct Hcase as [[-> ->] | (-> & Hwf1 & Hload1 & Hlen1 & Hcap1 & Hholds1)]; simpl.
  { exists None, t. split_and!; [done | done | by left]. }
  pose proof Hwf1 as [Hwfe1 Hpow1 Hlenpop1 _].
  pose proof (population_bounds (entries t1)) as Hpb.
  pose proof Hwfe1 as [_ Hc1 _].
  destruct (ht_set_entry_spec (strdup_ok o) (entries t1) (capacity t1) k v
              (Some (length t1)) Hwfe1 ltac:(lia))
    as (ret & es' & pl' & -> & Hcase).
  simpl. rewrite insert_insert_eq.
  eexists ret, _. split; [done |].
  assert (Habs : absent (entries t1) k → absent (entries t) k).
  { rewrite !absent_not_holds. intros Ha w Hw. apply (Ha w). by apply Hholds1. }
  destruct Hcase as
    [((w & Hw) & Hret & -> & Hpop' & Hwf' & Hk & Hothers)
    | [(Ha & _ & Hret & -> & Hpop' & Hwf' & Hk & Hothers)
    | (Ha & _ & _ & -> & -> & ->)]]; simpl.
  - split; [split; simpl; [done | done | lia | lia] |].
    right. right. split_and!; [done | done | done | |].
    + intros k2 w2 Hne. simpl. by rewrite Hothers, Hholds1.
    + left. split; [| done]. exists w. by apply Hholds1.
  - rewrite wrap64_small by lia.
    split; [split; simpl; [done | done | lia | lia] |].
    right. right. split_and!; [done | done | done | |].
    + intros k2 w2 Hne. simpl. by rewrite Hothers, Hholds1.
    + right. split; [by apply Habs | lia].
  - split; [split; simpl; [done | done | lia | lia] |].
    right. left. split_and!; [done | by apply Habs | done | done].
Qed.

(** ** ht_get on a well-formed table *)

Lemma ht_get_holds (h : heap) l t k v :
  h !! l = Some t → ht_wf t → holds (entries t) k v →
  ht_get h (Some l) (Some k) = Ok v.
Proof.
  intros Hl [Hwf _ _ _] Hk. unfold ht_get, deref. rewrite Hl. simpl.
  by apply (ht_get_loop_holds Hwf).
Qed.

Lemma ht_wf_room t : ht_wf t → population (entries t) < capacity t.
Proof. intros [[_ Hc _] _ Hlen Hload]. lia. Qed.

Lemma ht_get_absent (h : heap) l t k :
  h !! l = Some t → ht_wf t → absent (entries t) k →
  ht_get h (Some l) (Some k) = Ok NULL.
Proof.
  intros Hl Hwf Hk. unfold ht_get, deref. rewrite Hl. simpl.
  apply (ht_get_loop_absent (wf_entries _ Hwf)); [by apply ht_wf_room | done].
Qed.

(** Two tables that store the same for [k] give [ht_get] the same
    answer. *)
Lemma ht_get_same (h h' : heap) l t t' k :
  h !! l = Some t → h' !! l = Some t' → ht_wf t → ht_wf t' →
  (∀ w, holds (entries t') k w ↔ holds (entries t) k w) →
  ∃ w, ht_get h (Some l) (Some k) = Ok w ∧ ht_get h' (Some l) (Some k) = Ok w.
Proof.
  intros Hl Hl' Hwf Hwf' Hsame.
  destruct (holds_or_absent (entries t) k) as [[w Hw] | Ha].
  - exists w. rewrite (ht_get_holds h l t k w), (ht_get_holds h' l t' k w); try done.
    by apply Hsame.
  - exists NULL.
    rewrite (ht_get_absent h l t k), (ht_get_absent h' l t' k); try done.
    apply absent_not_holds. intros w Hw. apply Hsame in Hw.
    by apply absent_not_holds in Hw.
Qed.

(** ** Reachable heaps are well formed *)

Lemma fresh_table_wf :
  ht_wf {| entries := replicate (Z.to_nat INITIAL_CAPACITY) zero_entry;
           capacity := INITIAL_CAPACITY; length := 0 |}.
Proof.
  split; cbn [entries capacity length].
  - by apply (replicate_wf INITIAL_CAPACITY).
  - by exists 4.
  - by rewrite population_replicate.
  - done.
Qed.

Lemma ht_create_Some m c (h : heap) l h' :
  ht_create m c h = (Some l, h') →
  h !! l = None ∧
  h' = <[l := {| entries := replicate (Z.to_nat INITIAL_CAPACITY) zero_entry;
                 capacity := INITIAL_CAPACITY; length := 0 |}]> h.
Proof.
  unfold ht_create. destruct m; [| done].
  destruct (calloc c INITIAL_CAPACITY sizeof_ht_entry) as [es|] eqn:Hc; [| done].
  intros [= <- <-]. split.
  - apply not_elem_of_dom, is_fresh.
  - unfold calloc in Hc. destruct (c && _); [| done]. by injection Hc as <-.
Qed.

Lemma heap_wf_insert (h : heap) l t : heap_wf h → ht_wf t → heap_wf (<[l := t]> h).
Proof.
  intros Hh Ht l' t'. rewrite lookup_insert.
  case_decide; [by intros [= <-] | apply Hh].
Qed.

Lemma ht_create_wf m c (h : heap) p h' :
  heap_wf h → ht_create m c h = (p, h') → heap_wf h'.
Proof.
  intros Hh Hc. destruct p as [l|].
  - apply ht_create_Some in Hc as [_ ->].
    apply heap_wf_insert; [done | apply fresh_table_wf].
  - unfold ht_create in Hc. destruct m; [| by injection Hc as <-].
    destruct (calloc c INITIAL_CAPACITY sizeof_ht_entry); [done |].
    by injection Hc as <-.
Qed.

(** A call of [ht_set] that returns has been given a null argument and left
    the heap alone, or has a live table. *)
Lemma ht_set_cases o (h : heap) table k v ret h' :
  ht_set NDEBUG o h table k v = Ok (ret, h') →
  ret = None ∧ h' = h ∧ (table = None ∨ k = None ∨ v = NULL)
  ∨ ∃ l k' t, table = Some l ∧ k = Some k' ∧ v ≠ NULL ∧ h !! l = Some t.
Proof.
  unfold ht_set. destruct (negb NDEBUG && (v =? NULL)); [done |].
  destruct table as [l|]; [| intros [= <- <-]; left; eauto].
  destruct k as [k|]; [| intros [= <- <-]; left; eauto].
  destruct (Z.eqb_spec v NULL) as [-> | Hv]; [intros [= <- <-]; left; eauto |].
  unfold deref. destruct (h !! l) as [t|] eqn:Hl; [| done].
  intros _. right. by exists l, k, t.
Qed.

Lemma ht_set_wf o (h : heap) table k v ret h' :
  heap_wf h → ht_set NDEBUG o h table k v = Ok (ret, h') → heap_wf h'.
Proof.
  intros Hh Hset.
  destruct (ht_set_cases _ _ _ _ _ _ _ Hset)
    as [(_ & -> & _) | (l & k' & t & -> & -> & Hv & Hl)]; [done |].
  destruct (ht_set_spec o h l t k' v Hl (Hh l t Hl) Hv) as (ret' & t' & Heq & Hwf' & _).
  rewrite Heq in Hset. injection Hset as _ <-. by apply heap_wf_insert.
Qed.

Lemma ht_destroy_wf (h : heap) table h' :
  heap_wf h → ht_destroy h table = Ok h' → heap_wf h'.
Proof.
  intros Hh. unfold ht_destroy. destruct table as [l|]; [| by intros [= <-]].
  unfold deref. destruct (h !! l) as [t|]; [| done]. simpl.
  destruct (_ <? _); [done |]. intros [= <-] l' t' Hl'.
  apply lookup_delete_Some in Hl' as [_ Hl']. by apply (Hh l').
Qed.

Lemma exec_wf c (h h' : heap) : heap_wf h → exec NDEBUG c h = Ok h' → heap_wf h'.
Proof.
  intros Hh. destruct c as [m c | o table k v | table]; simpl.
  - intros [= <-]. destruct (ht_create m c h) as [p h1] eqn:Hc.
    by apply (ht_create_wf m c h p).
  - destruct (ht_set NDEBUG o h table k v) as [[ret h1]|] eqn:Hset; [| done].
    simpl. intros [= <-]. by apply (ht_set_wf o h table k v ret).
  - by apply ht_destroy_wf.
Qed.

Lemma run_wf cs (h h' : heap) : heap_wf h → run NDEBUG cs h = Ok h' → heap_wf h'.
Proof.
  revert h. induction cs as [|c cs IH]; intros h Hh; simpl.
  - by intros [= <-].
  - destruct (exec NDEBUG c h) as [h1|] eqn:He; [| done]. simpl.
    apply IH. by apply (exec_wf c h).
Qed.

Lemma reachable_wf (h : heap) : reachable NDEBUG h → heap_wf h.
Proof.
  intros [cs Hrun]. apply (run_wf cs ∅); [| done]. intros l t. by rewrite lookup_empty.
Qed.

(** ** The contents of an array *)

Lemma contents_length es : Z.of_nat (List.length (contents es)) = population es.
Proof.
  induction es as [|e es IH]; simpl; [done |].
  destruct (key e); simpl; lia.
Qed.

Lemma contents_holds es k v : (k, v) ∈ contents es → holds es k v.
Proof.
  induction es as [|e es IH]; simpl; [by intros ?%elem_of_nil |].
  destruct (key e) as [k'|] eqn:Ek.
  - intros [[= -> ->] | Hin]%elem_of_cons.
    + by exists 0%nat, e, k'.
    + destruct (IH Hin) as (i & e' & k0 & ? & ?). by exists (S i), e', k0.
  - intros Hin. destruct (IH Hin) as (i & e' & k0 & ? & ?). by exists (S i), e', k0.
Qed.

Lemma contents_keys_NoDup es :
  (∀ (i j : nat) e e' k k',
     es !! i = Some e → es !! j = Some e' →
     key e = Some k → key e' = Some k' → c_str k = c_str k' → i = j) →
  NoDup ((λ p, c_str p.1) <$> contents es).
Proof.
  induction es as [|e es IH]; intros Hd; simpl; [constructor |].
  assert (Htail : NoDup ((λ p, c_str p.1) <$> contents es)).
  { apply IH. intros i j e1 e2 k1 k2 Hi Hj Hk1 Hk2 Heq.
    assert (S i = S j) by (by apply (Hd (S i) (S j) e1 e2 k1 k2)). lia. }
  destruct (key e) as [k|] eqn:Ek; [| done].
  simpl. constructor; [| done].
  intros ([k' v] & Heq & Hin)%list_elem_of_fmap. simpl in Heq.
  destruct (contents_holds _ _ _ Hin) as (j & e' & k0 & Hj & Hk0 & Heq0 & _).
  assert (0%nat = S j); [| done].
  apply (Hd 0%nat (S j) e e' k k0); try done. congruence.
Qed.

(** ** The scan of ht_next *)

(** From index [i] the scan ends at the capacity when no slot from [i] on is
    occupied, and else stops behind the first occupied slot, showing it. *)
Lemma ht_next_loop_spec t fuel :
  Z.of_nat (List.length (entries t)) = capacity t → capacity t < 2 ^ 64 →
  ∀ it,
    0 ≤ _index it ≤ capacity t → (Z.to_nat (capacity t - _index it) ≤ fuel)%nat →
    contents (drop (Z.to_nat (_index it)) (entries t)) = [] ∧
    ht_next_loop fuel t it =
      Ok (false, {| _table := _table it; _index := capacity t;
                    it_key := None; it_value := NULL |})
    ∨ ∃ j e k,
        _index it ≤ j < capacity t ∧
        entries t !! Z.to_nat j = Some e ∧ key e = Some k ∧
        contents (drop (Z.to_nat (_index it)) (entries t))
          = (k, value e) :: contents (drop (Z.to_nat (j + 1)) (entries t)) ∧
        ht_next_loop fuel t it =
          Ok (true, {| _table := _table it; _index := j + 1;
                       it_key := Some k; it_value := value e |}).
Proof.
  intros Hlen Hc. induction fuel as [|fuel IH]; intros it Hi Hfuel.
  - left. assert (_index it = capacity t) as Heq by lia. simpl.
    rewrite Heq, Z.ltb_irrefl. split; [| done].
    by rewrite drop_ge by lia.
  - simpl. destruct (Z.ltb_spec (_index it) (capacity t)) as [Hlt | Hge].
    2:{ left. assert (_index it = capacity t) as Heq by lia.
        rewrite Heq. split; [| done]. by rewrite drop_ge by lia. }
    destruct (read_in_bounds (entries t) (_index it)) as [e Hr]; [lia |].
    rewrite Hr. apply read_Ok in Hr.
    rewrite (drop_S _ _ _ Hr). simpl.
    rewrite wrap64_small by lia.
    replace (S (Z.to_nat (_index it))) with (Z.to_nat (_index it + 1)) by lia.
    destruct (key e) as [k|] eqn:Ek.
    + right. exists (_index it), e, k. split_and!; (done || lia).
    + specialize (IH {| _table := _table it; _index := _index it + 1;
                        it_key := it_key it; it_value := it_value it |}).
      simpl in IH.
      destruct IH as [[Hnil Hloop] | (j & e' & k & Hj & He' & Hk & Hcont & Hloop)];
        [lia | lia | by left |].
      right. exists j, e', k. split_and!; (done || lia).
Qed.

(** A scan that reports exhaustion leaves the cursor at or behind the
    capacity, with its key and value cleared. *)
Lemma ht_next_loop_false fuel t it it' :
  ht_next_loop fuel t it = Ok (false, it') →
  capacity t ≤ _index it' ∧ it_key it' = None ∧ it_value it' = NULL ∧
  _table it' = _table it.
Proof.
  revert it. induction fuel as [|fuel IH]; intros it; simpl;
    destruct (Z.ltb_spec (_index it) (capacity t)) as [Hlt | Hge]; try done.
  - intros [= <-]. done.
  - destruct (read (entries t) (_index it)) as [e|]; [| done].
    destruct (key e); [done |]. intros H. by apply IH in H.
  - intros [= <-]. done.
Qed.

Lemma ht_next_loop_done fuel t it :
  capacity t ≤ _index it →
  ht_next_loop fuel t it =
    Ok (false, {| _table := _table it; _index := _index it;
                  it_key := None; it_value := NULL |}).
Proof.
  intros Hge. destruct fuel; simpl;
    by destruct (Z.ltb_spec (_index it) (capacity t)); [lia |].
Qed.

(** The client loop collects the contents from the cursor's index on. *)
Lemma ht_iterate_loop_spec (h : heap) l t :
  h !! l = Some t →
  Z.of_nat (List.length (entries t)) = capacity t → capacity t < 2 ^ 64 →
  ∀ fuel it seen,
    _table it = Some l → 0 ≤ _index it ≤ capacity t →
    (List.length (contents (drop (Z.to_nat (_index it)) (entries t))) ≤ fuel)%nat →
    ht_iterate_loop fuel h it seen =
      Ok (seen ++ (shown <$> contents (drop (Z.to_nat (_index it)) (entries t)))).
Proof.
  intros Hl Hlen Hc. induction fuel as [|fuel IH]; intros it seen Ht Hi Hfuel.
  - destruct (ht_next_loop_spec t (Z.to_nat (capacity t)) Hlen Hc it Hi ltac:(lia))
      as [[Hnil Hloop] | (j & e & k & _ & _ & _ & Hcont & _)].
    + simpl. unfold deref. rewrite Ht, Hl. simpl. rewrite Hloop. simpl.
      by rewrite Hnil, app_nil_r.
    + rewrite Hcont in Hfuel. simpl in Hfuel. lia.
  - destruct (ht_next_loop_spec t (Z.to_nat (capacity t)) Hlen Hc it Hi ltac:(lia))
      as [[Hnil Hloop] | (j & e & k & Hj & He & Hk & Hcont & Hloop)].
    + simpl. unfold deref. rewrite Ht, Hl. simpl. rewrite Hloop. simpl.
      by rewrite Hnil, app_nil_r.
    + simpl. unfold deref. rewrite Ht, Hl. simpl. rewrite Hloop. simpl.
      rewrite IH; simpl; [| done | lia |].
      * rewrite Hcont. simpl. by rewrite <- app_assoc.
      * rewrite Hcont in Hfuel. simpl in Hfuel. lia.
Qed.

Lemma ht_iterate_contents (h : heap) l t :
  h !! l = Some t → ht_wf t →
  ht_iterate h l = Ok (shown <$> contents (entries t)).
Proof.
  intros Hl [[Hlen Hc _] _ _ _]. unfold ht_iterate, deref. rewrite Hl. simpl.
  pose proof (contents_length (entries t)).
  pose proof (population_bounds (entries t)).
  rewrite (ht_iterate_loop_spec h l t Hl Hlen ltac:(lia));
    change (Z.to_nat (_index (ht_iterator (Some l)))) with 0%nat;
    rewrite ?drop_0; simpl; (done || lia).
Qed.

(** ** Rows of insertions *)

Lemma insert_all_spec l kvs :
  ∀ (h : heap) t h',
    h !! l = Some t → ht_wf t → insert_all NDEBUG l kvs h = Some h' →
    ∃ t', h' !! l = Some t' ∧ ht_wf t' ∧
      (∀ k v, holds (entries t') k v ↔
              match last_set kvs k with
              | Some w => v = w
              | None => holds (entries t) k v
              end) ∧
      (NoDup (keys_set kvs) →
       (∀ k, c_str k ∈ keys_set kvs → absent (entries t) k) →
       length t' = length t + Z.of_nat (List.length kvs)).
Proof.
  induction kvs as [|[[o k'] v'] kvs IH]; intros h t h' Hl Hwf; simpl.
  - intros [= <-]. exists t. split_and!; [done | done | done | lia].
  - destruct (ht_set NDEBUG o h (Some l) (Some k') v') as [[[stored|] h1]|] eqn:Hset;
      try done.
    intros Hrest.
    destruct (ht_set_cases _ _ _ _ _ _ _ Hset)
      as [(? & _) | (? & ? & ? & _ & _ & Hv & _)]; [done |].
    destruct (ht_set_spec o h l t k' v' Hl Hwf Hv) as (ret & t1 & Heq & Hwf1 & Hcase).
    rewrite Heq in Hset. injection Hset as -> <-.
    destruct Hcase as [[? _] | [[? _] | (_ & _ & Hk' & Hothers & Hlen)]]; try done.
    destruct (IH (<[l := t1]> h) t1 h') as (t' & Hl' & Hwf' & Hholds & Hcount);
      [by rewrite lookup_insert_eq | done | done |].
    exists t'. split_and!; [done | done | |].
    + intros k v. rewrite Hholds. destruct (last_set kvs k); [done |].
      destruct (decide (c_str k' = c_str k)) as [Hsame | Hne].
      * split.
        -- intros Hk. apply (holds_unique (wf_entries _ Hwf1) k); [done |].
           by apply (holds_same _ k').
        -- intros ->. by apply (holds_same _ k').
      * apply Hothers. congruence.
    + unfold keys_set. simpl. intros [Hnotin Hnd]%NoDup_cons Habs.
      rewrite Hcount; [| done |].
      * destruct Hlen as [[[w Hw] _] | [_ ->]]; [| lia].
        exfalso. apply (proj1 (absent_not_holds _ _) (Habs k' ltac:(left)) w Hw).
      * intros k Hin. apply absent_not_holds. intros w Hw.
        apply Hothers in Hw.
        -- apply (proj1 (absent_not_holds _ _) (Habs k ltac:(by right)) w Hw).
        -- intros Heqk. apply Hnotin. by rewrite <- Heqk.
Qed.
(** ** ht_set when every allocation succeeds *)

(** On a well-formed table a call of [ht_set] with a non-null value whose
    copy of the key succeeds, and whose growth, when due, can allocate,
    returns a key. *)
Lemma ht_set_succeeds o (h : heap) l t k v :
  h !! l = Some t → ht_wf t → v ≠ NULL →
  strdup_ok o = true →
  (capacity t `div` 2 ≤ length t →
   calloc_ok o = true ∧ capacity t * 2 * sizeof_ht_entry < 2 ^ 64) →
  ∃ stored h', ht_set NDEBUG o h (Some l) (Some k) v = Ok (Some stored, h').
Proof.
  intros Hl Hwf Hv Hsd Hgrow. unfold ht_set.
  destruct (Z.eqb_spec v NULL) as [|_]; [done |].
  rewrite andb_false_r. unfold deref. rewrite Hl. simpl.
  assert (Hex : ∃ t1,
    (if capacity t `div` 2 <=? length t then ht_expand (calloc_ok o) t
     else Ok (true, t)) = Ok (true, t1) ∧
    ht_wf t1 ∧ 2 * (length t1 + 1) ≤ capacity t1).
  { pose proof Hwf as [[_ Hc _] (n & Hn & Hpow) _ Hload].
    assert (16 ≤ capacity t).
    { rewrite Hpow. change 16 with (2 ^ 4). apply Z.pow_le_mono_r; lia. }
    destruct (Z.leb_spec (capacity t `div` 2) (length t)) as [Hfull | Hroom].
    - destruct (Hgrow Hfull) as [-> Hsz].
      destruct (ht_expand_succeeds t Hwf Hsz) as (t1 & Heq & Hwf1 & Hcap & Hlen).
      exists t1. split_and!; [done | done | lia].
    - exists t. split_and!; [done | done |].
      pose proof (Z.mul_div_le (capacity t) 2). lia. }
  destruct Hex as (t1 & -> & Hwf1 & Hload1). simpl.
  pose proof Hwf1 as [Hwfe1 _ Hlenpop1 _].
  pose proof Hwfe1 as [_ Hc1 _].
  destruct (ht_set_entry_spec (strdup_ok o) (entries t1) (capacity t1) k v
              (Some (length t1)) Hwfe1 ltac:(lia))
    as (ret & es' & pl' & -> & Hcase).
  simpl.
  destruct Hcase as
    [(_ & (stored & -> & _) & _)
    | [(_ & _ & (stored & -> & _) & _)
    | (_ & _ & Hno & _)]]; [eauto | eauto | congruence].
Qed.


(** * The properties of the specification *)

(** C1 (round trip): on every table reachable through the public interface,
    when [ht_set] of key [k] and value [v] succeeds (returns the stored
    key), [ht_get] of [k] on the resulting table returns [v]. *)
Theorem set_get_roundtrip o (h : heap) table k v stored h' :
  reachable NDEBUG h →
  ht_set NDEBUG o h table k v = Ok (Some stored, h') →
  ht_get h' table k = Ok v.
Proof.
  intros Hreach Hset. apply reachable_wf in Hreach.
  destruct (ht_set_cases _ _ _ _ _ _ _ Hset)
    as [(? & _) | (l & k' & t & -> & -> & Hv & Hl)]; [done |].
  destruct (ht_set_spec o h l t k' v Hl (Hreach l t Hl) Hv)
    as (ret & t' & Heq & Hwf' & Hcase).
  rewrite Heq in Hset. injection Hset as -> <-.
  destruct Hcase as [[? _] | [[? _] | (_ & _ & Hk & _)]]; try done.
  apply (ht_get_holds _ l t'); [by rewrite lookup_insert_eq | done | done].
Qed.

(** C2 (growth preserves data): on a reachable table growth returns; it
    succeeds whenever the allocation of the doubled store succeeds; and when
    it succeeds it doubles the capacity, leaves [length] as it was, gives the
    new store the population of the old one and stores exactly what the old
    store stored, so that [ht_get] answers every key as before.  After a
    successful [ht_set] of key [k] that had to grow the table, the capacity
    is doubled and every other key still maps via [ht_get] to its previous
    value; and when growth is due and every allocation succeeds, [ht_set] of
    a non-null value does succeed, with the table grown, [k] mapped to the
    value set and every other key mapped as before. *)
Theorem growth_preserves_data o (h : heap) l t :
  reachable NDEBUG h → h !! l = Some t →
  (∀ ok, ∃ b t1,
     ht_expand ok t = Ok (b, t1) ∧
     (ok = true → capacity t * 2 * sizeof_ht_entry < 2 ^ 64 → b = true) ∧
     (b = true →
      capacity t1 = capacity t * 2 ∧ length t1 = length t ∧
      population (entries t1) = population (entries t) ∧
      (∀ k w, holds (entries t1) k w ↔ holds (entries t) k w) ∧
      ∀ k, ∃ w, ht_get h (Some l) (Some k) = Ok w ∧
                ht_get (<[l := t1]> h) (Some l) (Some k) = Ok w)) ∧
  (∀ k v stored h',
     capacity t `div` 2 ≤ length t →
     ht_set NDEBUG o h (Some l) (Some k) v = Ok (Some stored, h') →
     ∃ t', h' !! l = Some t' ∧ capacity t' = capacity t * 2 ∧
       ∀ k2, c_str k2 ≠ c_str k →
             ∃ w, ht_get h (Some l) (Some k2) = Ok w ∧
                  ht_get h' (Some l) (Some k2) = Ok w) ∧
  (∀ k v,
     v ≠ NULL → capacity t `div` 2 ≤ length t →
     calloc_ok o = true → strdup_ok o = true →
     capacity t * 2 * sizeof_ht_entry < 2 ^ 64 →
     ∃ stored h' t',
       ht_set NDEBUG o h (Some l) (Some k) v = Ok (Some stored, h') ∧
       h' !! l = Some t' ∧ capacity t' = capacity t * 2 ∧
       ht_get h' (Some l) (Some k) = Ok v ∧
       ∀ k2, c_str k2 ≠ c_str k →
             ∃ w, ht_get h (Some l) (Some k2) = Ok w ∧
                  ht_get h' (Some l) (Some k2) = Ok w).
Proof.
  intros Hreach Hl. apply reachable_wf in Hreach. pose proof (Hreach l t Hl) as Hwf.
  assert (Hgrown : ∀ k v stored h',
    capacity t `div` 2 ≤ length t →
    ht_set NDEBUG o h (Some l) (Some k) v = Ok (Some stored, h') →
    ∃ t', h' !! l = Some t' ∧ capacity t' = capacity t * 2 ∧
      ht_get h' (Some l) (Some k) = Ok v ∧
      ∀ k2, c_str k2 ≠ c_str k →
            ∃ w, ht_get h (Some l) (Some k2) = Ok w ∧
                 ht_get h' (Some l) (Some k2) = Ok w).
  { intros k v stored h' Hfull Hset.
    destruct (ht_set_cases _ _ _ _ _ _ _ Hset)
      as [(? & _) | (? & ? & ? & _ & _ & Hv & _)]; [done |].
    destruct (ht_set_spec o h l t k v Hl Hwf Hv) as (ret & t' & Heq & Hwf' & Hcase).
    rewrite Heq in Hset. injection Hset as -> <-.
    destruct Hcase as [[? _] | [[? _] | (_ & Hcap & Hk & Hothers & _)]]; try done.
    exists t'. split_and!.
    - by rewrite lookup_insert_eq.
    - rewrite Hcap. by destruct (Z.leb_spec (capacity t `div` 2) (length t)); [| lia].
    - apply (ht_get_holds _ l t'); [by rewrite lookup_insert_eq | done | done].
    - intros k2 Hne. apply (ht_get_same h _ l t t'); try done.
      + by rewrite lookup_insert_eq.
      + intros w. by apply Hothers. }
  split_and!.
  - intros ok.
    destruct (ht_expand_spec ok t Hwf) as (b & t1 & Heq & Hcase).
    exists b, t1. split_and!; [done | |].
    { intros -> Hsz.
      destruct (ht_expand_succeeds t Hwf Hsz) as (t2 & Heq2 & _).
      rewrite Heq2 in Heq. by injection Heq as <- _. }
    intros ->.
    destruct Hcase as [[? _] | (_ & Hwf1 & Hcap & Hlen & Hholds & _)]; [done |].
    split_and!; try done.
    + rewrite <- (wf_length _ Hwf1), <- (wf_length _ Hwf). done.
    + intros k. apply (ht_get_same h _ l t t1); try done.
      by rewrite lookup_insert_eq.
  - intros k v stored h' Hfull Hset.
    destruct (Hgrown k v stored h' Hfull Hset) as (t' & Ht' & Hcap & _ & Hothers).
    by exists t'.
  - intros k v Hv Hfull Hca Hsd Hsz.
    destruct (ht_set_succeeds o h l t k v Hl Hwf Hv Hsd) as (stored & h' & Hset);
      [done |].
    destruct (Hgrown k v stored h' Hfull Hset) as (t' & Ht' & Hcap & Hk & Hothers).
    by exists stored, h', t'.
Qed.

(** C3 (load factor bound): immediately after every successful [ht_set] on
    a reachable table, twice the length is at most the capacity. *)
Theorem load_factor_bound o (h : heap) table k v stored h' :
  reachable NDEBUG h →
  ht_set NDEBUG o h table k v = Ok (Some stored, h') →
  ∃ l t', table = Some l ∧ h' !! l = Some t' ∧
          ht_length h' table = Ok (length t') ∧
          length t' * 2 ≤ capacity t'.
Proof.
  intros Hreach Hset. apply reachable_wf in Hreach.
  destruct (ht_set_cases _ _ _ _ _ _ _ Hset)
    as [(? & _) | (l & k' & t & -> & -> & Hv & Hl)]; [done |].
  destruct (ht_set_spec o h l t k' v Hl (Hreach l t Hl) Hv)
    as (ret & t' & Heq & Hwf' & _).
  rewrite Heq in Hset. injection Hset as -> <-.
  exists l, t'. split_and!.
  - done.
  - by rewrite lookup_insert_eq.
  - unfold ht_length, deref. by rewrite lookup_insert_eq.
  - pose proof (wf_load _ Hwf'). lia.
Qed.

(** C4 (update semantics): after a successful [ht_set] of key [k] on a
    reachable table, a second [ht_set] of [k] leaves [ht_length] as it was;
    when the second call succeeds [ht_get] of [k] returns the second value,
    and when it fails [ht_get] of [k] still returns the first. *)
Theorem update_semantics o1 o2 (h : heap) table k v1 v2 s1 h1 r2 h2 :
  reachable NDEBUG h →
  ht_set NDEBUG o1 h table k v1 = Ok (Some s1, h1) →
  ht_set NDEBUG o2 h1 table k v2 = Ok (r2, h2) →
  (∃ n, ht_length h1 table = Ok n ∧ ht_length h2 table = Ok n) ∧
  ht_get h2 table k = Ok (match r2 with Some _ => v2 | None => v1 end).
Proof.
  intros Hreach Hset1 Hset2. apply reachable_wf in Hreach.
  pose proof (ht_set_wf _ _ _ _ _ _ _ Hreach Hset1) as Hwf1.
  destruct (ht_set_cases _ _ _ _ _ _ _ Hset1)
    as [(? & _) | (l & k' & t & -> & -> & Hv1 & Hl)]; [done |].
  destruct (ht_set_spec o1 h l t k' v1 Hl (Hreach l t Hl) Hv1)
    as (ret & t1 & Heq & Hwft1 & Hcase).
  rewrite Heq in Hset1. injection Hset1 as -> <-.
  destruct Hcase as [[? _] | [[? _] | (_ & _ & Hk1 & _)]]; try done.
  assert (Hl1 : <[l := t1]> h !! l = Some t1) by (by rewrite lookup_insert_eq).
  assert (Hget1 : ht_get (<[l := t1]> h) (Some l) (Some k') = Ok v1)
    by (by apply (ht_get_holds _ l t1)).
  destruct (ht_set_cases _ _ _ _ _ _ _ Hset2)
    as [(-> & -> & _) | (? & ? & ? & _ & _ & Hv2 & _)].
  { split; [| done]. unfold ht_length, deref. rewrite Hl1. by eexists. }
  destruct (ht_set_spec o2 _ l t1 k' v2 Hl1 Hwft1 Hv2)
    as (ret & t2 & Heq2 & Hwft2 & Hcase).
  rewrite Heq2 in Hset2. injection Hset2 as -> <-.
  unfold ht_length, deref. rewrite !lookup_insert_eq. simpl.
  destruct Hcase as
    [[-> ->] | [(_ & Ha & _) | ((s2 & -> & _) & _ & Hk2 & _ & Hlen)]].
  - split; [by exists (length t1) |]. by rewrite insert_insert_eq.
  - exfalso. by apply (proj1 (absent_not_holds _ _) Ha v1).
  - split.
    + destruct Hlen as [[_ ->] | [Ha _]]; [by exists (length t1) |].
      exfalso. by apply (proj1 (absent_not_holds _ _) Ha v1).
    + apply (ht_get_holds _ l t2); [by rewrite lookup_insert_eq | done | done].
Qed.

(** C5 (failed growth): when [ht_set] has to grow the table and growth
    fails, because doubling the capacity overflows or because the new entry
    store cannot be allocated, [ht_expand] reports failure with the table
    as it was and [ht_set] returns failure with the heap, hence the table's
    entries, capacity and length, exactly as before the call; and growth
    reports failure for no other reason. *)
Theorem growth_failure_leaves_table o (h : heap) l t k v :
  h !! l = Some t → v ≠ NULL → capacity t `div` 2 ≤ length t →
  (wrap64 (capacity t * 2) < capacity t ∨
   calloc (calloc_ok o) (wrap64 (capacity t * 2)) sizeof_ht_entry = None →
   ht_expand (calloc_ok o) t = Ok (false, t) ∧
   ht_set NDEBUG o h (Some l) (Some k) v = Ok (None, h)) ∧
  (∀ t', ht_expand (calloc_ok o) t = Ok (false, t') →
         t' = t ∧
         (wrap64 (capacity t * 2) < capacity t ∨
          calloc (calloc_ok o) (wrap64 (capacity t * 2)) sizeof_ht_entry = None) ∧
         ht_set NDEBUG o h (Some l) (Some k) v = Ok (None, h)).
Proof.
  intros Hl Hv Hfull.
  assert (Hfail : ∀ t', ht_expand (calloc_ok o) t = Ok (false, t') →
                        t' = t ∧ ht_set NDEBUG o h (Some l) (Some k) v = Ok (None, h)).
  { intros t' Hexp.
    assert (t' = t) as ->.
    { revert Hexp. unfold ht_expand.
      destruct (_ <? _); [by intros [= <-] |].
      destruct (calloc _ _ _); [| by intros [= <-]].
      destruct (ht_expand_loop _ _ _ _ _ _); done. }
    split; [done |]. unfold ht_set.
    destruct (Z.eqb_spec v NULL) as [|_]; [done |].
    rewrite andb_false_r. unfold deref. rewrite Hl. simpl.
    destruct (Z.leb_spec (capacity t `div` 2) (length t)); [| lia].
    rewrite Hexp. simpl. by rewrite insert_id. }
  split.
  - intros Hwhy.
    assert (Hexp : ht_expand (calloc_ok o) t = Ok (false, t)).
    { unfold ht_expand. destruct (Z.ltb_spec (wrap64 (capacity t * 2)) (capacity t));
        [done |].
      destruct Hwhy as [? | ->]; [lia | done]. }
    split; [done |]. by apply (Hfail t).
  - intros t' Hexp. destruct (Hfail t' Hexp) as [-> Hset].
    split_and!; [done | | done].
    revert Hexp. unfold ht_expand.
    destruct (Z.ltb_spec (wrap64 (capacity t * 2)) (capacity t)); [by left |].
    destruct (calloc _ _ _); [| by right].
    destruct (ht_expand_loop _ _ _ _ _ _); done.
Qed.

(** C6 (null arguments): with a null table, key or value, [ht_set] returns
    failure and changes nothing when the value is not null or when
    assertions are compiled out ([NDEBUG]); with assertions compiled in, a
    null value stops the program at the [assert] before anything is
    changed.  With a null table or key [ht_get] returns not-found, and
    [ht_length] of a null table is 0. *)
Theorem null_arguments o (h : heap) table k v :
  table = None ∨ k = None ∨ v = NULL →
  (NDEBUG = true ∨ v ≠ NULL → ht_set NDEBUG o h table k v = Ok (None, h)) ∧
  (NDEBUG = false ∧ v = NULL → ht_set NDEBUG o h table k v = Err AssertionFailed) ∧
  (table = None ∨ k = None → ht_get h table k = Ok NULL) ∧
  ht_length h None = Ok 0.
Proof.
  intros Hnull. split_and!.
  - intros Hbuild. unfold ht_set.
    assert (negb NDEBUG && (v =? NULL) = false) as ->.
    { destruct Hbuild as [-> | Hv]; [done |].
      destruct (Z.eqb_spec v NULL); [done | apply andb_false_r]. }
    destruct table as [l|]; [| done]. destruct k as [k|]; [| done].
    destruct Hnull as [? | [? | ->]]; done.
  - intros [-> ->]. done.
  - intros [-> | ->]; [done |]. by destruct table.
  - done.
Qed.

(** C7 (iteration completeness): on a table just created, after [N]
    successful calls of [ht_set] with pairwise distinct keys and no other
    change, iterating with [ht_next] until it reports exhaustion yields
    exactly [N] pairs, their keys are pairwise distinct, and the value of
    each pair is the value most recently set for its key. *)
Theorem iteration_complete m c (h0 : heap) l h1 kvs h :
  ht_create m c h0 = (Some l, h1) →
  insert_all NDEBUG l kvs h1 = Some h →
  NoDup (keys_set kvs) →
  ∃ pairs,
    ht_iterate h l = Ok (shown <$> pairs) ∧
    List.length pairs = List.length kvs ∧
    NoDup ((λ p, c_str p.1) <$> pairs) ∧
    ∀ k v, (k, v) ∈ pairs → last_set kvs k = Some v.
Proof.
  intros Hc Hins Hnd. apply ht_create_Some in Hc as [_ ->].
  destruct (insert_all_spec l kvs _ _ h (lookup_insert_eq _ _ _) fresh_table_wf Hins)
    as (t' & Hl' & Hwf' & Hholds & Hcount).
  exists (contents (entries t')). split_and!.
  - by apply ht_iterate_contents.
  - apply Nat2Z.inj. rewrite contents_length, <- (wf_length _ Hwf').
    rewrite Hcount; [simpl; lia | done |].
    intros k _ i e k' Hi. apply lookup_replicate in Hi as [-> _]. done.
  - apply contents_keys_NoDup. intros i j e e' k k'.
    apply (wf_distinct (wf_entries _ Hwf')).
  - intros k v Hin. apply contents_holds, Hholds in Hin.
    destruct (last_set kvs k); [by rewrite Hin |].
    by apply holds_replicate in Hin.
Qed.

(** C8 (exhaustion is terminal): when [ht_next] reports exhaustion, every
    further call on that cursor, the table being left alone, reports
    exhaustion again and leaves the cursor as it is; and when the cursor
    has a table, so that the scan has run to the end of the entry array,
    the cursor's key and value are cleared and its index is at or behind
    the capacity. *)
Theorem exhausted_is_terminal (h : heap) it it' :
  ht_next h (Some it) = Ok (false, Some it') →
  (∀ n, ht_next_times n h (Some it') = Ok (false, Some it')) ∧
  (∀ l, _table it = Some l →
        it_key it' = None ∧ it_value it' = NULL ∧
        ∃ t, h !! l = Some t ∧ capacity t ≤ _index it').
Proof.
  intros Hnext.
  assert (Hagain : ht_next h (Some it') = Ok (false, Some it') ∧
            ∀ l, _table it = Some l →
                 it_key it' = None ∧ it_value it' = NULL ∧
                 ∃ t, h !! l = Some t ∧ capacity t ≤ _index it').
  { revert Hnext. unfold ht_next.
    destruct (_table it) as [l|] eqn:Ht; [| by intros [= <-]; rewrite Ht].
    unfold deref. destruct (h !! l) as [t|] eqn:Hl; [| done]. simpl.
    destruct (ht_next_loop _ t it) as [[b c]|] eqn:Hloop; [| done]. simpl.
    intros [= -> ->]. apply ht_next_loop_false in Hloop as (Hge & Hk & Hv & Ht').
    rewrite Ht', Ht, Hl. simpl. rewrite ht_next_loop_done by done. simpl.
    split.
    - destruct it'; simpl in *. by subst.
    - intros l' [= <-]. split_and!; [done | done |]. by exists t. }
  destruct Hagain as [Hagain Hclear]. split; [| done].
  induction n as [|n IH]; [done |]. cbn [ht_next_times]. by rewrite Hagain.
Qed.

(** C9 (termination within the capacity): on every table [t] reachable
    through the public interface, every loop of every operation ends within
    [capacity t] executions of its body: the probing loops of [ht_get] and
    [ht_set], the rehashing loop of growth together with each of its probes
    into the new store and the probe that follows growth, and the scan of
    [ht_next]; so [ht_get], growth, [ht_set] and [ht_next] all return.  The
    bound is one on each loop, not on the loops of an operation taken
    together: a call of [ht_set] that grows the table executes the body of
    the rehashing loop [capacity t] times and those of the probes besides. *)
Theorem operations_terminate (h : heap) l t :
  reachable NDEBUG h → h !! l = Some t →
  let c := Z.to_nat (capacity t) in
  (∀ k, ∃ v,
     ht_get_loop c (entries t) (capacity t) k (home (capacity t) k) = Ok v ∧
     ht_get h (Some l) (Some k) = Ok v) ∧
  (∀ k v, ∃ x,
     ht_set_entry_loop c (entries t) (capacity t) k v (home (capacity t) k) = Ok x) ∧
  (∀ ok, ∃ b t1,
     ht_expand ok t = Ok (b, t1) ∧
     (b = true →
      ht_expand_loop c c t 0
        (replicate (Z.to_nat (capacity t * 2)) zero_entry) (capacity t * 2)
        = Ok (entries t1) ∧
      ∀ k v, ∃ x,
        ht_set_entry_loop c (entries t1) (capacity t1) k v
          (home (capacity t1) k) = Ok x)) ∧
  (∀ o k v, v ≠ NULL → ∃ r, ht_set NDEBUG o h (Some l) (Some k) v = Ok r) ∧
  (∀ it, _table it = Some l → 0 ≤ _index it →
     ∃ b it', ht_next_loop c t it = Ok (b, it') ∧
              ht_next h (Some it) = Ok (b, Some it')).
Proof.
  intros Hreach Hl c. apply reachable_wf in Hreach.
  pose proof (Hreach l t Hl) as Hwf.
  pose proof Hwf as [Hwfe _ Hlen Hload]. pose proof Hwfe as [Hsize Hc _].
  pose proof (ht_wf_room t Hwf) as Hroom.
  pose proof (home_bound (capacity t)) as Hhome.
  pose proof (population_bounds (entries t)) as Hpb.
  assert (Hprobe : ∀ k, ∃ i e,
            probe c (entries t) (capacity t) k (home (capacity t) k) = Ok (i, e)).
  { intros k. apply probe_total; try done; [lia | by apply Hhome]. }
  split_and!.
  - intros k. destruct (Hprobe k) as (i & e & Hp).
    unfold ht_get, deref. rewrite Hl. simpl. fold c.
    rewrite ht_get_loop_probe, Hp. eauto.
  - intros k v. destruct (Hprobe k) as (i & e & Hp).
    rewrite ht_set_entry_loop_probe, Hp. eauto.
  - intros ok. destruct (ht_expand_spec ok t Hwf) as (b & t1 & Heq & Hcase).
    exists b, t1. split; [done |]. intros ->.
    destruct Hcase as [[? _] | (_ & Hwf1 & Hcap1 & Hlen1 & _ & Hloop)]; [done |].
    split; [apply Hloop; lia |].
    intros k v. pose proof Hwf1 as [[Hsize1 Hc1 _] _ Hlenpop1 _].
    rewrite ht_set_entry_loop_probe.
    rewrite (probe_fuel_population (entries t1) (capacity t1) k _ c);
      try done; try lia; [| by apply home_bound].
    destruct (probe_total (entries t1) (capacity t1) k (home (capacity t1) k))
      as (i & e & ->); try done; try lia; [by apply home_bound | eauto].
  - intros o k v Hv.
    destruct (ht_set_spec o h l t k v Hl Hwf Hv) as (ret & t' & Heq & _). eauto.
  - intros it Ht Hi.
    assert (Hex : ∃ b it', ht_next_loop c t it = Ok (b, it')).
    { destruct (Z.le_gt_cases (capacity t) (_index it)) as [Hge | Hlt].
      - rewrite ht_next_loop_done by done. eauto.
      - destruct (ht_next_loop_spec t c Hsize ltac:(lia) it ltac:(lia) ltac:(lia))
          as [[_ ->] | (j & e & k & _ & _ & _ & _ & ->)]; eauto. }
    destruct Hex as (b & it' & Hloop). exists b, it'. split; [done |].
    unfold ht_next, deref. rewrite Ht, Hl. simpl. fold c. by rewrite Hloop.
Qed.

(** C10 (iterating nothing): [ht_next] on a null cursor, and on a cursor
    whose table is null, such as the one [ht_iterator] makes for a null
    table, returns exhausted whatever the heap holds, so without reading any
    entry store, and leaves the cursor as it is. *)
Theorem next_on_null (h : heap) i k v :
  ht_next h None = Ok (false, None) ∧
  ht_next h (Some {| _table := None; _index := i; it_key := k; it_value := v |})
    = Ok (false, Some {| _table := None; _index := i; it_key := k; it_value := v |}) ∧
  _table (ht_iterator None) = None ∧
  ht_next h (Some (ht_iterator None)) = Ok (false, Some (ht_iterator None)).
Proof. done. Qed.

(** * Further properties of the hash table *)

(** ** Rows of insertions, continued *)

Lemma insert_all_values l kvs :
  ∀ (h h' : heap),
    insert_all NDEBUG l kvs h = Some h' →
    ∀ o k v, (o, k, v) ∈ kvs → v ≠ NULL.
Proof.
  induction kvs as [|[[o0 k0] v0] kvs IH]; intros h h'; simpl.
  - intros _ o k v Hin. by apply elem_of_nil in Hin.
  - destruct (ht_set NDEBUG o0 h (Some l) (Some k0) v0) as [[[stored|] h1]|] eqn:Hset;
      try done.
    intros Hrest o k v [[= -> -> ->] | Hin]%elem_of_cons.
    + destruct (ht_set_cases _ _ _ _ _ _ _ Hset)
        as [(? & _) | (? & ? & ? & _ & _ & Hv & _)]; done.
    + by apply (IH h1 h' Hrest o k v).
Qed.

Lemma last_set_Some kvs k v :
  last_set kvs k = Some v →
  ∃ o k', (o, k', v) ∈ kvs ∧ c_str k' = c_str k.
Proof.
  induction kvs as [|[[o0 k0] v0] kvs IH]; simpl; [done |].
  destruct (last_set kvs k) as [w|].
  - intros [= ->]. destruct IH as (o & k' & Hin & Heq); [done |].
    exists o, k'. split; [by right | done].
  - destruct (decide (c_str k0 = c_str k)); [| done].
    intros [= ->]. exists o0, k0. split; [by left | done].
Qed.

Lemma last_set_is_Some kvs k :
  is_Some (last_set kvs k) ↔ c_str k ∈ keys_set kvs.
Proof.
  unfold keys_set. induction kvs as [|[[o0 k0] v0] kvs IH]; simpl.
  - split; [by intros [? ?] | by intros ?%elem_of_nil].
  - rewrite elem_of_cons, <- IH. destruct (last_set kvs k) as [w|].
    + split; [right; eauto | eauto].
    + destruct (decide (c_str k0 = c_str k)) as [Heq | Hne].
      * split; [by left | eauto].
      * split; [by intros [? ?] |]. intros [? | [? ?]]; congruence.
Qed.

(** Every stored pair is among the contents, under a key equal to it. *)
Lemma contents_complete es k v :
  holds es k v → ∃ k', (k', v) ∈ contents es ∧ c_str k' = c_str k.
Proof.
  intros (i & e & k' & Hi & Hk & Heq & <-). exists k'. split; [| done].
  revert i Hi. induction es as [|e0 es IH]; intros [|i]; simpl; try done.
  - intros [= ->]. rewrite Hk. by left.
  - intros Hi. destruct (key e0); [right |]; by apply (IH i).
Qed.

(** What a fresh table holds after a row of successful insertions. *)
Lemma insert_all_fresh m c (h0 : heap) l h1 kvs h :
  ht_create m c h0 = (Some l, h1) →
  insert_all NDEBUG l kvs h1 = Some h →
  ∃ t, h !! l = Some t ∧ ht_wf t ∧
       ∀ k v, holds (entries t) k v ↔ last_set kvs k = Some v.
Proof.
  intros Hc Hins. apply ht_create_Some in Hc as [_ ->].
  destruct (insert_all_spec l kvs _ _ h (lookup_insert_eq _ _ _) fresh_table_wf Hins)
    as (t & Hl & Hwf & Hholds & _).
  exists t. split_and!; [done | done |].
  intros k v. rewrite Hholds. destruct (last_set kvs k) as [w|].
  - split; [by intros -> | by intros [= ->]].
  - split; [| done]. intros H. by apply holds_replicate in H.
Qed.

(** X1 (lookup after insertions): on a table just created, after any row
    of successful calls of [ht_set], [ht_get] of a key returns the value
    most recently set for it, and returns the null pointer exactly when the
    key was never set. *)
Theorem get_after_inserts m c (h0 : heap) l h1 kvs h k :
  ht_create m c h0 = (Some l, h1) →
  insert_all NDEBUG l kvs h1 = Some h →
  ht_get h (Some l) (Some k) = Ok (default NULL (last_set kvs k)) ∧
  (ht_get h (Some l) (Some k) = Ok NULL ↔ last_set kvs k = None).
Proof.
  intros Hc Hins.
  destruct (insert_all_fresh m c h0 l h1 kvs h Hc Hins) as (t & Hl & Hwf & Hholds).
  assert (Hget : ht_get h (Some l) (Some k) = Ok (default NULL (last_set kvs k))).
  { destruct (last_set kvs k) as [w|] eqn:Hlast; simpl.
    - apply (ht_get_holds h l t); [done | done |]. by apply Hholds.
    - apply (ht_get_absent h l t); [done | done |].
      apply absent_not_holds. intros w Hw. apply Hholds in Hw. congruence. }
  split; [done |]. rewrite Hget.
  destruct (last_set kvs k) as [w|] eqn:Hlast; simpl; [| done].
  split; [| done]. intros [= ->].
  destruct (last_set_Some _ _ _ Hlast) as (o & k' & Hin & _).
  by destruct (insert_all_values l kvs _ _ Hins o k' NULL Hin).
Qed.

(** X2 (count accuracy): on a table just created, after any row of
    successful calls of [ht_set], with keys repeated or not, [ht_length] is
    the number of different keys set. *)
Theorem length_counts_distinct_keys m c (h0 : heap) l h1 kvs h :
  ht_create m c h0 = (Some l, h1) →
  insert_all NDEBUG l kvs h1 = Some h →
  ht_length h (Some l) = Ok (distinct_keys kvs).
Proof.
  intros Hc Hins.
  destruct (insert_all_fresh m c h0 l h1 kvs h Hc Hins) as (t & Hl & Hwf & Hholds).
  unfold ht_length, deref. rewrite Hl. simpl. f_equal.
  rewrite (wf_length _ Hwf), <- contents_length. unfold distinct_keys. f_equal.
  rewrite <- (length_fmap (λ p : string * Z, c_str p.1)).
  apply Permutation_length, NoDup_Permutation.
  - apply contents_keys_NoDup. intros i j e e' k k'.
    apply (wf_distinct (wf_entries _ Hwf)).
  - apply NoDup_remove_dups.
  - intros x. rewrite elem_of_remove_dups, list_elem_of_fmap. split.
    + intros ([k v] & -> & Hin). simpl.
      apply last_set_is_Some. exists v. by apply Hholds, contents_holds.
    + intros Hx. pose proof Hx as ([[o k] v] & -> & _)%list_elem_of_fmap.
      simpl in *. apply last_set_is_Some in Hx as [w Hw].
      apply Hholds, contents_complete in Hw as (k' & Hin & Heq).
      by exists (k', w).
Qed.

(** X3 (creation): [ht_create] either fails, when one of its two
    allocations fails, and leaves the heap as it is, or returns a pointer
    that was not live, to a table of 16 slots and length 0 in which
    [ht_get] finds no key and iteration shows nothing, every other table
    being left as it was. *)
Theorem create_fresh_empty m c (h : heap) p h' :
  ht_create m c h = (p, h') →
  p = None ∧ h' = h ∧ (m = false ∨ c = false)
  ∨ ∃ l t, p = Some l ∧ m = true ∧ c = true ∧
      h !! l = None ∧ h' !! l = Some t ∧
      (∀ l', l' ≠ l → h' !! l' = h !! l') ∧
      capacity t = 16 ∧ ht_length h' (Some l) = Ok 0 ∧
      (∀ k, ht_get h' (Some l) (Some k) = Ok NULL) ∧
      ht_iterate h' l = Ok [].
Proof.
  intros Hc. destruct p as [l|].
  - right. assert (m = true ∧ c = true) as [-> ->].
    { unfold ht_create, calloc in Hc. by destruct m, c. }
    apply ht_create_Some in Hc as [Hfresh ->].
    set (t := {| entries := replicate (Z.to_nat INITIAL_CAPACITY) zero_entry;
                 capacity := INITIAL_CAPACITY; length := 0 |}).
    assert (Hl : <[l := t]> h !! l = Some t) by apply lookup_insert_eq.
    exists l, t. split_and!; try done.
    + intros l' Hne. by rewrite lookup_insert_ne.
    + unfold ht_length, deref. by rewrite Hl.
    + intros k. apply (ht_get_absent _ l t); [done | apply fresh_table_wf |].
      intros i e k' Hi. apply lookup_replicate in Hi as [-> _]. done.
    + by rewrite (ht_iterate_contents _ l t Hl fresh_table_wf).
  - left. unfold ht_create, calloc in Hc. destruct m, c; simpl in Hc;
      try discriminate Hc; injection Hc as <-; eauto.
Qed.

(** X4 (other tables): a call of [ht_set] changes no table but the one it
    is given: every other table is in the heap as before, and [ht_get],
    [ht_length], [ht_next] and the client loop over [ht_next] answer on it
    as they did before the call. *)
Theorem set_leaves_other_tables o (h : heap) table k v r h' l' :
  ht_set NDEBUG o h table k v = Ok (r, h') →
  table ≠ Some l' →
  h' !! l' = h !! l' ∧
  (∀ k', ht_get h' (Some l') k' = ht_get h (Some l') k') ∧
  ht_length h' (Some l') = ht_length h (Some l') ∧
  (∀ c, _table c = Some l' → ht_next h' (Some c) = ht_next h (Some c)) ∧
  ht_iterate h' l' = ht_iterate h l'.
Proof.
  intros Hset Hne.
  assert (Hl' : h' !! l' = h !! l').
  { revert Hset.
    unfold ht_set. destruct (negb NDEBUG && (v =? NULL)); [done |].
    destruct table as [l|]; [| by intros [= _ <-]].
    destruct k as [k|]; [| by intros [= _ <-]].
    destruct (v =? NULL); [by intros [= _ <-] |].
    unfold deref. destruct (h !! l) as [t|] eqn:Hl; [| done]. simpl.
    destruct (if capacity t `div` 2 <=? length t then ht_expand (calloc_ok o) t
              else Ok (true, t)) as [[b t1]|]; [| done].
    simpl. destruct b; simpl.
    - destruct (ht_set_entry _ _ _ _ _ _ _) as [[[ret es'] pl]|]; [| done]. simpl.
      intros [= _ <-]. rewrite !lookup_insert_ne by congruence. done.
    - intros [= _ <-]. rewrite lookup_insert_ne by congruence. done. }
  split_and!.
  - done.
  - intros k'. unfold ht_get, deref. by rewrite Hl'.
  - unfold ht_length, deref. by rewrite Hl'.
  - intros c Hc. by apply (ht_next_other h h' l').
  - unfold ht_iterate, deref. rewrite Hl'.
    destruct (h !! l') as [t'|] eqn:Ht'; [| done]. simpl.
    apply (ht_iterate_loop_other h h' l'); [congruence | done].
Qed.

(** [ht_get] returns on every well-formed table. *)
Lemma ht_get_total (h : heap) l t k :
  h !! l = Some t → ht_wf t → ∃ w, ht_get h (Some l) (Some k) = Ok w.
Proof.
  intros Hl Hwf. destruct (ht_get_same h h l t t k Hl Hl Hwf Hwf) as (w & ? & _);
    [done | by exists w].
Qed.

(** X5 (failed insertion): when [ht_set] returns failure on a live table
    of a reachable heap, [ht_length] of the table and [ht_get] of every key
    answer as before the call, also when the table has grown before the
    copy of the key failed. *)
Theorem failed_set_keeps_contents o (h : heap) l t k v h' :
  reachable NDEBUG h → h !! l = Some t →
  ht_set NDEBUG o h (Some l) k v = Ok (None, h') →
  (∃ n, ht_length h (Some l) = Ok n ∧ ht_length h' (Some l) = Ok n) ∧
  ∀ k2, ∃ w, ht_get h (Some l) (Some k2) = Ok w ∧
             ht_get h' (Some l) (Some k2) = Ok w.
Proof.
  intros Hreach Hl Hset. apply reachable_wf in Hreach.
  pose proof (Hreach l t Hl) as Hwf.
  assert (Hsame : ∀ t', ht_wf t' → length t' = length t →
            (∀ k2 w, holds (entries t') k2 w ↔ holds (entries t) k2 w) →
            (∃ n, ht_length h (Some l) = Ok n ∧
                  ht_length (<[l := t']> h) (Some l) = Ok n) ∧
            ∀ k2, ∃ w, ht_get h (Some l) (Some k2) = Ok w ∧
                       ht_get (<[l := t']> h) (Some l) (Some k2) = Ok w).
  { intros t' Hwf' Hlen Hholds. split.
    - exists (length t). unfold ht_length, deref.
      rewrite Hl, lookup_insert_eq. simpl. by rewrite Hlen.
    - intros k2.
      apply (ht_get_same h _ l t t');
        [done | by rewrite lookup_insert_eq | done | done |].
      intros w. apply Hholds. }
  destruct (ht_set_cases _ _ _ _ _ _ _ Hset)
    as [(_ & -> & _) | (l0 & k' & t0 & [= <-] & -> & Hv & Hl0)].
  - pose proof (Hsame t Hwf eq_refl ltac:(done)) as H0.
    by rewrite (insert_id h l t Hl) in H0.
  - assert (t0 = t) as -> by congruence.
    destruct (ht_set_spec o h l t k' v Hl Hwf Hv) as (ret & t' & Heq & Hwf' & Hcase).
    rewrite Heq in Hset. injection Hset as -> <-.
    destruct Hcase as [[_ ->] | [(_ & _ & Hlen & Hholds) | ((? & ? & _) & _)]];
      [by apply Hsame | by apply Hsame | done].
Qed.

(** X6 (returned key): the key a successful [ht_set] returns compares
    equal to the key given, and [ht_get] of the returned key finds the
    value set. *)
Theorem set_returns_equal_key o (h : heap) table k v stored h' :
  reachable NDEBUG h →
  ht_set NDEBUG o h table (Some k) v = Ok (Some stored, h') →
  strcmp k stored = 0 ∧ ht_get h' table (Some stored) = Ok v.
Proof.
  intros Hreach Hset. apply reachable_wf in Hreach.
  destruct (ht_set_cases _ _ _ _ _ _ _ Hset)
    as [(? & _) | (l & k' & t & -> & [= <-] & Hv & Hl)]; [done |].
  destruct (ht_set_spec o h l t k v Hl (Hreach l t Hl) Hv)
    as (ret & t' & Heq & Hwf' & Hcase).
  rewrite Heq in Hset. injection Hset as -> <-.
  destruct Hcase as [[? _] | [[? _] | ((s & [= <-] & Hs) & _ & Hk & _)]]; try done.
  split; [by apply strcmp_0 |].
  apply (ht_get_holds _ l t'); [by rewrite lookup_insert_eq | done |].
  by apply (holds_same _ k).
Qed.

(** X7 (the mask is a modulo): on every reachable table the capacity is a
    power of two, from 16 up, so the slot where probing starts,
    [hash & (capacity - 1)], is the hash modulo the capacity, as the
    comment in [ht_get] says. *)
Theorem index_is_modulo (h : heap) l t :
  reachable NDEBUG h → h !! l = Some t →
  (∃ n, 4 ≤ n ≤ 63 ∧ capacity t = 2 ^ n) ∧
  ∀ k, home (capacity t) k = hash_key k `mod` capacity t.
Proof.
  intros Hreach Hl. apply reachable_wf in Hreach.
  destruct (Hreach l t Hl) as [[_ Hc _] (n & Hn & Hpow) _ _].
  assert (n < 64).
  { apply (Z.pow_lt_mono_r_iff 2); lia. }
  split; [exists n; split; [lia | done] |].
  intros k. unfold home. rewrite wrap64_small by lia. rewrite Hpow.
  replace (2 ^ n - 1) with (Z.ones n) by (rewrite Z.ones_equiv; lia).
  apply Z.land_ones. lia.
Qed.

Lemma ht_expand_capacity ok t b t1 :
  ht_expand ok t = Ok (b, t1) →
  b = false ∧ t1 = t
  ∨ b = true ∧ capacity t1 = wrap64 (capacity t * 2) ∧ capacity t ≤ capacity t1.
Proof.
  unfold ht_expand.
  destruct (Z.ltb_spec (wrap64 (capacity t * 2)) (capacity t));
    [intros [= <- <-]; by left |].
  destruct (calloc _ _ _); [| intros [= <- <-]; by left].
  destruct (ht_expand_loop _ _ _ _ _ _); [| done]. simpl.
  intros [= <- <-]. right. done.
Qed.

(** X8 (capacity): a call of [ht_set] on a live table of a reachable heap
    leaves the capacity as it is or doubles it, and doubles it only when
    the length had reached half the capacity; the capacity never shrinks. *)
Theorem capacity_only_doubles o (h : heap) l t k v r h' :
  reachable NDEBUG h → h !! l = Some t →
  ht_set NDEBUG o h (Some l) k v = Ok (r, h') →
  ∃ t', h' !! l = Some t' ∧
    (capacity t' = capacity t
     ∨ capacity t' = capacity t * 2 ∧ capacity t `div` 2 ≤ length t).
Proof.
  intros Hreach Hl. apply reachable_wf in Hreach.
  destruct (Hreach l t Hl) as [[_ Hc _] _ _ _].
  unfold ht_set. destruct (negb NDEBUG && (v =? NULL)); [done |].
  destruct k as [k|]; [| intros [= _ <-]; exists t; split; [done | by left]].
  destruct (v =? NULL); [intros [= _ <-]; exists t; split; [done | by left] |].
  unfold deref. rewrite Hl. simpl.
  assert (Hgrow : ∀ b t1,
    (if capacity t `div` 2 <=? length t then ht_expand (calloc_ok o) t
     else Ok (true, t)) = Ok (b, t1) →
    capacity t1 = capacity t
    ∨ capacity t1 = capacity t * 2 ∧ capacity t `div` 2 ≤ length t).
  { intros b t1. destruct (Z.leb_spec (capacity t `div` 2) (length t)) as [Hfull | _].
    - intros [[_ ->] | (_ & Hcap & Hle)]%ht_expand_capacity; [by left |].
      right. split; [| done]. rewrite Hcap in *.
      destruct (Z.lt_ge_cases (capacity t * 2) (2 ^ 64)) as [Hs | Hb].
      + apply wrap64_small. lia.
      + pose proof (wrap64_double (capacity t) Hc Hb). lia.
    - intros [= _ <-]. by left. }
  destruct (if capacity t `div` 2 <=? length t then ht_expand (calloc_ok o) t
            else Ok (true, t)) as [[b t1]|]; [| done].
  specialize (Hgrow b t1 eq_refl). simpl. destruct b; simpl.
  - destruct (ht_set_entry _ _ _ _ _ _ _) as [[[ret es'] pl]|]; [| done]. simpl.
    intros [= _ <-]. eexists. rewrite lookup_insert_eq. split; [done |]. done.
  - intros [= _ <-]. exists t1. rewrite lookup_insert_eq. split; [done |]. done.
Qed.

(** ** Stored values are not null *)

Lemma fresh_table_values :
  values_set {| entries := replicate (Z.to_nat INITIAL_CAPACITY) zero_entry;
                capacity := INITIAL_CAPACITY; length := 0 |}.
Proof. intros k v H. by apply holds_replicate in H. Qed.

Lemma exec_values c (h h' : heap) :
  heap_wf h → (∀ l t, h !! l = Some t → values_set t) →
  exec NDEBUG c h = Ok h' → ∀ l t, h' !! l = Some t → values_set t.
Proof.
  intros Hwf Hvals. destruct c as [m c | o table k v | table]; simpl.
  - intros [= <-] l t. destruct (ht_create m c h) as [[l0|] h1] eqn:Hc.
    + apply ht_create_Some in Hc as [_ ->]. simpl. rewrite lookup_insert.
      case_decide; [intros [= <-]; apply fresh_table_values | apply Hvals].
    + assert (h1 = h) as ->; [| apply Hvals].
      unfold ht_create in Hc. destruct m; [| by injection Hc as <-].
      destruct (calloc c INITIAL_CAPACITY sizeof_ht_entry); [done |].
      by injection Hc as <-.
  - destruct (ht_set NDEBUG o h table k v) as [[ret h1]|] eqn:Hset; [| done].
    simpl. intros [= <-].
    destruct (ht_set_cases _ _ _ _ _ _ _ Hset)
      as [(_ & -> & _) | (l0 & k' & t0 & -> & -> & Hv & Hl0)]; [done |].
    destruct (ht_set_spec o h l0 t0 k' v Hl0 (Hwf l0 t0 Hl0) Hv)
      as (ret' & t' & Heq & Hwf' & Hcase).
    rewrite Heq in Hset. injection Hset as -> <-.
    intros l t. rewrite lookup_insert.
    case_decide; [intros [= <-] | apply Hvals].
    pose proof (Hvals l0 t0 Hl0) as Hv0.
    destruct Hcase as [[_ ->] | [(_ & _ & _ & Hholds) | (_ & _ & Hk & Hothers & _)]].
    + done.
    + intros k2 w Hw. apply (Hv0 k2 w). by apply Hholds.
    + intros k2 w Hw. destruct (decide (c_str k2 = c_str k')) as [Heqk | Hne].
      * assert (w = v) as ->; [| done].
        apply (holds_unique (wf_entries _ Hwf') k2); [done |].
        by apply (holds_same _ k').
      * apply (Hv0 k2 w). by apply Hothers.
  - unfold ht_destroy. destruct table as [l0|]; [| by intros [= <-]].
    unfold deref. destruct (h !! l0); [| done]. simpl.
    destruct (_ <? _); [done |]. intros [= <-] l t Hl.
    apply lookup_delete_Some in Hl as [_ Hl]. by apply (Hvals l).
Qed.

Lemma run_values cs (h h' : heap) :
  heap_wf h → (∀ l t, h !! l = Some t → values_set t) →
  run NDEBUG cs h = Ok h' → ∀ l t, h' !! l = Some t → values_set t.
Proof.
  revert h. induction cs as [|c cs IH]; intros h Hwf Hvals; simpl.
  - by intros [= <-].
  - destruct (exec NDEBUG c h) as [h1|] eqn:He; [| done]. simpl.
    apply IH; [by apply (exec_wf c h) | by apply (exec_values c h)].
Qed.

Lemma reachable_values (h : heap) l t :
  reachable NDEBUG h → h !! l = Some t → values_set t.
Proof.
  intros [cs Hrun]. apply (run_values cs ∅ h); [| | done];
    intros l' t'; by rewrite lookup_empty.
Qed.

(** On a reachable table [ht_get] returns the null pointer exactly for the
    keys that are not stored. *)
Lemma ht_get_NULL (h : heap) l t k :
  reachable NDEBUG h → h !! l = Some t →
  ht_get h (Some l) (Some k) = Ok NULL ↔ absent (entries t) k.
Proof.
  intros Hreach Hl. pose proof (reachable_values h l t Hreach Hl) as Hvals.
  apply reachable_wf in Hreach. pose proof (Hreach l t Hl) as Hwf.
  destruct (holds_or_absent (entries t) k) as [[w Hw] | Ha].
  - rewrite (ht_get_holds h l t k w) by done. split.
    + intros [= ->]. by destruct (Hvals k NULL).
    + intros Ha. by apply absent_not_holds in Hw.
  - by rewrite (ht_get_absent h l t k).
Qed.

(** X11 (what the cursor shows): on a reachable heap, when [ht_next]
    returns true the cursor has moved forward and shows a key and the value
    [ht_get] returns for that key, which is not null. *)
Theorem next_shows_stored_pair (h : heap) c l c' :
  reachable NDEBUG h → _table c = Some l → 0 ≤ _index c →
  ht_next h (Some c) = Ok (true, Some c') →
  ∃ k, it_key c' = Some k ∧
       ht_get h (Some l) (Some k) = Ok (it_value c') ∧ it_value c' ≠ NULL ∧
       _index c < _index c' ∧ _table c' = Some l.
Proof.
  intros Hreach Ht Hi. unfold ht_next, deref. rewrite Ht.
  destruct (h !! l) as [t|] eqn:Hl; [| done]. simpl.
  pose proof (reachable_values h l t Hreach Hl) as Hvals.
  apply reachable_wf in Hreach. pose proof (Hreach l t Hl) as Hwf.
  pose proof Hwf as [[Hlen Hc _] _ _ _].
  destruct (Z.le_gt_cases (capacity t) (_index c)) as [Hge | Hlt].
  { by rewrite ht_next_loop_done by done. }
  destruct (ht_next_loop_spec t (Z.to_nat (capacity t)) Hlen ltac:(lia) c
              ltac:(lia) ltac:(lia))
    as [[_ ->] | (j & e & k & Hj & He & Hk & _ & ->)]; [done |].
  simpl. intros [= <-]. simpl. exists k.
  assert (Hholds : holds (entries t) k (value e)) by (by exists (Z.to_nat j), e, k).
  split_and!; [done | | | lia | done].
  - by apply (ht_get_holds h l t).
  - by apply (Hvals k).
Qed.

(** X12 (iteration, length and lookup agree): on every live table of a
    reachable heap, iterating to exhaustion shows as many pairs as
    [ht_length] says, no key twice; [ht_get] of a key shown returns the
    value shown with it, every key [ht_get] finds is shown, and [ht_get]
    returns the null pointer exactly for the keys that are not shown. *)
Theorem iteration_agrees (h : heap) l t :
  reachable NDEBUG h → h !! l = Some t →
  ∃ pairs,
    ht_iterate h l = Ok (shown <$> pairs) ∧
    ht_length h (Some l) = Ok (Z.of_nat (List.length pairs)) ∧
    NoDup ((λ p, c_str p.1) <$> pairs) ∧
    (∀ k v, (k, v) ∈ pairs → ht_get h (Some l) (Some k) = Ok v) ∧
    (∀ k v, v ≠ NULL → ht_get h (Some l) (Some k) = Ok v →
            ∃ k', strcmp k k' = 0 ∧ (k', v) ∈ pairs) ∧
    (∀ k, ht_get h (Some l) (Some k) = Ok NULL ↔
          ∀ k' v, (k', v) ∈ pairs → strcmp k k' ≠ 0).
Proof.
  intros Hreach Hl. pose proof (ht_get_NULL h l t) as Hnull.
  pose proof (reachable_wf h Hreach l t Hl) as Hwf.
  exists (contents (entries t)). split_and!.
  - by apply ht_iterate_contents.
  - unfold ht_length, deref. rewrite Hl. simpl.
    by rewrite contents_length, (wf_length _ Hwf).
  - apply contents_keys_NoDup. intros i j e e' k k'.
    apply (wf_distinct (wf_entries _ Hwf)).
  - intros k v Hin. apply (ht_get_holds h l t); [done | done |].
    by apply contents_holds.
  - intros k v Hv Hget.
    destruct (holds_or_absent (entries t) k) as [[w Hw] | Ha].
    + rewrite (ht_get_holds h l t k w) in Hget by done. injection Hget as ->.
      destruct (contents_complete _ _ _ Hw) as (k' & Hin & Heq).
      exists k'. split; [by apply strcmp_0 | done].
    + rewrite (ht_get_absent h l t k) in Hget by done. congruence.
  - intros k. rewrite (Hnull k Hreach Hl). split.
    + intros Ha k' v Hin Heq%strcmp_0.
      destruct (contents_holds _ _ _ Hin) as (i & e & k0 & Hi & Hk0 & Heq0 & _).
      apply (Ha i e k0 Hi Hk0). congruence.
    + intros Hno. apply absent_not_holds. intros w Hw.
      destruct (contents_complete _ _ _ Hw) as (k' & Hin & Heq).
      apply (Hno k' w Hin). by apply strcmp_0.
Qed.

Lemma run_app cs1 cs2 (h h1 h2 : heap) :
  run NDEBUG cs1 h = Ok h1 → run NDEBUG cs2 h1 = Ok h2 →
  run NDEBUG (cs1 ++ cs2) h = Ok h2.
Proof.
  revert h. induction cs1 as [|c cs1 IH]; intros h; simpl.
  - by intros [= ->].
  - destruct (exec NDEBUG c h) as [h'|]; [| done]. simpl. apply IH.
Qed.

(** X13 (destruction): on a reachable heap [ht_destroy] of a live table
    returns, that table is gone and every other table is left as it was;
    the heap that is left is reachable again.  [ht_destroy] of a null
    pointer does nothing. *)
Theorem destroy_removes_only_its_table (h : heap) l t :
  reachable NDEBUG h → h !! l = Some t →
  ∃ h', ht_destroy h (Some l) = Ok h' ∧
        h' !! l = None ∧ (∀ l', l' ≠ l → h' !! l' = h !! l') ∧
        reachable NDEBUG h' ∧
        ht_destroy h' None = Ok h'.
Proof.
  intros Hreach Hl. pose proof (reachable_wf h Hreach l t Hl) as [[Hlen _ _] _ _ _].
  assert (Hd : ht_destroy h (Some l) = Ok (delete l h)).
  { unfold ht_destroy, deref. rewrite Hl. simpl.
    by destruct (Z.ltb_spec (Z.of_nat (List.length (entries t))) (capacity t));
      [lia |]. }
  exists (delete l h). split_and!; [done | | | | done].
  - apply lookup_delete_eq.
  - intros l' Hne. by apply lookup_delete_ne.
  - destruct Hreach as [cs Hrun]. exists (cs ++ [Destroy (Some l)]).
    apply (run_app cs _ ∅ h); [done |]. cbn [run exec]. by rewrite Hd.
Qed.

(** X15 (how the length moves): a successful [ht_set] on a reachable heap
    adds one to [ht_length] when [ht_get] did not find the key before the
    call, and leaves [ht_length] as it was when [ht_get] found it. *)
Theorem length_step o (h : heap) table k v stored h' :
  reachable NDEBUG h →
  ht_set NDEBUG o h table k v = Ok (Some stored, h') →
  ∃ w n, ht_get h table k = Ok w ∧ ht_length h table = Ok n ∧
         ht_length h' table = Ok (if w =? NULL then n + 1 else n).
Proof.
  intros Hreach Hset.
  destruct (ht_set_cases _ _ _ _ _ _ _ Hset)
    as [(? & _) | (l & k' & t & -> & -> & Hv & Hl)]; [done |].
  pose proof (reachable_values h l t Hreach Hl) as Hvals.
  pose proof (reachable_wf h Hreach l t Hl) as Hwf.
  destruct (ht_set_spec o h l t k' v Hl Hwf Hv) as (ret & t' & Heq & Hwf' & Hcase).
  rewrite Heq in Hset. injection Hset as -> <-.
  destruct Hcase as [[? _] | [[? _] | (_ & _ & _ & _ & Hlen)]]; try done.
  assert (Hn : ht_length h (Some l) = Ok (length t))
    by (unfold ht_length, deref; by rewrite Hl).
  assert (Hn' : ht_length (<[l := t']> h) (Some l) = Ok (length t'))
    by (unfold ht_length, deref; by rewrite lookup_insert_eq).
  rewrite Hn, Hn'.
  destruct Hlen as [[[w Hw] ->] | [Ha ->]].
  - exists w, (length t). rewrite (ht_get_holds h l t k' w) by done.
    split_and!; [done | done |].
    destruct (Z.eqb_spec w NULL) as [-> |]; [by destruct (Hvals k' NULL) | done].
  - exists NULL, (length t). by rewrite (ht_get_absent h l t k').
Qed.

(** X18 (insertions of different keys commute): on a reachable heap, two
    successful calls of [ht_set] with keys that [strcmp] tells apart leave
    the same length and the same answer of [ht_get] for every key,
    whichever call comes first. *)
Theorem sets_of_different_keys_commute o1 o2 o3 o4 (h : heap) l k1 k2 v1 v2
    s1 s2 s3 s4 h1 h12 h2 h21 :
  reachable NDEBUG h → strcmp k1 k2 ≠ 0 →
  ht_set NDEBUG o1 h (Some l) (Some k1) v1 = Ok (Some s1, h1) →
  ht_set NDEBUG o2 h1 (Some l) (Some k2) v2 = Ok (Some s2, h12) →
  ht_set NDEBUG o3 h (Some l) (Some k2) v2 = Ok (Some s3, h2) →
  ht_set NDEBUG o4 h2 (Some l) (Some k1) v1 = Ok (Some s4, h21) →
  (∃ n, ht_length h12 (Some l) = Ok n ∧ ht_length h21 (Some l) = Ok n) ∧
  ∀ k, ∃ w, ht_get h12 (Some l) (Some k) = Ok w ∧
            ht_get h21 (Some l) (Some k) = Ok w.
Proof.
  intros Hreach Hne Hs1 Hs12 Hs2 Hs21. rewrite strcmp_0 in Hne.
  apply reachable_wf in Hreach.
  assert (Hstep : ∀ o (h h' : heap) k v s,
    heap_wf h → ht_set NDEBUG o h (Some l) (Some k) v = Ok (Some s, h') →
    ∃ t t', h !! l = Some t ∧ h' !! l = Some t' ∧ heap_wf h' ∧
      holds (entries t') k v ∧
      (∀ k2 w, c_str k2 ≠ c_str k →
               holds (entries t') k2 w ↔ holds (entries t) k2 w) ∧
      ((∃ w, holds (entries t) k w) ∧ length t' = length t
       ∨ absent (entries t) k ∧ length t' = length t + 1)).
  { intros o h0 h' k v s Hwf0 Hset.
    pose proof (ht_set_wf _ _ _ _ _ _ _ Hwf0 Hset) as Hwf'.
    destruct (ht_set_cases _ _ _ _ _ _ _ Hset)
      as [(? & _) | (l0 & k' & t & [= <-] & [= <-] & Hv & Hl)]; [done |].
    destruct (ht_set_spec o h0 l t k v Hl (Hwf0 l t Hl) Hv)
      as (ret & t' & Heq & _ & Hcase).
    rewrite Heq in Hset. injection Hset as -> <-.
    destruct Hcase as [[? _] | [[? _] | (_ & _ & Hk & Hothers & Hlen)]]; try done.
    exists t, t'. rewrite lookup_insert_eq. by split_and!. }
  destruct (Hstep _ _ _ _ _ _ Hreach Hs1)
    as (t & t1 & Hl & Hl1 & Hwf1 & Hk1 & Ho1 & Hlen1).
  destruct (Hstep _ _ _ _ _ _ Hwf1 Hs12)
    as (t1' & t12 & Hl1' & Hl12 & Hwf12 & Hk12 & Ho12 & Hlen12).
  destruct (Hstep _ _ _ _ _ _ Hreach Hs2)
    as (t' & t2 & Hl' & Hl2 & Hwf2 & Hk2 & Ho2 & Hlen2).
  destruct (Hstep _ _ _ _ _ _ Hwf2 Hs21)
    as (t2' & t21 & Hl2' & Hl21 & Hwf21 & Hk21 & Ho21 & Hlen21).
  assert (t1' = t1) as -> by congruence. assert (t' = t) as -> by congruence.
  assert (t2' = t2) as -> by congruence.
  assert (Hne' : c_str k2 ≠ c_str k1) by congruence.
  assert (Hp1 : (∃ w, holds (entries t2) k1 w) ↔ (∃ w, holds (entries t) k1 w)).
  { split; intros [w Hw]; exists w; by apply (Ho2 k1 w). }
  assert (Hp2 : (∃ w, holds (entries t1) k2 w) ↔ (∃ w, holds (entries t) k2 w)).
  { split; intros [w Hw]; exists w; by apply (Ho1 k2 w). }
  assert (Ha1 : absent (entries t2) k1 ↔ absent (entries t) k1).
  { rewrite !absent_not_holds. split; intros Ha w Hw; apply (Ha w);
      by apply (Ho2 k1 w). }
  assert (Ha2 : absent (entries t1) k2 ↔ absent (entries t) k2).
  { rewrite !absent_not_holds. split; intros Ha w Hw; apply (Ha w);
      by apply (Ho1 k2 w). }
  assert (Hclash : ∀ k, (∃ w, holds (entries t) k w) → absent (entries t) k → False).
  { intros k [w Hw] Ha. by apply absent_not_holds in Hw. }
  split.
  - unfold ht_length, deref. rewrite Hl12, Hl21. simpl.
    exists (length t12). split; [done |]. f_equal.
    rewrite Hp2, Ha2 in Hlen12. rewrite Hp1, Ha1 in Hlen21.
    destruct Hlen1 as [[? ?] | [? ?]], Hlen12 as [[? ?] | [? ?]],
      Hlen2 as [[? ?] | [? ?]], Hlen21 as [[? ?] | [? ?]];
      try lia; exfalso; eauto.
  - intros k.
    destruct (ht_get_same h12 h21 l t12 t21 k Hl12 Hl21 (Hwf12 l t12 Hl12)
                (Hwf21 l t21 Hl21)) as (w & ? & ?); [| by exists w].
    intros w.
    assert (Hval : ∀ h0 t0 k0 v0,
              heap_wf h0 → h0 !! l = Some t0 → c_str k0 = c_str k →
              holds (entries t0) k0 v0 → holds (entries t0) k w ↔ w = v0).
    { intros h0 t0 k0 v0 Hwf0 Hl0 Hk0 Hh0. split.
      - intros Hw. apply (holds_unique (wf_entries _ (Hwf0 l t0 Hl0)) k); [done |].
        by apply (holds_same _ k0).
      - intros ->. by apply (holds_same _ k0). }
    destruct (decide (c_str k = c_str k2)) as [E2 | N2];
      [| destruct (decide (c_str k = c_str k1)) as [E1 | N1]].
    + rewrite (Ho21 k w) by congruence.
      rewrite (Hval h2 t2 k2 v2), (Hval h12 t12 k2 v2); done.
    + rewrite (Ho12 k w) by done.
      rewrite (Hval h21 t21 k1 v1), (Hval h1 t1 k1 v1); done.
    + by rewrite (Ho12 k w), (Ho1 k w), (Ho21 k w), (Ho2 k w).
Qed.

End Proofs.

(** * The properties on sample programs *)

Lemma heap_a_reachable : reachable false heap_a.
Proof. exists prog_a. vm_compute. reflexivity. Defined.

Lemma heap_8_reachable : reachable false heap_8.
Proof. exists prog_8. vm_compute. reflexivity. Defined.

Lemma heap_a_set_b :
  ht_set false all_ok heap_a (Some table1) (Some "b"%string) 2
  = Ok (Some "b"%string, heap_ab).
Proof. vm_compute. reflexivity. Defined.

Lemma heap_8_table : heap_8 !! table1 = Some (table_at heap_8 table1).
Proof. vm_compute. reflexivity. Defined.

(** C1 on the table holding ["a"]: ["b"] is set to 2 and read back. *)
Lemma set_get_roundtrip_witness :
  reachable false heap_a ∧
  ht_set false all_ok heap_a (Some table1) (Some "b"%string) 2
    = Ok (Some "b"%string, heap_ab) ∧
  ht_get heap_ab (Some table1) (Some "b"%string) = Ok 2.
Proof.
  split; [exact heap_a_reachable | split; [exact heap_a_set_b |]].
  exact (set_get_roundtrip false all_ok _ _ _ _ _ _ heap_a_reachable heap_a_set_b).
Defined.

Lemma heap_8_full :
  capacity (table_at heap_8 table1) `div` 2 ≤ length (table_at heap_8 table1).
Proof. vm_compute. discriminate. Defined.

Lemma heap_8_set_k9 :
  ht_set false all_ok heap_8 (Some table1) (Some "k9"%string) 7
  = Ok (Some "k9"%string, heap_9).
Proof. vm_compute. reflexivity. Defined.

(** C2 on the table filled with eight keys: the insertion of ["k9"] finds
    growth due, succeeds and leaves the table with twice the capacity, every
    other key mapped as before. *)
Lemma growth_preserves_data_witness :
  reachable false heap_8 ∧
  heap_8 !! table1 = Some (table_at heap_8 table1) ∧
  capacity (table_at heap_8 table1) `div` 2 ≤ length (table_at heap_8 table1) ∧
  ht_set false all_ok heap_8 (Some table1) (Some "k9"%string) 7
    = Ok (Some "k9"%string, heap_9) ∧
  ∃ t', heap_9 !! table1 = Some t' ∧
        capacity t' = capacity (table_at heap_8 table1) * 2 ∧
    ∀ k2, c_str k2 ≠ c_str "k9" →
          ∃ w, ht_get heap_8 (Some table1) (Some k2) = Ok w ∧
               ht_get heap_9 (Some table1) (Some k2) = Ok w.
Proof.
  split; [exact heap_8_reachable | split; [exact heap_8_table |]].
  split; [exact heap_8_full | split; [exact heap_8_set_k9 |]].
  exact (proj1 (proj2 (growth_preserves_data false all_ok heap_8 table1 _
                         heap_8_reachable heap_8_table))
           "k9"%string 7 "k9"%string heap_9 heap_8_full heap_8_set_k9).
Defined.

(** C3 on the table holding ["a"], after ["b"] is set. *)
Lemma load_factor_bound_witness :
  reachable false heap_a ∧
  ht_set false all_ok heap_a (Some table1) (Some "b"%string) 2
    = Ok (Some "b"%string, heap_ab) ∧
  ∃ l t', Some table1 = Some l ∧ heap_ab !! l = Some t' ∧
          ht_length heap_ab (Some table1) = Ok (length t') ∧
          length t' * 2 ≤ capacity t'.
Proof.
  split; [exact heap_a_reachable | split; [exact heap_a_set_b |]].
  exact (load_factor_bound false all_ok _ _ _ _ _ _ heap_a_reachable heap_a_set_b).
Defined.

Lemma heap_ab_set_b :
  ht_set false all_ok heap_ab (Some table1) (Some "b"%string) 3
  = Ok (Some "b"%string, heap_ab').
Proof. vm_compute. reflexivity. Defined.

(** C4 on the table holding ["a"]: ["b"] is set to 2, then to 3. *)
Lemma update_semantics_witness :
  reachable false heap_a ∧
  ht_set false all_ok heap_a (Some table1) (Some "b"%string) 2
    = Ok (Some "b"%string, heap_ab) ∧
  ht_set false all_ok heap_ab (Some table1) (Some "b"%string) 3
    = Ok (Some "b"%string, heap_ab') ∧
  (∃ n, ht_length heap_ab (Some table1) = Ok n ∧
        ht_length heap_ab' (Some table1) = Ok n) ∧
  ht_get heap_ab' (Some table1) (Some "b"%string) = Ok 3.
Proof.
  split; [exact heap_a_reachable |].
  split; [exact heap_a_set_b |]. split; [exact heap_ab_set_b |].
  exact (update_semantics false all_ok all_ok _ _ _ _ _ _ _ _ _
           heap_a_reachable heap_a_set_b heap_ab_set_b).
Defined.

(** C4 needs both calls to succeed.  On a fresh table the first [ht_set]
    of ["x"] cannot copy the key and fails, and the second inserts it: the
    length goes from 0 to 1.  On the table filled with eight keys the
    second [ht_set] of ["k8"] cannot allocate the larger store and fails:
    [ht_get] still returns the first value. *)
Lemma update_semantics_counterexample :
  (ht_set false no_strdup heap_empty (Some table1) (Some "x"%string) 1
     = Ok (None, heap_empty) ∧
   ht_length heap_empty (Some table1) = Ok 0 ∧
   ht_length
     (heap_of (ht_set false all_ok heap_empty (Some table1) (Some "x"%string) 2))
     (Some table1) = Ok 1) ∧
  (ht_set false all_ok (heap_after (removelast prog_8)) (Some table1)
     (Some "k8"%string) 7 = Ok (Some "k8"%string, heap_8) ∧
   ht_set false no_calloc heap_8 (Some table1) (Some "k8"%string) 9
     = Ok (None, heap_8) ∧
   ht_get heap_8 (Some table1) (Some "k8"%string) = Ok 7).
Proof. vm_compute. repeat split; reflexivity. Qed.

(** C5 on the table filled with eight keys, when [calloc] fails. *)
Lemma growth_failure_leaves_table_witness :
  heap_8 !! table1 = Some (table_at heap_8 table1) ∧
  7 ≠ NULL ∧
  capacity (table_at heap_8 table1) `div` 2 ≤ length (table_at heap_8 table1) ∧
  ht_expand (calloc_ok no_calloc) (table_at heap_8 table1)
    = Ok (false, table_at heap_8 table1) ∧
  ht_set false no_calloc heap_8 (Some table1) (Some "k9"%string) 7
    = Ok (None, heap_8).
Proof.
  assert (Hv : 7 ≠ NULL) by done.
  assert (Hfull : capacity (table_at heap_8 table1) `div` 2
                  ≤ length (table_at heap_8 table1)) by (by vm_compute).
  split; [exact heap_8_table | split; [exact Hv | split; [exact Hfull |]]].
  apply (proj1 (growth_failure_leaves_table false no_calloc heap_8 table1 _
                  "k9"%string 7 heap_8_table Hv Hfull)).
  right. vm_compute. reflexivity.
Defined.

(** C6 on a call of [ht_set] with a null table. *)
Lemma null_arguments_witness :
  (@None loc = None ∨ Some "a"%string = None ∨ 5 = NULL) ∧
  ht_set false all_ok heap_a None (Some "a"%string) 5 = Ok (None, heap_a).
Proof.
  assert (H : @None loc = None ∨ Some "a"%string = None ∨ 5 = NULL) by (by left).
  split; [exact H |].
  apply (proj1 (null_arguments false all_ok heap_a None (Some "a"%string) 5 H)).
  by right.
Defined.

(** C6 in a build with assertions: [ht_set] with a null value does not
    return failure, it stops at the [assert]. *)
Lemma null_arguments_counterexample :
  ht_set false all_ok heap_a (Some table1) (Some "a"%string) NULL
    = Err AssertionFailed ∧
  ht_set false all_ok heap_a (Some table1) (Some "a"%string) NULL
    ≠ Ok (None, heap_a).
Proof. split; [reflexivity | discriminate]. Qed.

Lemma heap_empty_created : ht_create true true ∅ = (Some table1, heap_empty).
Proof. vm_compute. reflexivity. Defined.

Lemma heap_abc_inserted : insert_all false table1 abc heap_empty = Some heap_abc.
Proof. vm_compute. reflexivity. Defined.

Lemma abc_NoDup : NoDup (keys_set abc).
Proof. refine (bool_decide_unpack _ _). vm_compute. exact I. Defined.

(** C7 on a fresh table after ["a"], ["b"] and ["c"] are inserted. *)
Lemma iteration_complete_witness :
  ht_create true true ∅ = (Some table1, heap_empty) ∧
  insert_all false table1 abc heap_empty = Some heap_abc ∧
  NoDup (keys_set abc) ∧
  ∃ pairs,
    ht_iterate heap_abc table1 = Ok (shown <$> pairs) ∧
    List.length pairs = List.length abc ∧
    NoDup ((λ p, c_str p.1) <$> pairs) ∧
    ∀ k v, (k, v) ∈ pairs → last_set abc k = Some v.
Proof.
  split; [exact heap_empty_created |].
  split; [exact heap_abc_inserted | split; [exact abc_NoDup |]].
  exact (iteration_complete false true true ∅ table1 heap_empty abc heap_abc
           heap_empty_created heap_abc_inserted abc_NoDup).
Defined.

Lemma heap_empty_exhausted :
  ht_next heap_empty (Some (ht_iterator (Some table1)))
  = Ok (false, Some {| _table := Some table1; _index := 16;
                       it_key := None; it_value := NULL |}).
Proof. vm_compute. reflexivity. Defined.

(** C8 on a cursor over a fresh table, which is exhausted at once. *)
Lemma exhausted_is_terminal_witness :
  ht_next heap_empty (Some (ht_iterator (Some table1)))
    = Ok (false, Some {| _table := Some table1; _index := 16;
                         it_key := None; it_value := NULL |}) ∧
  ∀ n, ht_next_times n heap_empty
         (Some {| _table := Some table1; _index := 16;
                  it_key := None; it_value := NULL |})
       = Ok (false, Some {| _table := Some table1; _index := 16;
                            it_key := None; it_value := NULL |}).
Proof.
  split; [exact heap_empty_exhausted |].
  exact (proj1 (exhausted_is_terminal heap_empty _ _ heap_empty_exhausted)).
Defined.

Lemma heap_a_table : heap_a !! table1 = Some (table_at heap_a table1).
Proof. vm_compute. reflexivity. Defined.

(** C9 on the table holding ["a"]: [ht_get] of any key returns. *)
Lemma operations_terminate_witness :
  reachable false heap_a ∧
  heap_a !! table1 = Some (table_at heap_a table1) ∧
  ∀ k, ∃ v,
    ht_get_loop (Z.to_nat (capacity (table_at heap_a table1)))
      (entries (table_at heap_a table1)) (capacity (table_at heap_a table1)) k
      (home (capacity (table_at heap_a table1)) k) = Ok v ∧
    ht_get heap_a (Some table1) (Some k) = Ok v.
Proof.
  split; [exact heap_a_reachable | split; [exact heap_a_table |]].
  exact (proj1 (operations_terminate false heap_a table1 _
                  heap_a_reachable heap_a_table)).
Defined.

(** C9 read as a bound on a whole operation fails when [ht_set] grows the
    table.  Eight keys with the same home fill a table of capacity 16 to the
    growth threshold; setting a ninth key with that home succeeds and
    executes 52 loop bodies: 16 of the rehashing loop, 0 + 1 + ... + 7 = 28
    of its probes into the new store, and 8 of the probe that follows.  In
    terms of fuel: the rehashing loop does not return with fewer than 16
    executions of its body, one of its probes not with fewer than 7, and the
    probe that follows growth not with fewer than 8. *)
Lemma operations_terminate_counterexample :
  (Z.to_nat (capacity (table_at heap_c8 table1))
   < ht_set_bodies all_ok heap_c8 table1 "k192")%nat ∧
  reachable false heap_c8 ∧
  heap_c8 !! table1 = Some (table_at heap_c8 table1) ∧
  capacity (table_at heap_c8 table1) = 16 ∧
  ht_set false all_ok heap_c8 (Some table1) (Some "k192"%string) 7
    = Ok (Some "k192"%string, heap_c9) ∧
  ht_expand_bodies true (table_at heap_c8 table1) = 44%nat ∧
  ht_set_bodies all_ok heap_c8 table1 "k192" = 52%nat ∧
  ht_expand_loop 15 32 (table_at heap_c8 table1) 0 (replicate 32 zero_entry) 32
    = Err OutOfFuel ∧
  ht_expand_loop 16 6 (table_at heap_c8 table1) 0 (replicate 32 zero_entry) 32
    = Err OutOfFuel ∧
  ht_expand true (table_at heap_c8 table1)
    = Ok (true, table_at heap_c8_grown table1) ∧
  ht_set_entry_loop 7 (entries (table_at heap_c8_grown table1)) 32 "k192" 7
    (home 32 "k192") = Err OutOfFuel ∧
  ht_set_entry_loop 8 (entries (table_at heap_c8_grown table1)) 32 "k192" 7
    (home 32 "k192") = Ok (Fell 22).
Proof.
  split; [vm_compute; lia |].
  split; [exists prog_c8; vm_compute; reflexivity |].
  vm_compute. repeat split; reflexivity.
Qed.

(** * The further properties on sample programs *)

Lemma heap_aba_inserted : insert_all false table1 aba heap_empty = Some heap_aba.
Proof. vm_compute. reflexivity. Defined.

(** X1 after ["a"], ["b"] and ["a"] again: ["a"] has its second value. *)
Lemma get_after_inserts_witness :
  ht_create true true ∅ = (Some table1, heap_empty) ∧
  insert_all false table1 aba heap_empty = Some heap_aba ∧
  ht_get heap_aba (Some table1) (Some "a"%string)
    = Ok (default NULL (last_set aba "a")) ∧
  (ht_get heap_aba (Some table1) (Some "a"%string) = Ok NULL
   ↔ last_set aba "a" = None).
Proof.
  split; [exact heap_empty_created | split; [exact heap_aba_inserted |]].
  exact (get_after_inserts false true true ∅ table1 heap_empty aba heap_aba
           "a"%string heap_empty_created heap_aba_inserted).
Defined.

(** X2 after ["a"], ["b"] and ["a"] again: two keys. *)
Lemma length_counts_distinct_keys_witness :
  ht_create true true ∅ = (Some table1, heap_empty) ∧
  insert_all false table1 aba heap_empty = Some heap_aba ∧
  ht_length heap_aba (Some table1) = Ok (distinct_keys aba).
Proof.
  split; [exact heap_empty_created | split; [exact heap_aba_inserted |]].
  exact (length_counts_distinct_keys false true true ∅ table1 heap_empty aba
           heap_aba heap_empty_created heap_aba_inserted).
Defined.

(** X3 on the first table of a program. *)
Lemma create_fresh_empty_witness :
  ht_create true true ∅ = (Some table1, heap_empty) ∧
  ∃ l t, Some table1 = Some l ∧ true = true ∧ true = true ∧
    (∅ : heap) !! l = None ∧ heap_empty !! l = Some t ∧
    (∀ l', l' ≠ l → heap_empty !! l' = (∅ : heap) !! l') ∧
    capacity t = 16 ∧ ht_length heap_empty (Some l) = Ok 0 ∧
    (∀ k, ht_get heap_empty (Some l) (Some k) = Ok NULL) ∧
    ht_iterate heap_empty l = Ok [].
Proof.
  split; [exact heap_empty_created |].
  destruct (create_fresh_empty true true ∅ (Some table1) heap_empty
              heap_empty_created) as [(H & _) | H]; [discriminate H | exact H].
Defined.

Lemma table1_not_2 : Some table1 ≠ Some table2.
Proof. discriminate. Defined.

Lemma heap_two_set_a :
  ht_set false all_ok heap_two (Some table1) (Some "a"%string) 1
  = Ok (Some "a"%string, heap_two_a).
Proof. vm_compute. reflexivity. Defined.

Lemma heap_two_table2 : heap_two !! table2 = Some (table_at heap_two table2).
Proof. vm_compute. reflexivity. Defined.

(** X4 on a heap of two tables, the second holding ["z"]: setting ["a"] in
    the first leaves the second as it was. *)
Lemma set_leaves_other_tables_witness :
  ht_set false all_ok heap_two (Some table1) (Some "a"%string) 1
    = Ok (Some "a"%string, heap_two_a) ∧
  Some table1 ≠ Some table2 ∧
  heap_two !! table2 = Some (table_at heap_two table2) ∧
  heap_two_a !! table2 = heap_two !! table2 ∧
  (∀ k', ht_get heap_two_a (Some table2) k' = ht_get heap_two (Some table2) k') ∧
  ht_length heap_two_a (Some table2) = ht_length heap_two (Some table2) ∧
  (∀ c, _table c = Some table2 →
        ht_next heap_two_a (Some c) = ht_next heap_two (Some c)) ∧
  ht_iterate heap_two_a table2 = ht_iterate heap_two table2.
Proof.
  split; [exact heap_two_set_a | split; [exact table1_not_2 |]].
  split; [exact heap_two_table2 |].
  exact (set_leaves_other_tables false all_ok _ _ _ _ _ _ _
           heap_two_set_a table1_not_2).
Defined.

(** The second table is live and holds ["z"] before and after the call. *)
Example heap_two_second_table :
  heap_two !! table2 = Some (table_at heap_two table2) ∧
  heap_two_a !! table2 = Some (table_at heap_two table2) ∧
  heap_two_a !! table1 ≠ heap_two !! table1 ∧
  ht_get heap_two (Some table2) (Some "z"%string) = Ok 9 ∧
  ht_get heap_two_a (Some table2) (Some "z"%string) = Ok 9 ∧
  ht_length heap_two_a (Some table2) = Ok 1 ∧
  ht_iterate heap_two_a table2 = Ok [(Some "z"%string, 9)].
Proof. vm_compute. repeat split; try reflexivity. discriminate. Qed.

Lemma heap_8_set_fails :
  ht_set false no_strdup heap_8 (Some table1) (Some "k9"%string) 7
  = Ok (None, heap_8_grown).
Proof. vm_compute. reflexivity. Defined.

(** The failed call has grown the table all the same. *)
Example heap_8_grown_capacity :
  capacity (table_at heap_8 table1) = 16 ∧
  capacity (table_at heap_8_grown table1) = 32.
Proof. vm_compute. split; reflexivity. Qed.

(** X5 on the table filled with eight keys, when the ninth key cannot be
    copied after the table has grown. *)
Lemma failed_set_keeps_contents_witness :
  reachable false heap_8 ∧
  heap_8 !! table1 = Some (table_at heap_8 table1) ∧
  ht_set false no_strdup heap_8 (Some table1) (Some "k9"%string) 7
    = Ok (None, heap_8_grown) ∧
  (∃ n, ht_length heap_8 (Some table1) = Ok n ∧
        ht_length heap_8_grown (Some table1) = Ok n) ∧
  ∀ k2, ∃ w, ht_get heap_8 (Some table1) (Some k2) = Ok w ∧
             ht_get heap_8_grown (Some table1) (Some k2) = Ok w.
Proof.
  split; [exact heap_8_reachable |].
  split; [exact heap_8_table | split; [exact heap_8_set_fails |]].
  exact (failed_set_keeps_contents false no_strdup heap_8 table1 _ _ _ _
           heap_8_reachable heap_8_table heap_8_set_fails).
Defined.

(** X6 on the table holding ["a"], when ["b"] is set. *)
Lemma set_returns_equal_key_witness :
  reachable false heap_a ∧
  ht_set false all_ok heap_a (Some table1) (Some "b"%string) 2
    = Ok (Some "b"%string, heap_ab) ∧
  strcmp "b" "b" = 0 ∧
  ht_get heap_ab (Some table1) (Some "b"%string) = Ok 2.
Proof.
  split; [exact heap_a_reachable | split; [exact heap_a_set_b |]].
  exact (set_returns_equal_key false all_ok _ _ _ _ _ _
           heap_a_reachable heap_a_set_b).
Defined.

(** X7 on the table holding ["a"]. *)
Lemma index_is_modulo_witness :
  reachable false heap_a ∧
  heap_a !! table1 = Some (table_at heap_a table1) ∧
  (∃ n, 4 ≤ n ≤ 63 ∧ capacity (table_at heap_a table1) = 2 ^ n) ∧
  ∀ k, home (capacity (table_at heap_a table1)) k
       = hash_key k `mod` capacity (table_at heap_a table1).
Proof.
  split; [exact heap_a_reachable | split; [exact heap_a_table |]].
  exact (index_is_modulo false heap_a table1 _ heap_a_reachable heap_a_table).
Defined.

(** X8 on the table holding ["a"], when ["b"] is set. *)
Lemma capacity_only_doubles_witness :
  reachable false heap_a ∧
  heap_a !! table1 = Some (table_at heap_a table1) ∧
  ht_set false all_ok heap_a (Some table1) (Some "b"%string) 2
    = Ok (Some "b"%string, heap_ab) ∧
  ∃ t', heap_ab !! table1 = Some t' ∧
    (capacity t' = capacity (table_at heap_a table1)
     ∨ capacity t' = capacity (table_at heap_a table1) * 2 ∧
       capacity (table_at heap_a table1) `div` 2 ≤ length (table_at heap_a table1)).
Proof.
  split; [exact heap_a_reachable |].
  split; [exact heap_a_table | split; [exact heap_a_set_b |]].
  exact (capacity_only_doubles false all_ok heap_a table1 _ _ _ _ _
           heap_a_reachable heap_a_table heap_a_set_b).
Defined.

Lemma ab_equal : strcmp "ab" ab_nul_c = 0.
Proof. reflexivity. Defined.

(** X9 on ["ab"] and on ["ab"] followed by a NUL and more. *)
Lemma hash_key_respects_strcmp_witness :
  strcmp "ab" ab_nul_c = 0 ∧
  hash_key "ab" = hash_key ab_nul_c ∧ 0 ≤ hash_key "ab" < 2 ^ 64 ∧
  ∀ capacity, home capacity "ab" = home capacity ab_nul_c.
Proof.
  split; [exact ab_equal |].
  exact (hash_key_respects_strcmp "ab" ab_nul_c ab_equal).
Defined.

Lemma ab_no_nul : c_str "ab" = "ab"%string.
Proof. reflexivity. Defined.

(** X10 on ["ab"] followed by ["cd"]. *)
Lemma hash_key_append_witness :
  c_str "ab" = "ab"%string ∧
  hash_key ("ab" +:+ "cd") = hash_key_loop "cd" (hash_key "ab").
Proof.
  split; [exact ab_no_nul |].
  exact (proj1 (hash_key_append "ab" "cd" "c"%char ab_no_nul)).
Defined.

Lemma heap_a_next :
  ht_next heap_a (Some (ht_iterator (Some table1)))
  = Ok (true, Some (cursor_of (ht_next heap_a (Some (ht_iterator (Some table1)))))).
Proof. vm_compute. reflexivity. Defined.

Lemma iterator_table : _table (ht_iterator (Some table1)) = Some table1.
Proof. reflexivity. Defined.

Lemma iterator_index : 0 ≤ _index (ht_iterator (Some table1)).
Proof. by vm_compute. Defined.

(** X11 on the first call of [ht_next] on the table holding ["a"]. *)
Lemma next_shows_stored_pair_witness :
  reachable false heap_a ∧
  _table (ht_iterator (Some table1)) = Some table1 ∧
  0 ≤ _index (ht_iterator (Some table1)) ∧
  ht_next heap_a (Some (ht_iterator (Some table1)))
    = Ok (true, Some (cursor_of (ht_next heap_a (Some (ht_iterator (Some table1)))))) ∧
  ∃ k,
    it_key (cursor_of (ht_next heap_a (Some (ht_iterator (Some table1))))) = Some k ∧
    ht_get heap_a (Some table1) (Some k)
      = Ok (it_value (cursor_of (ht_next heap_a (Some (ht_iterator (Some table1)))))) ∧
    it_value (cursor_of (ht_next heap_a (Some (ht_iterator (Some table1))))) ≠ NULL ∧
    _index (ht_iterator (Some table1))
      < _index (cursor_of (ht_next heap_a (Some (ht_iterator (Some table1))))) ∧
    _table (cursor_of (ht_next heap_a (Some (ht_iterator (Some table1)))))
      = Some table1.
Proof.
  split; [exact heap_a_reachable | split; [exact iterator_table |]].
  split; [exact iterator_index | split; [exact heap_a_next |]].
  exact (next_shows_stored_pair false heap_a _ table1 _ heap_a_reachable
           iterator_table iterator_index heap_a_next).
Defined.

(** X12 on the table holding ["a"]. *)
Lemma iteration_agrees_witness :
  reachable false heap_a ∧
  heap_a !! table1 = Some (table_at heap_a table1) ∧
  ∃ pairs,
    ht_iterate heap_a table1 = Ok (shown <$> pairs) ∧
    ht_length heap_a (Some table1) = Ok (Z.of_nat (List.length pairs)) ∧
    NoDup ((λ p, c_str p.1) <$> pairs) ∧
    (∀ k v, (k, v) ∈ pairs → ht_get heap_a (Some table1) (Some k) = Ok v) ∧
    (∀ k v, v ≠ NULL → ht_get heap_a (Some table1) (Some k) = Ok v →
            ∃ k', strcmp k k' = 0 ∧ (k', v) ∈ pairs) ∧
    (∀ k, ht_get heap_a (Some table1) (Some k) = Ok NULL ↔
          ∀ k' v, (k', v) ∈ pairs → strcmp k k' ≠ 0).
Proof.
  split; [exact heap_a_reachable | split; [exact heap_a_table |]].
  exact (iteration_agrees false heap_a table1 _ heap_a_reachable heap_a_table).
Defined.

(** X13 on the table holding ["a"]. *)
Lemma destroy_removes_only_its_table_witness :
  reachable false heap_a ∧
  heap_a !! table1 = Some (table_at heap_a table1) ∧
  ∃ h', ht_destroy heap_a (Some table1) = Ok h' ∧
        h' !! table1 = None ∧ (∀ l', l' ≠ table1 → h' !! l' = heap_a !! l') ∧
        reachable false h' ∧
        ht_destroy h' None = Ok h'.
Proof.
  split; [exact heap_a_reachable | split; [exact heap_a_table |]].
  exact (destroy_removes_only_its_table false heap_a table1 _
           heap_a_reachable heap_a_table).
Defined.

Lemma two_slots : 0 < 2 < 2 ^ 64.
Proof. by vm_compute. Defined.

Lemma full2_taken : ∀ i, 0 ≤ i < 2 → taken_by_other full2 "c" i.
Proof.
  intros i Hi. assert (i = 0 ∨ i = 1) as [-> | ->] by lia.
  - exists {| key := Some "a"%string; value := 1 |}, "a"%string.
    split; [reflexivity | split; [reflexivity | discriminate]].
  - exists {| key := Some "b"%string; value := 2 |}, "b"%string.
    split; [reflexivity | split; [reflexivity | discriminate]].
Defined.

(** X14 on an array of two slots holding ["a"] and ["b"], probed for
    ["c"]. *)
Lemma probe_never_ends_on_full_array_witness :
  0 < 2 < 2 ^ 64 ∧
  (∀ i, 0 ≤ i < 2 → taken_by_other full2 "c" i) ∧
  ht_get_loop 5 full2 2 "c" (home 2 "c") = Err OutOfFuel ∧
  ht_set_entry_loop 5 full2 2 "c" 3 (home 2 "c") = Err OutOfFuel.
Proof.
  split; [exact two_slots | split; [exact full2_taken |]].
  exact (probe_never_ends_on_full_array full2 2 "c" 3 5 two_slots full2_taken).
Defined.

(** X15 on the table holding ["a"], when ["b"] is set. *)
Lemma length_step_witness :
  reachable false heap_a ∧
  ht_set false all_ok heap_a (Some table1) (Some "b"%string) 2
    = Ok (Some "b"%string, heap_ab) ∧
  ∃ w n, ht_get heap_a (Some table1) (Some "b"%string) = Ok w ∧
         ht_length heap_a (Some table1) = Ok n ∧
         ht_length heap_ab (Some table1) = Ok (if w =? NULL then n + 1 else n).
Proof.
  split; [exact heap_a_reachable | split; [exact heap_a_set_b |]].
  exact (length_step false all_ok _ _ _ _ _ _ heap_a_reachable heap_a_set_b).
Defined.

Lemma heap_empty_reachable : reachable false heap_empty.
Proof. exists prog_empty. vm_compute. reflexivity. Defined.

Lemma a_not_b : strcmp "a" "b" ≠ 0.
Proof. discriminate. Defined.

Lemma heap_empty_set_a :
  ht_set false all_ok heap_empty (Some table1) (Some "a"%string) 1
  = Ok (Some "a"%string, heap_a).
Proof. vm_compute. reflexivity. Defined.

Lemma heap_empty_set_b :
  ht_set false all_ok heap_empty (Some table1) (Some "b"%string) 2
  = Ok (Some "b"%string, heap_b).
Proof. vm_compute. reflexivity. Defined.

Lemma heap_b_set_a :
  ht_set false all_ok heap_b (Some table1) (Some "a"%string) 1
  = Ok (Some "a"%string, heap_ba).
Proof. vm_compute. reflexivity. Defined.

(** X18 on a fresh table: ["a"] then ["b"], and ["b"] then ["a"]. *)
Lemma sets_of_different_keys_commute_witness :
  reachable false heap_empty ∧ strcmp "a" "b" ≠ 0 ∧
  ht_set false all_ok heap_empty (Some table1) (Some "a"%string) 1
    = Ok (Some "a"%string, heap_a) ∧
  ht_set false all_ok heap_a (Some table1) (Some "b"%string) 2
    = Ok (Some "b"%string, heap_ab) ∧
  ht_set false all_ok heap_empty (Some table1) (Some "b"%string) 2
    = Ok (Some "b"%string, heap_b) ∧
  ht_set false all_ok heap_b (Some table1) (Some "a"%string) 1
    = Ok (Some "a"%string, heap_ba) ∧
  (∃ n, ht_length heap_ab (Some table1) = Ok n ∧
        ht_length heap_ba (Some table1) = Ok n) ∧
  ∀ k, ∃ w, ht_get heap_ab (Some table1) (Some k) = Ok w ∧
            ht_get heap_ba (Some table1) (Some k) = Ok w.
Proof.
  split; [exact heap_empty_reachable | split; [exact a_not_b |]].
  split; [exact heap_empty_set_a | split; [exact heap_a_set_b |]].
  split; [exact heap_empty_set_b | split; [exact heap_b_set_a |]].
  exact (sets_of_different_keys_commute false all_ok all_ok all_ok all_ok
           heap_empty table1 "a" "b" 1 2 _ _ _ _ _ _ _ _
           heap_empty_reachable a_not_b heap_empty_set_a heap_a_set_b
           heap_empty_set_b heap_b_set_a).
Defined.
